(** * ts-doc-extract: a shallow embedding of the extraction engine

    The development follows the three source modules of the tool:
    the comment/JSDoc extractor, the type-information serializer with the
    signature builder, and the symbol extractor with its orchestrator
    [extractModule].

    Conventions of the embedding.
    - A JavaScript string is a [string]: a sequence of code units, here the
      code units below 256.
    - [undefined] is [None]; an accessor that a node may lack (the source
      probes it with [typeof x.f === 'function'] or [x.f?.()]) is an
      [option] whose [None] means that the accessor is missing.
    - A thrown exception is the [Throw] outcome of a [Completion].
    - The two host functions the code calls, [String.prototype.localeCompare]
      and [Array.prototype.sort], are parameters of the extractor; their
      ECMAScript contracts are stated in [ArraySort]. *)

From Stdlib Require Import ZArith List String Ascii Bool Lia.
From Stdlib Require Import Sorting.Sorted Sorting.Permutation.
Import ListNotations.

Local Open Scope string_scope.
Local Open Scope Z_scope.

(* ================================================================== *)
(** * JavaScript string primitives *)
(* ================================================================== *)

Module JsString.

(** [p] is an initial segment of [s]. *)
Fixpoint isPrefix (p s : string) : bool :=
  match p, s with
  | EmptyString, _ => true
  | String a p', String b s' => Ascii.eqb a b && isPrefix p' s'
  | String _ _, EmptyString => false
  end.

(** [s.startsWith(p)] *)
Definition startsWith (s p : string) : bool := isPrefix p s.

(** [s.includes(sub)]: some position of [s] starts with [sub]. *)
Fixpoint includes (s sub : string) : bool :=
  isPrefix sub s ||
  match s with
  | EmptyString => false
  | String _ s' => includes s' sub
  end.

(** [s.split(sep)] for a one-character separator: never empty. *)
Fixpoint split (sep : ascii) (s : string) : list string :=
  match s with
  | EmptyString => [EmptyString]
  | String c s' =>
      if Ascii.eqb c sep then EmptyString :: split sep s'
      else match split sep s' with
           | h :: t => String c h :: t
           | [] => [String c EmptyString]
           end
  end.

(** [parts.join(sep)] *)
Definition join (sep : string) (parts : list string) : string :=
  String.concat sep parts.

(** White space and line terminators removed by [trim]:
    TAB, LF, VT, FF, CR, SPACE and NBSP. *)
Definition isWhiteSpace (c : ascii) : bool :=
  let n := N_of_ascii c in
  (((9 <=? n) && (n <=? 13)) || (n =? 32) || (n =? 160))%N.

(** Line terminators, which the regular-expression atom [.] rejects. *)
Definition isLineTerminator (c : ascii) : bool :=
  let n := N_of_ascii c in ((n =? 10) || (n =? 13))%N.

Fixpoint trimStart (s : string) : string :=
  match s with
  | EmptyString => EmptyString
  | String c s' => if isWhiteSpace c then trimStart s' else s
  end.

Fixpoint trimEnd (s : string) : string :=
  match s with
  | EmptyString => EmptyString
  | String c s' =>
      match trimEnd s' with
      | EmptyString => if isWhiteSpace c then EmptyString else String c EmptyString
      | r => String c r
      end
  end.

(** [s.trim()] *)
Definition trim (s : string) : string := trimEnd (trimStart s).

(** [s.substring(0, n)] *)
Definition substring0 (n : nat) (s : string) : string := String.substring 0 n s.

(** Truthiness of a string: only the empty string is falsy. *)
Definition truthy (s : string) : bool := negb (s =? "")%string.

(** A template literal interpolating a possibly undefined string. *)
Definition interpolate (o : option string) : string :=
  match o with Some s => s | None => "undefined" end.

(** [all p s]: every code unit of [s] satisfies [p]. *)
Fixpoint all (p : ascii -> bool) (s : string) : bool :=
  match s with
  | EmptyString => true
  | String c s' => p c && all p s'
  end.

End JsString.

(* ================================================================== *)
(** * Completions: normal results and thrown exceptions *)
(* ================================================================== *)

Inductive JsError : Type :=
| TypeError (message : string).

Inductive Completion (A : Type) : Type :=
| Normal (value : A)
| Throw (error : JsError).

Arguments Normal {A} value.
Arguments Throw {A} error.

Definition bind {A B : Type} (c : Completion A) (k : A -> Completion B)
  : Completion B :=
  match c with
  | Normal a => k a
  | Throw e => Throw e
  end.

Notation "x <- c ;; k" := (bind c (fun x => k))
  (at level 61, c at next level, right associativity).
Notation "' p <- c ;; k" := (bind c (fun x => match x with p => k end))
  (at level 61, p pattern, c at next level, right associativity).

(* ================================================================== *)
(** * Array.prototype.sort *)
(* ================================================================== *)

Module ArraySort.

Section Contract.
Context {A : Type}.
Variable cmp : A -> A -> Z.

(** [a] may stand before [b]. *)
Definition before (a b : A) : Prop := cmp a b <= 0.

Definition beforeb (a b : A) : bool := cmp a b <=? 0.

(** [a] and [b] tie: each may stand before the other. *)
Definition tie (a b : A) : bool := beforeb a b && beforeb b a.

(** Transitivity of "may stand before" on the elements of [L]. *)
Definition transitive_on (L : list A) : Prop :=
  forall a b c, In a L -> In b L -> In c L ->
    cmp a b <= 0 -> cmp b c <= 0 -> cmp a c <= 0.

(** The comparator is consistent on the elements of [l]: transitive, and
    of opposite signs on the two orders of any two positions. On an element
    and itself, which no sort compares, it need only not be positive. *)
Record consistent (l : list A) : Prop := {
  consistent_refl : forall a, In a l -> cmp a a <= 0;
  consistent_trans : transitive_on l;
  consistent_sign : ForallOrdPairs
    (fun a b => (cmp a b < 0 <-> 0 < cmp b a) /\
                (0 < cmp a b <-> cmp b a < 0)) l
}.

(** [l'] is [l] sorted by a stable sort: a permutation in which every
    element may stand before all later ones, and in which the elements
    that tie with any given one keep their order. *)
Record sorts_stably (l l' : list A) : Prop := {
  sorted_perm : Permutation l l';
  sorted_order : StronglySorted before l';
  sorted_stable : forall z, In z l ->
    filter (tie z) l' = filter (tie z) l
}.

(** Reference implementation: stable insertion sort. *)
Fixpoint insert (x : A) (l : list A) : list A :=
  match l with
  | [] => [x]
  | y :: ys => if cmp x y <=? 0 then x :: y :: ys else y :: insert x ys
  end.

Fixpoint insertionSort (l : list A) : list A :=
  match l with
  | [] => []
  | x :: l' => insert x (insertionSort l')
  end.

(** A second implementation, as engines run it: the elements enter a
    sorted prefix from left to right, each behind its ties. *)
Fixpoint insertAfter (x : A) (l : list A) : list A :=
  match l with
  | [] => [x]
  | y :: ys => if cmp x y <? 0 then x :: y :: ys else y :: insertAfter x ys
  end.

Definition forwardSort (l : list A) : list A :=
  fold_left (fun acc x => insertAfter x acc) l [].

End Contract.

(** The sort of an engine, at every element type. *)
Definition EngineSort : Type := forall A : Type, (A -> A -> Z) -> list A -> list A.

(** The ECMAScript requirement on an engine's sort: with a consistent
    comparator the array ends up sorted, and the sort is stable. *)
Definition sort_contract (srt : EngineSort) : Prop :=
  forall (A : Type) (cmp : A -> A -> Z) (l : list A),
    consistent cmp l -> sorts_stably cmp l (srt A cmp l).

Definition referenceSort : EngineSort := fun A cmp l => insertionSort cmp l.

Definition forwardEngine : EngineSort := fun A cmp l => forwardSort cmp l.

End ArraySort.

(* ================================================================== *)
(** * The parser's nodes, as the extractor reads them *)
(* ================================================================== *)

(** The modifier kinds a node can be queried for with [hasModifier]. *)
Inductive SyntaxKind : Type :=
| PrivateKeyword | ProtectedKeyword | PublicKeyword | StaticKeyword
| ReadonlyKeyword | AbstractKeyword | AsyncKeyword | ExportKeyword
| DefaultKeyword | DeclareKeyword.

Definition SyntaxKind_eqb (a b : SyntaxKind) : bool :=
  match a, b with
  | PrivateKeyword, PrivateKeyword | ProtectedKeyword, ProtectedKeyword
  | PublicKeyword, PublicKeyword | StaticKeyword, StaticKeyword
  | ReadonlyKeyword, ReadonlyKeyword | AbstractKeyword, AbstractKeyword
  | AsyncKeyword, AsyncKeyword | ExportKeyword, ExportKeyword
  | DefaultKeyword, DefaultKeyword | DeclareKeyword, DeclareKeyword => true
  | _, _ => false
  end.

(** A leading comment range: [getText], [getKind], [getPos]. *)
Record CommentRange : Type := {
  range_text : string;
  range_kind : Z;
  range_pos : Z
}.

(** A node of a tag comment that holds an inline tag such as a link: a
    piece of plain text or the inline tag, with its [getText]. *)
Record JSDocCommentNode : Type := {
  commentnode_getText : string
}.

(** What [getComment] returns when it does not return [undefined]: the
    text of a plain comment, or the array of the parser's nodes for a
    comment that holds an inline tag. *)
Inductive CommentValue : Type :=
| CommentText (text : string)
| CommentNodes (nodes : list JSDocCommentNode).

(** A JSDoc tag node: [getTagName], [getComment] ([None] for
    [undefined]), and [getTypeExpression] when the tag class has one (its
    text when it returns a node). *)
Record JSDocTagNode : Type := {
  tag_getTagName : string;
  tag_getComment : option CommentValue;
  tag_getTypeExpression : option (option string)
}.

(** A JSDoc block: [getDescription] and [getTags]. *)
Record JSDocNode : Type := {
  doc_getDescription : string;
  doc_getTags : list JSDocTagNode
}.

(** What the extractor reads off any node. *)
Record NodeBase : Type := {
  getLeadingCommentRanges : list CommentRange;
  getJsDocs : option (list JSDocNode);
  hasModifier : option (list SyntaxKind);
  getText : string
}.

Record ParameterNode : Type := {
  param_getName : string;
  param_getType : string;
  param_isOptional : bool;
  param_getInitializer : option string
}.

Record ConstructorNode : Type := {
  ctor_base : NodeBase;
  ctor_getParameters : list ParameterNode
}.

Record PropertyNode : Type := {
  prop_base : NodeBase;
  prop_getName : string;
  prop_getType : string;
  prop_isStatic : bool
}.

Record MethodNode : Type := {
  method_base : NodeBase;
  method_getName : string;
  method_getParameters : list ParameterNode;
  method_getReturnType : string;
  method_isStatic : bool;
  method_isAsync : bool
}.

(** An interface member: its node and the name of its symbol, if resolved. *)
Record InterfaceMemberNode : Type := {
  imember_base : NodeBase;
  imember_getSymbol : option string
}.

(** The computed value of an enum member, a string or a number (an
    integer here). *)
Inductive EnumValue : Type :=
| EnumString (s : string)
| EnumNumber (n : Z).

Record EnumMemberNode : Type := {
  emember_getName : string;
  emember_getValue : option EnumValue
}.

(** The accessors that come with the class of a node. *)
Inductive NodeShape : Type :=
| FunctionLike (getParameters : list ParameterNode) (getReturnType : string)
               (isAsync : option bool)
| ClassLike (getBaseClass : option (option string)) (getImplements : list string)
            (getConstructors : list ConstructorNode)
            (getProperties : list PropertyNode) (getMethods : list MethodNode)
| InterfaceLike (getMembers : list InterfaceMemberNode)
| TypeAliasLike (getType : string)
| VariableLike (getType : string) (getInitializer : option string)
| EnumLike (getMembers : list EnumMemberNode)
| OtherShape.

(** A declaration node. [getName] is [None] when the node has no such
    accessor and [Some None] when it returns [undefined]; [getSymbol]
    carries the symbol's name. *)
Record Node : Type := {
  getKindName : string;
  node_base : NodeBase;
  node_getName : option (option string);
  node_getSymbol : option (option string);
  node_shape : NodeShape
}.

Record ImportDeclarationNode : Type := {
  import_getModuleSpecifierValue : string;
  import_getNamedImports : list string;
  import_getDefaultImport : option string
}.

(** A loaded source file: exported declarations in the order of the map's
    entries, the import declarations, whether a default export symbol
    exists, and the number of the last line. *)
Record SourceFile : Type := {
  getExportedDeclarations : list (string * list Node);
  getImportDeclarations : list ImportDeclarationNode;
  getDefaultExportSymbol : option unit;
  getEndLineNumber : Z
}.

(* ================================================================== *)
(** * Output records *)
(* ================================================================== *)

Record CommentRecord : Type := {
  comment_type : string;
  comment_text : string;
  comment_start : Z
}.

Record TagRecord : Type := {
  tag_name : string;
  tag_text : CommentValue;
  tag_type : option string
}.

Record JSDocRecord : Type := {
  jsdoc_description : string;
  jsdoc_tags : list TagRecord
}.

Record TypeInfo : Type := {
  type_raw : string;
  type_isGeneric : bool;
  type_typeParameters : list string
}.

Record ParameterRecord : Type := {
  parameter_name : string;
  parameter_type : string;
  parameter_optional : bool;
  parameter_defaultValue : option string;
  parameter_comment : option CommentValue
}.

(** A parameter of a constructor or method: name, type, optional. *)
Record MemberParameterRecord : Type := {
  mparameter_name : string;
  mparameter_type : string;
  mparameter_optional : bool
}.

Record MemberRecord : Type := {
  member_kind : string;
  member_name : string;
  member_signature : string;
  member_visibility : string;
  member_isStatic : bool;
  member_isAsync : option bool;
  member_leadingComments : list CommentRecord;
  member_jsDoc : option JSDocRecord;
  member_parameters : option (list MemberParameterRecord);
  member_returnType : option string
}.

Record InterfacePropertyRecord : Type := {
  iproperty_name : string;
  iproperty_signature : string;
  iproperty_leadingComments : list CommentRecord
}.

Record EnumValueRecord : Type := {
  enumvalue_name : string;
  enumvalue_value : option EnumValue
}.

(** The fields a kind-specific extractor adds to the base record. *)
Inductive KindFields : Type :=
| NoFields
| FunctionFields (parameters : list ParameterRecord) (returnType : string)
                 (isAsync : bool)
| ClassFields (baseClass : option string) (interfaces : list string)
              (members : list MemberRecord)
| InterfaceFields (properties : list InterfacePropertyRecord)
| TypeAliasFields (typeInfo : TypeInfo)
| ConstFields (typeInfo : TypeInfo) (value : option string)
| EnumFields (enumValues : list EnumValueRecord).

Record SymbolRecord : Type := {
  symbol_kind : string;
  symbol_name : string;
  symbol_signature : string;
  symbol_leadingComments : list CommentRecord;
  symbol_jsDoc : option JSDocRecord;
  symbol_isPrivate : bool;
  symbol_fields : KindFields
}.

Record ImportRecord : Type := {
  importrec_module : string;
  importrec_namedImports : list string;
  importrec_defaultImport : option string
}.

Record ModuleMetadata : Type := {
  hasDefaultExport : bool;
  exportCount : Z;
  loc : Z
}.

Record ExtractionResult : Type := {
  result_module : string;
  result_filePath : string;
  result_exports : list SymbolRecord;
  result_imports : list ImportRecord;
  result_metadata : ModuleMetadata
}.

(** The members of a record, empty unless it is a class record. *)
Definition symbol_members (s : SymbolRecord) : list MemberRecord :=
  match symbol_fields s with
  | ClassFields _ _ members => members
  | _ => []
  end.

(* ================================================================== *)
(** * Comment extraction utilities *)
(* ================================================================== *)

Definition extractComments (decl : NodeBase) : list CommentRecord :=
  map (fun range =>
         {| comment_type := if range_kind range =? 2 then "single-line"
                            else "multi-line";
            comment_text := range_text range;
            comment_start := range_pos range |})
      (getLeadingCommentRanges decl).

(** [tag.getComment() || '']: an array is truthy, also an empty one. *)
Definition commentOrEmpty (c : option CommentValue) : CommentValue :=
  match c with
  | Some (CommentText s) => if JsString.truthy s then CommentText s else CommentText ""
  | Some (CommentNodes nodes) => CommentNodes nodes
  | None => CommentText ""
  end.

(** [tag.getTypeExpression?.()?.getText()] *)
Definition typeExpressionText (t : option (option string)) : option string :=
  match t with
  | Some (Some text) => Some text
  | _ => None
  end.

Definition extractTag (tag : JSDocTagNode) : TagRecord :=
  {| tag_name := tag_getTagName tag;
     tag_text := commentOrEmpty (tag_getComment tag);
     tag_type := typeExpressionText (tag_getTypeExpression tag) |}.

Definition extractJSDoc (decl : NodeBase) : option JSDocRecord :=
  match getJsDocs decl with
  | None => None
  | Some [] => None
  | Some (doc :: _) =>
      Some {| jsdoc_description := JsString.trim (doc_getDescription doc);
              jsdoc_tags := map extractTag (doc_getTags doc) |}
  end.

(** [text.includes(paramName)]: [String.prototype.includes] on a text,
    [Array.prototype.includes] on an array of nodes, none of which is the
    string [paramName]. *)
Definition textIncludes (text : CommentValue) (paramName : string) : bool :=
  match text with
  | CommentText s => JsString.includes s paramName
  | CommentNodes _ => false
  end.

(** The predicate handed to [find]. *)
Definition isParamTagFor (paramName : string) (tag : TagRecord) : bool :=
  (tag_name tag =? "param")%string && textIncludes (tag_text tag) paramName.

Definition extractParamComment (jsDoc : option JSDocRecord) (paramName : string)
  : option CommentValue :=
  match jsDoc with
  | None => None
  | Some doc => option_map tag_text (find (isParamTagFor paramName) (jsdoc_tags doc))
  end.

(* ================================================================== *)
(** * Type information serialization utilities *)
(* ================================================================== *)

(** The tail of a match of [<(.+)>$] after its [<]: the text [s] is
    [body ++ ">"] and no code unit of [body] is a line terminator.
    The result is [body], which may still be empty. *)
Fixpoint dotsThenClose (s : string) : option string :=
  match s with
  | EmptyString => None
  | String c rest =>
      match rest with
      | EmptyString => if Ascii.eqb c ">" then Some EmptyString else None
      | String _ _ =>
          if JsString.isLineTerminator c then None
          else option_map (String c) (dotsThenClose rest)
      end
  end.

(** [typeStr.match(/<(.+)>$/)]: the capture group of the leftmost match. *)
Fixpoint matchTypeArguments (s : string) : option string :=
  match s with
  | EmptyString => None
  | String c rest =>
      if Ascii.eqb c "<" then
        match dotsThenClose rest with
        | Some (String b body) => Some (String b body)
        | _ => matchTypeArguments rest
        end
      else matchTypeArguments rest
  end.

Definition extractTypeParameters (typeStr : string) : list string :=
  if negb (JsString.includes typeStr "<") then []
  else match matchTypeArguments typeStr with
       | None => []
       | Some group => map JsString.trim (JsString.split "," group)
       end.

(** [raw] stands for [type.getText()]. *)
Definition extractTypeInfo (raw : string) : TypeInfo :=
  {| type_raw := raw;
     type_isGeneric := JsString.includes raw "<";
     type_typeParameters := extractTypeParameters raw |}.

(** Calling an accessor that the node may not have. *)
Definition callGetName (decl : Node) : Completion (option string) :=
  match node_getName decl with
  | Some name => Normal name
  | None => Throw (TypeError "decl.getName is not a function")
  end.

Definition asFunctionLike (decl : Node)
  : Completion (list ParameterNode * string * option bool) :=
  match node_shape decl with
  | FunctionLike ps ret async => Normal (ps, ret, async)
  | _ => Throw (TypeError "decl.getParameters is not a function")
  end.

Definition asClassLike (decl : Node)
  : Completion (option (option string) * list string * list ConstructorNode
                * list PropertyNode * list MethodNode) :=
  match node_shape decl with
  | ClassLike base impl ctors props methods => Normal (base, impl, ctors, props, methods)
  | _ => Throw (TypeError "decl.getBaseClass is not a function")
  end.

Definition asInterfaceLike (decl : Node) : Completion (list InterfaceMemberNode) :=
  match node_shape decl with
  | InterfaceLike members => Normal members
  | _ => Throw (TypeError "decl.getMembers is not a function")
  end.

Definition asEnumLike (decl : Node) : Completion (list EnumMemberNode) :=
  match node_shape decl with
  | EnumLike members => Normal members
  | _ => Throw (TypeError "decl.getMembers is not a function")
  end.

(** [decl.getType().getText()] *)
Definition callGetType (decl : Node) : Completion string :=
  match node_shape decl with
  | TypeAliasLike t => Normal t
  | VariableLike t _ => Normal t
  | _ => Throw (TypeError "decl.getType is not a function")
  end.

(** [decl.getInitializer()?.getText()] *)
Definition callGetInitializer (decl : Node) : Completion (option string) :=
  match node_shape decl with
  | VariableLike _ init => Normal init
  | _ => Throw (TypeError "decl.getInitializer is not a function")
  end.

(** [`${name}${optional}: ${type}`] *)
Definition renderParameter (p : ParameterNode) : string :=
  param_getName p ++ (if param_isOptional p then "?" else "") ++ ": " ++ param_getType p.

Definition renderParameters (ps : list ParameterNode) : string :=
  JsString.join ", " (map renderParameter ps).

Definition buildFunctionSignature (decl : Node) : Completion string :=
  let name := match node_getName decl with
              | Some (Some n) => if JsString.truthy n then n else "anonymous"
              | _ => "anonymous"
              end in
  '(ps, returnType, async) <- asFunctionLike decl ;;
  let isAsync := match async with Some true => "async " | _ => "" end in
  Normal (isAsync ++ "function " ++ name ++ "(" ++ renderParameters ps ++ "): "
          ++ returnType).

Definition buildClassSignature (decl : Node) : Completion string :=
  name <- callGetName decl ;;
  '(baseClass, interfaces, _, _, _) <- asClassLike decl ;;
  let sig := "class " ++ JsString.interpolate name in
  let sig := match baseClass with
             | Some baseName => sig ++ " extends " ++ JsString.interpolate baseName
             | None => sig
             end in
  let sig := if (0 <? Z.of_nat (List.length interfaces))
             then sig ++ " implements " ++ JsString.join ", " interfaces
             else sig in
  Normal sig.

Definition buildInterfaceSignature (decl : Node) : Completion string :=
  name <- callGetName decl ;;
  members <- asInterfaceLike decl ;;
  let memberSigs :=
    JsString.join "; " (map (fun m => getText (imember_base m)) (firstn 3 members)) in
  let more := if (3 <? Z.of_nat (List.length members)) then "; ..." else "" in
  Normal ("interface " ++ JsString.interpolate name ++ " { " ++ memberSigs ++ more ++ " }").

Definition buildTypeAliasSignature (decl : Node) : Completion string :=
  name <- callGetName decl ;;
  type <- callGetType decl ;;
  Normal ("type " ++ JsString.interpolate name ++ " = " ++ type).

Definition buildVariableSignature (decl : Node) : Completion string :=
  name <- callGetName decl ;;
  type <- callGetType decl ;;
  init <- callGetInitializer decl ;;
  match init with
  | Some initText =>
      if (Z.of_nat (String.length initText) <? 50)
      then Normal ("const " ++ JsString.interpolate name ++ ": " ++ type ++ " = " ++ initText)
      else Normal ("const " ++ JsString.interpolate name ++ ": " ++ type)
  | None => Normal ("const " ++ JsString.interpolate name ++ ": " ++ type)
  end.

Definition buildSignature (decl : Node) : Completion string :=
  let kind := getKindName decl in
  if (kind =? "FunctionDeclaration")%string || (kind =? "MethodDeclaration")%string
     || (kind =? "ArrowFunction")%string
  then buildFunctionSignature decl
  else if (kind =? "ClassDeclaration")%string then buildClassSignature decl
  else if (kind =? "InterfaceDeclaration")%string then buildInterfaceSignature decl
  else if (kind =? "TypeAliasDeclaration")%string then buildTypeAliasSignature decl
  else if (kind =? "VariableDeclaration")%string then buildVariableSignature decl
  else if (kind =? "EnumDeclaration")%string
  then name <- callGetName decl ;; Normal ("enum " ++ JsString.interpolate name)
  else Normal (JsString.substring0 100 (getText (node_base decl))).

(* ================================================================== *)
(** * Core extraction logic *)
(* ================================================================== *)

(** [array[i]], [undefined] outside the array. *)
Definition arrayGet {A : Type} (l : list A) (i : Z) : option A :=
  if i <? 0 then None else nth_error l (Z.to_nat i).

(** [array[i] = v] for an index inside the array (the only use follows a
    read of the same index that did not yield [undefined]). *)
Fixpoint arraySet {A : Type} (l : list A) (i : nat) (v : A) : list A :=
  match l, i with
  | [], _ => []
  | _ :: t, O => v :: t
  | h :: t, S i' => h :: arraySet t i' v
  end.

(** [array.lastIndexOf(x)], scanning with the index [i] of the head and the
    last index found so far. *)
Fixpoint lastIndexOfFrom (x : string) (l : list string) (i found : Z) : Z :=
  match l with
  | [] => found
  | y :: l' => lastIndexOfFrom x l' (i + 1) (if (y =? x)%string then i else found)
  end.

Definition lastIndexOf (x : string) (l : list string) : Z :=
  lastIndexOfFrom x l 0 (-1).

(** The alternatives of [\.(ts|tsx|js|jsx)$], which must reach the end. *)
Definition isSourceExtension (s : string) : bool :=
  (s =? ".ts")%string || (s =? ".tsx")%string || (s =? ".js")%string
  || (s =? ".jsx")%string.

(** [s.replace(/\.(ts|tsx|js|jsx)$/, '')]: the leftmost match is removed. *)
Fixpoint replaceExtension (s : string) : string :=
  if isSourceExtension s then EmptyString
  else match s with
       | EmptyString => EmptyString
       | String c s' => String c (replaceExtension s')
       end.

Definition deriveModuleName (filePath : string) : Completion string :=
  let parts := JsString.split "/" filePath in
  let srcIndex := lastIndexOf "src" parts in
  if negb (srcIndex =? -1) then
    let afterSrc := skipn (Z.to_nat (srcIndex + 1)) parts in
    let lastIndex := Z.of_nat (List.length afterSrc) - 1 in
    match arrayGet afterSrc lastIndex with
    | None => Throw (TypeError "Cannot read properties of undefined (reading 'replace')")
    | Some last =>
        let afterSrc := arraySet afterSrc (Z.to_nat lastIndex) (replaceExtension last) in
        let afterSrc :=
          match arrayGet afterSrc lastIndex with
          | Some final => if (final =? "index")%string then removelast afterSrc else afterSrc
          | None => afterSrc
          end in
        Normal (JsString.join "." (filter JsString.truthy afterSrc))
    end
  else
    match arrayGet parts (Z.of_nat (List.length parts) - 1) with
    | None => Throw (TypeError "Cannot read properties of undefined (reading 'replace')")
    | Some filename => Normal (replaceExtension filename)
    end.

Definition extractImports (sourceFile : SourceFile) : list ImportRecord :=
  map (fun importDecl =>
         {| importrec_module := import_getModuleSpecifierValue importDecl;
            importrec_namedImports := import_getNamedImports importDecl;
            importrec_defaultImport := import_getDefaultImport importDecl |})
      (getImportDeclarations sourceFile).

Definition getName (decl : Node) : string :=
  match match node_getName decl with
        | Some (Some name) => if JsString.truthy name then Some name else None
        | _ => None
        end with
  | Some name => name
  | None =>
      match node_getSymbol decl with
      | Some (Some symbolName) => symbolName
      | _ => "default"
      end
  end.

(** [node.hasModifier(kind)] on a node that has the accessor. *)
Definition carries (modifiers : list SyntaxKind) (kind : SyntaxKind) : bool :=
  existsb (SyntaxKind_eqb kind) modifiers.

Definition checkPrivacy (decl : Node) : bool :=
  match hasModifier (node_base decl) with
  | Some modifiers =>
      if carries modifiers PrivateKeyword then true
      else if carries modifiers ProtectedKeyword then true
      else JsString.startsWith (getName decl) "_"
  | None => JsString.startsWith (getName decl) "_"
  end.

(** The table of [mapKind]; the kind names of the parser are none of the
    property names every object inherits. *)
Definition kindMapping (kindName : string) : option string :=
  if (kindName =? "FunctionDeclaration")%string then Some "function"
  else if (kindName =? "ArrowFunction")%string then Some "function"
  else if (kindName =? "MethodDeclaration")%string then Some "function"
  else if (kindName =? "ClassDeclaration")%string then Some "class"
  else if (kindName =? "InterfaceDeclaration")%string then Some "interface"
  else if (kindName =? "TypeAliasDeclaration")%string then Some "type"
  else if (kindName =? "VariableDeclaration")%string then Some "const"
  else if (kindName =? "EnumDeclaration")%string then Some "enum"
  else None.

Definition mapKind (kindName : string) : string :=
  match kindMapping kindName with
  | Some kind => kind
  | None => "unknown"
  end.

Definition getVisibility (member : NodeBase) : string :=
  match hasModifier member with
  | Some modifiers =>
      if carries modifiers PrivateKeyword then "private"
      else if carries modifiers ProtectedKeyword then "protected"
      else "public"
  | None => "public"
  end.

Definition memberParameter (p : ParameterNode) : MemberParameterRecord :=
  {| mparameter_name := param_getName p;
     mparameter_type := param_getType p;
     mparameter_optional := param_isOptional p |}.

Definition buildConstructorSignature (ctor : ConstructorNode) : string :=
  "constructor(" ++ renderParameters (ctor_getParameters ctor) ++ ")".

Definition buildMethodSignature (method : MethodNode) : string :=
  method_getName method ++ "(" ++ renderParameters (method_getParameters method)
  ++ "): " ++ method_getReturnType method.

Definition constructorMember (ctor : ConstructorNode) : MemberRecord :=
  {| member_kind := "constructor";
     member_name := "constructor";
     member_signature := buildConstructorSignature ctor;
     member_visibility := "public";
     member_isStatic := false;
     member_isAsync := None;
     member_leadingComments := extractComments (ctor_base ctor);
     member_jsDoc := extractJSDoc (ctor_base ctor);
     member_parameters := Some (map memberParameter (ctor_getParameters ctor));
     member_returnType := None |}.

Definition propertyMember (prop : PropertyNode) (vis : string) : MemberRecord :=
  {| member_kind := "property";
     member_name := prop_getName prop;
     member_signature := prop_getName prop ++ ": " ++ prop_getType prop;
     member_visibility := vis;
     member_isStatic := prop_isStatic prop;
     member_isAsync := None;
     member_leadingComments := extractComments (prop_base prop);
     member_jsDoc := extractJSDoc (prop_base prop);
     member_parameters := None;
     member_returnType := None |}.

Definition methodMember (method : MethodNode) (vis : string) : MemberRecord :=
  {| member_kind := "method";
     member_name := method_getName method;
     member_signature := buildMethodSignature method;
     member_visibility := vis;
     member_isStatic := method_isStatic method;
     member_isAsync := Some (method_isAsync method);
     member_leadingComments := extractComments (method_base method);
     member_jsDoc := extractJSDoc (method_base method);
     member_parameters := Some (map memberParameter (method_getParameters method));
     member_returnType := Some (method_getReturnType method) |}.

(** The body of the two member loops: [continue] on a filtered member. *)
Definition keepMember (variant vis : string) : bool :=
  negb ((variant =? "public")%string && negb (vis =? "public")%string).

Fixpoint pushProperties (variant : string) (props : list PropertyNode)
  : list MemberRecord :=
  match props with
  | [] => []
  | prop :: rest =>
      let vis := getVisibility (prop_base prop) in
      if keepMember variant vis
      then propertyMember prop vis :: pushProperties variant rest
      else pushProperties variant rest
  end.

Fixpoint pushMethods (variant : string) (methods : list MethodNode)
  : list MemberRecord :=
  match methods with
  | [] => []
  | method :: rest =>
      let vis := getVisibility (method_base method) in
      if keepMember variant vis
      then methodMember method vis :: pushMethods variant rest
      else pushMethods variant rest
  end.

(** [symbol.members] as pushed, before the sort. *)
Definition pushedMembers (variant : string) (ctors : list ConstructorNode)
  (props : list PropertyNode) (methods : list MethodNode) : list MemberRecord :=
  (match ctors with
  | ctor :: _ => [constructorMember ctor]
  | [] => []
  end ++ pushProperties variant props ++ pushMethods variant methods)%list.

(** The table of the export comparator, and [kindOrder[kind] ?? 99]. *)
Definition kindOrder (kind : string) : option Z :=
  if (kind =? "type")%string then Some 0
  else if (kind =? "interface")%string then Some 1
  else if (kind =? "const")%string then Some 2
  else if (kind =? "function")%string then Some 3
  else if (kind =? "class")%string then Some 4
  else if (kind =? "enum")%string then Some 5
  else None.

Definition kindPriority (kind : string) : Z :=
  match kindOrder kind with
  | Some order => order
  | None => 99
  end.

Definition extractFunction (decl : Node) (symbol : SymbolRecord) : Completion KindFields :=
  '(params, returnType, async) <- asFunctionLike decl ;;
  Normal (FunctionFields
    (map (fun p =>
            {| parameter_name := param_getName p;
               parameter_type := param_getType p;
               parameter_optional := param_isOptional p;
               parameter_defaultValue := param_getInitializer p;
               parameter_comment :=
                 extractParamComment (symbol_jsDoc symbol) (param_getName p) |})
         params)
    returnType
    (match async with Some b => b | None => false end)).

Definition extractInterface (decl : Node) : Completion KindFields :=
  members <- asInterfaceLike decl ;;
  Normal (InterfaceFields
    (map (fun member =>
            {| iproperty_name :=
                 match imember_getSymbol member with
                 | Some n => if JsString.truthy n then n else "unknown"
                 | None => "unknown"
                 end;
               iproperty_signature := getText (imember_base member);
               iproperty_leadingComments := extractComments (imember_base member) |})
         members)).

Definition extractTypeAlias (decl : Node) : Completion KindFields :=
  type <- callGetType decl ;;
  Normal (TypeAliasFields (extractTypeInfo type)).

Definition extractConst (decl : Node) : Completion KindFields :=
  type <- callGetType decl ;;
  init <- callGetInitializer decl ;;
  Normal (ConstFields (extractTypeInfo type) init).

Definition extractEnum (decl : Node) : Completion KindFields :=
  members <- asEnumLike decl ;;
  Normal (EnumFields
    (map (fun member =>
            {| enumvalue_name := emember_getName member;
               enumvalue_value := emember_getValue member |})
         members)).

Definition withFields (symbol : SymbolRecord) (fields : KindFields) : SymbolRecord :=
  {| symbol_kind := symbol_kind symbol;
     symbol_name := symbol_name symbol;
     symbol_signature := symbol_signature symbol;
     symbol_leadingComments := symbol_leadingComments symbol;
     symbol_jsDoc := symbol_jsDoc symbol;
     symbol_isPrivate := symbol_isPrivate symbol;
     symbol_fields := fields |}.

Section Extractor.

(** [a.localeCompare(b)] in the locale of the host. *)
Variable localeCompare : string -> string -> Z.

(** [array.sort(comparator)] of the engine. *)
Variable arraySort : ArraySort.EngineSort.

(** The comparator of the member sort. *)
Definition memberCompare (a b : MemberRecord) : Z :=
  if (member_kind a =? "constructor")%string then -1
  else if (member_kind b =? "constructor")%string then 1
  else if negb (member_kind a =? member_kind b)%string
  then (if (member_kind a =? "property")%string then -1 else 1)
  else localeCompare (member_name a) (member_name b).

(** The comparator of the export sort. *)
Definition symbolCompare (a b : SymbolRecord) : Z :=
  let aOrder := kindPriority (symbol_kind a) in
  let bOrder := kindPriority (symbol_kind b) in
  if negb (aOrder =? bOrder) then aOrder - bOrder
  else localeCompare (symbol_name a) (symbol_name b).

Definition extractClass (decl : Node) (variant : string) : Completion KindFields :=
  '(baseClass, interfaces, ctors, props, methods) <- asClassLike decl ;;
  let members := pushedMembers variant ctors props methods in
  Normal (ClassFields
    (match baseClass with Some name => name | None => None end)
    interfaces
    (arraySort _ memberCompare members)).

Definition extractSymbol (decl : Node) (variant : string)
  : Completion (option SymbolRecord) :=
  let kind := getKindName decl in
  let isPrivate := checkPrivacy decl in
  if (variant =? "public")%string && isPrivate then Normal None
  else
    let leadingComments := extractComments (node_base decl) in
    let jsDoc := extractJSDoc (node_base decl) in
    signature <- buildSignature decl ;;
    let symbol :=
      {| symbol_kind := mapKind kind;
         symbol_name := getName decl;
         symbol_signature := signature;
         symbol_leadingComments := leadingComments;
         symbol_jsDoc := jsDoc;
         symbol_isPrivate := isPrivate;
         symbol_fields := NoFields |} in
    fields <-
      (if (symbol_kind symbol =? "function")%string then extractFunction decl symbol
       else if (symbol_kind symbol =? "class")%string then extractClass decl variant
       else if (symbol_kind symbol =? "interface")%string then extractInterface decl
       else if (symbol_kind symbol =? "type")%string then extractTypeAlias decl
       else if (symbol_kind symbol =? "const")%string then extractConst decl
       else if (symbol_kind symbol =? "enum")%string then extractEnum decl
       else Normal NoFields) ;;
    Normal (Some (withFields symbol fields)).

(** The inner loop of [extractModule] over the declarations of one name. *)
Fixpoint extractDeclarations (declarations : list Node) (variant : string)
  : Completion (list SymbolRecord) :=
  match declarations with
  | [] => Normal []
  | decl :: rest =>
      symbol <- extractSymbol decl variant ;;
      symbols <- extractDeclarations rest variant ;;
      Normal (match symbol with
              | Some s => s :: symbols
              | None => symbols
              end)
  end.

(** The outer loop over the entries of the export map. *)
Fixpoint extractEntries (entries : list (string * list Node)) (variant : string)
  : Completion (list SymbolRecord) :=
  match entries with
  | [] => Normal []
  | (_, declarations) :: rest =>
      symbols <- extractDeclarations declarations variant ;;
      more <- extractEntries rest variant ;;
      Normal (symbols ++ more)%list
  end.

(** [sourceFile] stands for [project.addSourceFileAtPath(filePath)]: the
    parser is a collaborator, and what it loaded is an argument. *)
Definition extractModule (sourceFile : SourceFile) (filePath variant : string)
  : Completion ExtractionResult :=
  symbols <- extractEntries (getExportedDeclarations sourceFile) variant ;;
  let symbols := arraySort _ symbolCompare symbols in
  module <- deriveModuleName filePath ;;
  Normal {| result_module := module;
            result_filePath := filePath;
            result_exports := symbols;
            result_imports := extractImports sourceFile;
            result_metadata :=
              {| hasDefaultExport :=
                   match getDefaultExportSymbol sourceFile with
                   | Some _ => true
                   | None => false
                   end;
                 exportCount := Z.of_nat (List.length symbols);
                 loc := getEndLineNumber sourceFile |} |}.

End Extractor.

(* ================================================================== *)
(** * Host functions: their requirements and reference instances *)
(* ================================================================== *)

(** What the extractor needs of [localeCompare]: a collation is a total
    preorder, so the results on [(a, b)] and [(b, a)] have opposite signs
    and "not after" is transitive. *)
Record locale_consistent (localeCompare : string -> string -> Z) : Prop := {
  locale_sign : forall a b, localeCompare a b < 0 <-> 0 < localeCompare b a;
  locale_trans : forall a b c,
    localeCompare a b <= 0 -> localeCompare b c <= 0 -> localeCompare a c <= 0
}.

(** A host collation to run the extractor with: code unit order. *)
Fixpoint codeUnitCompare (a b : string) : Z :=
  match a, b with
  | EmptyString, EmptyString => 0
  | EmptyString, String _ _ => -1
  | String _ _, EmptyString => 1
  | String x a', String y b' =>
      let d := Z.of_N (N_of_ascii x) - Z.of_N (N_of_ascii y) in
      if d =? 0 then codeUnitCompare a' b' else d
  end.

(** A second host collation, for a host whose default locale ranks z
    right before t, as the Estonian alphabet does: code unit order of the
    keys, where z has the key of t and t to y the next code unit. *)
Definition zBeforeTKey (c : ascii) : ascii :=
  let n := N_of_ascii c in
  if (n =? 122)%N then "t"%char
  else if ((116 <=? n) && (n <? 122))%N then ascii_of_N (n + 1)
  else c.

Fixpoint mapCodeUnits (f : ascii -> ascii) (s : string) : string :=
  match s with
  | EmptyString => EmptyString
  | String c s' => String (f c) (mapCodeUnits f s')
  end.

Definition zBeforeTCompare (a b : string) : Z :=
  codeUnitCompare (mapCodeUnits zBeforeTKey a) (mapCodeUnits zBeforeTKey b).

(** What [JSON.stringify] throws on a result, for a host to run the
    command with: the parser's nodes are cyclic, so a result that holds a
    non-empty array of them cannot be serialized. *)
Definition isNodeArray (value : CommentValue) : bool :=
  match value with
  | CommentNodes (_ :: _) => true
  | _ => false
  end.

Definition docHoldsNodes (jsDoc : option JSDocRecord) : bool :=
  match jsDoc with
  | Some doc => existsb (fun tag => isNodeArray (tag_text tag)) (jsdoc_tags doc)
  | None => false
  end.

Definition symbolHoldsNodes (s : SymbolRecord) : bool :=
  docHoldsNodes (symbol_jsDoc s)
  || match symbol_fields s with
     | FunctionFields parameters _ _ =>
         existsb (fun p => match parameter_comment p with
                           | Some value => isNodeArray value
                           | None => false
                           end) parameters
     | ClassFields _ _ members =>
         existsb (fun m => docHoldsNodes (member_jsDoc m)) members
     | _ => false
     end.

Definition holdsParserNodes (result : ExtractionResult) : bool :=
  existsb symbolHoldsNodes (result_exports result).

Definition circularStructure (result : ExtractionResult) : option JsError :=
  if holdsParserNodes result
  then Some (TypeError "Converting circular structure to JSON")
  else None.

(* ================================================================== *)
(** * The properties the specification states *)
(* ================================================================== *)

(** [sub] occurs in [s]. *)
Definition occursIn (sub s : string) : Prop :=
  exists pre post, s = pre ++ sub ++ post.

(** A node as the parser builds it: the accessors of its class are those
    its kind name promises, and a declaration of a named kind has the name
    accessor; the kind name of any other node is not in the table. *)
Definition conforms (decl : Node) : bool :=
  let named := match node_getName decl with Some _ => true | None => false end in
  match node_shape decl with
  | FunctionLike _ _ _ => (mapKind (getKindName decl) =? "function")%string
  | ClassLike _ _ _ _ _ => (getKindName decl =? "ClassDeclaration")%string && named
  | InterfaceLike _ => (getKindName decl =? "InterfaceDeclaration")%string && named
  | TypeAliasLike _ => (getKindName decl =? "TypeAliasDeclaration")%string && named
  | VariableLike _ _ => (getKindName decl =? "VariableDeclaration")%string && named
  | EnumLike _ => (getKindName decl =? "EnumDeclaration")%string && named
  | OtherShape =>
      match kindMapping (getKindName decl) with
      | None => true
      | Some _ => false
      end
  end.

(** A string that neither starts nor ends with white space. *)
Definition isTrimmed (t : string) : Prop :=
  t = "" \/
  ((exists c r, t = String c r /\ JsString.isWhiteSpace c = false) /\
   (exists r c, t = r ++ String c "" /\ JsString.isWhiteSpace c = false)).

(** The text [value] contains [paramName]; an array of nodes is no text. *)
Definition textContains (paramName : string) (value : CommentValue) : Prop :=
  match value with
  | CommentText text => occursIn paramName text
  | CommentNodes _ => False
  end.

(** A tag whose comment, if it has one, is a plain text. *)
Definition hasPlainComment (tag : JSDocTagNode) : Prop :=
  forall nodes, tag_getComment tag <> Some (CommentNodes nodes).

(** The record [r] captures the tag [tag]: its name, a comment text, which
    is the tag's comment when that is a plain text and the empty string
    when the tag has no comment, and its type text when the tag carries
    one. *)
Definition tagCaptures (tag : JSDocTagNode) (r : TagRecord) : Prop :=
  tag_name r = tag_getTagName tag /\
  (exists text,
     tag_text r = CommentText text /\
     (forall comment, tag_getComment tag = Some (CommentText comment) ->
        text = comment) /\
     (tag_getComment tag = None -> text = "")) /\
  (forall text, tag_getTypeExpression tag = Some (Some text) -> tag_type r = Some text) /\
  ((forall text, tag_getTypeExpression tag <> Some (Some text)) -> tag_type r = None).

(** Export order: kind priority first, then names within one kind. *)
Definition exportOrder (localeCompare : string -> string -> Z)
  (a b : SymbolRecord) : Prop :=
  kindPriority (symbol_kind a) <= kindPriority (symbol_kind b) /\
  (symbol_kind a = symbol_kind b ->
   localeCompare (symbol_name a) (symbol_name b) <= 0).

(** Member order: nothing precedes a constructor, no method precedes a
    property, and names ascend within the properties and the methods. *)
Definition memberOrder (localeCompare : string -> string -> Z)
  (a b : MemberRecord) : Prop :=
  member_kind b <> "constructor" /\
  (member_kind a = "method" -> member_kind b = "method") /\
  (member_kind a = member_kind b ->
   localeCompare (member_name a) (member_name b) <= 0).

(** The kinds of the property and method records of a class. *)
Definition isMemberKind (m : MemberRecord) : Prop :=
  member_kind m = "property" \/ member_kind m = "method".

(** The module name in the words of the specification. *)
Fixpoint segmentsAfterLastSrc (segments : list string) : option (list string) :=
  match segments with
  | [] => None
  | segment :: rest =>
      match segmentsAfterLastSrc rest with
      | Some after => Some after
      | None => if (segment =? "src")%string then Some rest else None
      end
  end.

(** One of the four recognized extensions ends [s], and [stem] is the rest. *)
Definition hasExtension (s stem : string) : Prop :=
  exists ext, In ext [".ts"; ".tsx"; ".js"; ".jsx"] /\ s = stem ++ ext.

(** [s] without the ending [suffix], if it ends with it. *)
Fixpoint stripSuffix (suffix s : string) : option string :=
  if (s =? suffix)%string then Some EmptyString
  else match s with
       | EmptyString => None
       | String c s' => option_map (String c) (stripSuffix suffix s')
       end.

(** The file name without its extension, if it has a recognized one. *)
Definition withoutExtension (s : string) : string :=
  match stripSuffix ".ts" s, stripSuffix ".tsx" s,
        stripSuffix ".js" s, stripSuffix ".jsx" s with
  | Some stem, _, _, _ => stem
  | None, Some stem, _, _ => stem
  | None, None, Some stem, _ => stem
  | None, None, None, Some stem => stem
  | None, None, None, None => s
  end.

(** The final segment loses its extension and is dropped if it is then
    [index]. *)
Fixpoint stripFinalSegment (segments : list string) : list string :=
  match segments with
  | [] => []
  | [final] =>
      let stem := withoutExtension final in
      if (stem =? "index")%string then [] else [stem]
  | segment :: rest => segment :: stripFinalSegment rest
  end.

Definition moduleNameSpec (filePath : string) : string :=
  let segments := JsString.split "/" filePath in
  match segmentsAfterLastSrc segments with
  | Some after =>
      JsString.join "." (filter (fun s => negb (s =? "")%string) (stripFinalSegment after))
  | None => withoutExtension (last segments EmptyString)
  end.

(** The type parameters in the words of the specification: the text
    between the first [<] and the final [>], split at the commas that are
    not nested inside angle brackets. *)
Fixpoint afterFirst (c : ascii) (s : string) : option string :=
  match s with
  | EmptyString => None
  | String x s' => if Ascii.eqb x c then Some s' else afterFirst c s'
  end.

Fixpoint beforeLast (c : ascii) (s : string) : option string :=
  match s with
  | EmptyString => None
  | String x s' =>
      match beforeLast c s' with
      | Some t => Some (String x t)
      | None => if Ascii.eqb x c then Some EmptyString else None
      end
  end.

Fixpoint splitTopLevel (depth : nat) (s : string) : list string :=
  match s with
  | EmptyString => [EmptyString]
  | String c s' =>
      if Ascii.eqb c "," && Nat.eqb depth 0 then EmptyString :: splitTopLevel depth s'
      else
        let depth' := if Ascii.eqb c "<" then S depth
                      else if Ascii.eqb c ">" then Nat.pred depth
                      else depth in
        match splitTopLevel depth' s' with
        | h :: t => String c h :: t
        | [] => [String c EmptyString]
        end
  end.

Definition typeParametersSpec (raw : string) : list string :=
  match afterFirst "<" raw with
  | None => []
  | Some rest =>
      match beforeLast ">" rest with
      | None => []
      | Some inner => map JsString.trim (splitTopLevel 0 inner)
      end
  end.

(* ================================================================== *)
(** * Example inputs *)
(* ================================================================== *)

Definition plainBase (text : string) : NodeBase :=
  {| getLeadingCommentRanges := [];
     getJsDocs := Some [];
     hasModifier := Some [ExportKeyword];
     getText := text |}.

Definition memberBase (modifiers : list SyntaxKind) (text : string) : NodeBase :=
  {| getLeadingCommentRanges := [];
     getJsDocs := Some [];
     hasModifier := Some modifiers;
     getText := text |}.

Definition namedNode (kindName name : string) (base : NodeBase) (shape : NodeShape)
  : Node :=
  {| getKindName := kindName;
     node_base := base;
     node_getName := Some (Some name);
     node_getSymbol := Some (Some name);
     node_shape := shape |}.

Definition stringParameter (name : string) : ParameterNode :=
  {| param_getName := name;
     param_getType := "string";
     param_isOptional := false;
     param_getInitializer := None |}.

Definition greetDoc : JSDocNode :=
  {| doc_getDescription := "Greets a user by name";
     doc_getTags :=
       [ {| tag_getTagName := "param";
            tag_getComment := Some (CommentText "name - The user's name");
            tag_getTypeExpression := Some None |};
         {| tag_getTagName := "param";
            tag_getComment := Some (CommentText "greeting - Optional greeting message");
            tag_getTypeExpression := Some None |};
         {| tag_getTagName := "returns";
            tag_getComment := Some (CommentText "A greeting string");
            tag_getTypeExpression := Some None |} ] |}.

Definition greetNode : Node :=
  namedNode "FunctionDeclaration" "greet"
    {| getLeadingCommentRanges :=
         [ {| range_text := "/** Greets a user by name */"; range_kind := 3;
              range_pos := 398 |} ];
       getJsDocs := Some [greetDoc];
       hasModifier := Some [ExportKeyword];
       getText := "export function greet(name: string, greeting: string = 'Hello'): string" |}
    (FunctionLike
       [ stringParameter "name";
         {| param_getName := "greeting"; param_getType := "string";
            param_isOptional := true; param_getInitializer := Some "'Hello'" |} ]
       "string" (Some false)).

(** A function whose [returns] tag holds an inline link: [getComment] of
    that tag is the array of a text node, the link node and a text node. *)
Definition findUserDoc : JSDocNode :=
  {| doc_getDescription := "Looks a user up";
     doc_getTags :=
       [ {| tag_getTagName := "param";
            tag_getComment := Some (CommentText "id - the key");
            tag_getTypeExpression := Some None |};
         {| tag_getTagName := "returns";
            tag_getComment :=
              Some (CommentNodes [ {| commentnode_getText := "the " |};
                                   {| commentnode_getText := "{@link User}" |};
                                   {| commentnode_getText := " found" |} ]);
            tag_getTypeExpression := Some None |} ] |}.

Definition findUserNode : Node :=
  namedNode "FunctionDeclaration" "findUser"
    {| getLeadingCommentRanges :=
         [ {| range_text := "/** Looks a user up @param id - the key @returns the {@link User} found */";
              range_kind := 3;
              range_pos := 0 |} ];
       getJsDocs := Some [findUserDoc];
       hasModifier := Some [ExportKeyword];
       getText := "export function findUser(id: string): User" |}
    (FunctionLike [stringParameter "id"] "User" (Some false)).

Definition userConfigNode : Node :=
  namedNode "InterfaceDeclaration" "UserConfig"
    (plainBase "export interface UserConfig { username: string; email: string; role?: string; }")
    (InterfaceLike
       [ {| imember_base := memberBase [] "username: string;";
            imember_getSymbol := Some "username" |};
         {| imember_base := memberBase [] "email: string;";
            imember_getSymbol := Some "email" |};
         {| imember_base := memberBase [] "role?: string;";
            imember_getSymbol := Some "role" |} ]).

Definition apiUrlNode : Node :=
  {| getKindName := "VariableDeclaration";
     node_base :=
       {| getLeadingCommentRanges := []; getJsDocs := None; hasModifier := None;
          getText := "API_URL = 'https://api.example.com'" |};
     node_getName := Some (Some "API_URL");
     node_getSymbol := Some (Some "API_URL");
     node_shape := VariableLike "'https://api.example.com'"
                     (Some "'https://api.example.com'") |}.

Definition userNode : Node :=
  namedNode "TypeAliasDeclaration" "User"
    (plainBase "export type User = { id: string; name: string; };")
    (TypeAliasLike "User").

Definition voidMethod (name : string) (modifiers : list SyntaxKind) (ret : string)
  (async : bool) (ps : list ParameterNode) : MethodNode :=
  {| method_base := memberBase modifiers name;
     method_getName := name;
     method_getParameters := ps;
     method_getReturnType := ret;
     method_isStatic := false;
     method_isAsync := async |}.

Definition databaseClientNode : Node :=
  namedNode "ClassDeclaration" "DatabaseClient"
    (plainBase "export class DatabaseClient")
    (ClassLike None []
       [ {| ctor_base := memberBase [] "constructor(connectionString: string)";
            ctor_getParameters := [stringParameter "connectionString"] |} ]
       [ {| prop_base := memberBase [PrivateKeyword] "private connectionString: string;";
            prop_getName := "connectionString";
            prop_getType := "string";
            prop_isStatic := false |} ]
       [ voidMethod "connect" [AsyncKeyword] "Promise<void>" true [];
         voidMethod "query" [AsyncKeyword] "Promise<T[]>" true [stringParameter "sql"];
         voidMethod "_parseConnection" [PrivateKeyword] "void" false [] ]).

Definition statusNode : Node :=
  namedNode "EnumDeclaration" "Status"
    (plainBase "export enum Status")
    (EnumLike
       [ {| emember_getName := "Active"; emember_getValue := Some (EnumString "active") |};
         {| emember_getName := "Inactive"; emember_getValue := Some (EnumString "inactive") |};
         {| emember_getName := "Pending"; emember_getValue := Some (EnumString "pending") |} ]).

(** A file exporting, in this order, the function [greet], the interface
    [UserConfig], the constant [API_URL], the type [User], the class
    [DatabaseClient] and the enum [Status]. *)
Definition sampleFile : SourceFile :=
  {| getExportedDeclarations :=
       [ ("greet", [greetNode]); ("UserConfig", [userConfigNode]);
         ("API_URL", [apiUrlNode]); ("User", [userNode]);
         ("DatabaseClient", [databaseClientNode]); ("Status", [statusNode]) ];
     getImportDeclarations := [];
     getDefaultExportSymbol := None;
     getEndLineNumber := 88 |}.

(** A class with the methods [query] and [connect], declared in this
    order, and the property [connectionString], all public. *)
Definition connectionClassNode : Node :=
  namedNode "ClassDeclaration" "Connection"
    (plainBase "export class Connection")
    (ClassLike None [] []
       [ {| prop_base := memberBase [] "connectionString: string;";
            prop_getName := "connectionString";
            prop_getType := "string";
            prop_isStatic := false |} ]
       [ voidMethod "query" [] "void" false [];
         voidMethod "connect" [] "void" false [] ]).

(** A class whose only method is named with a leading underscore and
    carries no modifier, and whose constructor is private. *)
Definition underscoreClassNode : Node :=
  namedNode "ClassDeclaration" "Cache"
    (plainBase "export class Cache")
    (ClassLike None []
       [ {| ctor_base := memberBase [PrivateKeyword] "private constructor()";
            ctor_getParameters := [] |} ]
       []
       [ voidMethod "_evict" [] "void" false [] ]).

(** A file that exports the class [Cache] alone. *)
Definition cacheFile : SourceFile :=
  {| getExportedDeclarations := [("Cache", [underscoreClassNode])];
     getImportDeclarations := [];
     getDefaultExportSymbol := None;
     getEndLineNumber := 5 |}.

(** A file that exports the constants [tau] and [zeta], in this order. *)
Definition numberConstant (name value : string) : Node :=
  {| getKindName := "VariableDeclaration";
     node_base :=
       {| getLeadingCommentRanges := []; getJsDocs := None; hasModifier := None;
          getText := name ++ " = " ++ value |};
     node_getName := Some (Some name);
     node_getSymbol := Some (Some name);
     node_shape := VariableLike "number" (Some value) |}.

Definition greekFile : SourceFile :=
  {| getExportedDeclarations :=
       [ ("tau", [numberConstant "tau" "6.28"]);
         ("zeta", [numberConstant "zeta" "1.64"]) ];
     getImportDeclarations := [];
     getDefaultExportSymbol := None;
     getEndLineNumber := 2 |}.

(** The source file with other exported declarations, all else equal. *)
Definition withExports (sourceFile : SourceFile)
  (entries : list (string * list Node)) : SourceFile :=
  {| getExportedDeclarations := entries;
     getImportDeclarations := getImportDeclarations sourceFile;
     getDefaultExportSymbol := getDefaultExportSymbol sourceFile;
     getEndLineNumber := getEndLineNumber sourceFile |}.

(** Case analysis on the kinds of member records. *)
Ltac member_cases :=
  unfold isMemberKind, memberCompare in *;
  repeat match goal with
         | H : _ \/ _ |- _ => destruct H
         end;
  repeat match goal with
         | H : member_kind _ = _ |- _ => rewrite H
         end;
  simpl.

(* ================================================================== *)
(** * What a run keeps, and how records are compared *)
(* ================================================================== *)

(** The gate of [extractSymbol]: the declaration is skipped. *)
Definition isExcluded (variant : string) (decl : Node) : bool :=
  (variant =? "public")%string && checkPrivacy decl.

(** The exported declarations in the order of the two loops. *)
Definition exportedNodes (sourceFile : SourceFile) : list Node :=
  List.concat (map snd (getExportedDeclarations sourceFile)).

(** The declarations that pass the gate. *)
Definition keptNodes (variant : string) (sourceFile : SourceFile) : list Node :=
  filter (fun decl => negb (isExcluded variant decl)) (exportedNodes sourceFile).

(** What the export comparator and the gate read of a record. *)
Definition RecordKey : Type := (string * string * bool)%type.

Definition symbolKey (s : SymbolRecord) : RecordKey :=
  (symbol_kind s, symbol_name s, symbol_isPrivate s).

Definition nodeKey (decl : Node) : RecordKey :=
  (mapKind (getKindName decl), getName decl, checkPrivacy decl).

(** The export comparator on keys. *)
Definition keyCompare (localeCompare : string -> string -> Z) (a b : RecordKey) : Z :=
  let aOrder := kindPriority (fst (fst a)) in
  let bOrder := kindPriority (fst (fst b)) in
  if negb (aOrder =? bOrder) then aOrder - bOrder
  else localeCompare (snd (fst a)) (snd (fst b)).

(** The export comparator ranks [a] and [b] equal: one kind priority and
    names that the collation does not tell apart. *)
Definition sameRank (localeCompare : string -> string -> Z) (a b : SymbolRecord)
  : bool :=
  (kindPriority (symbol_kind a) =? kindPriority (symbol_kind b))
  && (localeCompare (symbol_name a) (symbol_name b) =? 0).

Definition isPublicMember (m : MemberRecord) : bool :=
  (member_visibility m =? "public")%string.

Definition isConstructorMember (m : MemberRecord) : bool :=
  (member_kind m =? "constructor")%string.

(** A namespace declaration, of a kind outside the table, and a class
    exported as default without a name. *)
Definition namespaceNode : Node :=
  {| getKindName := "ModuleDeclaration";
     node_base := plainBase "export namespace Shapes { }";
     node_getName := Some (Some "Shapes");
     node_getSymbol := Some (Some "Shapes");
     node_shape := OtherShape |}.

Definition anonymousClassNode : Node :=
  {| getKindName := "ClassDeclaration";
     node_base := plainBase "export default class { }";
     node_getName := Some None;
     node_getSymbol := Some (Some "default");
     node_shape := ClassLike None [] [] [] [] |}.

(** The function [greet] declared three times, two overload signatures
    before the implementation, and a file that exports it beside the type
    [User]. *)
Definition greetNameNode : Node :=
  namedNode "FunctionDeclaration" "greet"
    (plainBase "export function greet(name: string): string;")
    (FunctionLike [stringParameter "name"] "string" (Some false)).

Definition overloadsFile : SourceFile :=
  {| getExportedDeclarations :=
       [ ("greet", [greetNameNode; greetNode; greetNode]); ("User", [userNode]) ];
     getImportDeclarations := [];
     getDefaultExportSymbol := None;
     getEndLineNumber := 12 |}.

(* ================================================================== *)
(** * The command line *)
(* ================================================================== *)

(** What [parseArgs] ends in: [process.exit(0)] after the usage text, or
    the parsed record. [variant] is [None] for [undefined]. *)
Inductive ParseOutcome : Type :=
| HelpExit
| Parsed (filePath : option string) (variant : option string).

(** The loop of [parseArgs] with the record built so far. *)
Fixpoint parseArgsFrom (args : list string) (filePath variant : option string)
  : ParseOutcome :=
  match args with
  | [] => Parsed filePath variant
  | arg :: rest =>
      if (arg =? "--help")%string || (arg =? "-h")%string then HelpExit
      else if JsString.startsWith arg "--variant="
      then parseArgsFrom rest filePath (arrayGet (JsString.split "=" arg) 1)
      else if negb (JsString.startsWith arg "--")
      then parseArgsFrom rest (Some arg) variant
      else parseArgsFrom rest filePath variant
  end.

Definition parseArgs (args : list string) : ParseOutcome :=
  parseArgsFrom args None (Some "public").

(** The diagnostics of [main], each followed by [process.exit(1)]. *)
Inductive CliError : Type :=
| NoArguments
| FilePathRequired
| InvalidVariant (got : option string)
| CannotReadFile (absolutePath : string)
| ExtractionFailed (error : JsError).

(** How a run of the command ends: the usage text with exit code 0, a
    diagnostic with exit code 1, or the result on the standard output. *)
Inductive CliOutcome : Type :=
| HelpShown
| Failed (error : CliError)
| Printed (result : ExtractionResult).

Definition exitCode (outcome : CliOutcome) : Z :=
  match outcome with
  | HelpShown => 0
  | Failed _ => 1
  | Printed _ => 0
  end.

Section CommandLine.

(** [path.resolve], whether [readFileSync] returns, the parser's
    [addSourceFileAtPath], which throws on what it cannot load, and what
    [JSON.stringify] throws on a result, [None] when it returns the text. *)
Variable resolve : string -> string.
Variable readable : string -> bool.
Variable addSourceFileAtPath : string -> Completion SourceFile.
Variable localeCompare : string -> string -> Z.
Variable arraySort : ArraySort.EngineSort.
Variable stringifyError : ExtractionResult -> option JsError.

(** [extractModule(filePath, variant)] with its own call of the parser. *)
Definition extractModuleAt (filePath variant : string) : Completion ExtractionResult :=
  sourceFile <- addSourceFileAtPath filePath ;;
  extractModule localeCompare arraySort sourceFile filePath variant.

Definition main (args : list string) : CliOutcome :=
  if (Z.of_nat (List.length args) =? 0) then Failed NoArguments
  else
    match parseArgs args with
    | HelpExit => HelpShown
    | Parsed filePath variant =>
        match filePath with
        | None => Failed FilePathRequired
        | Some path =>
            if negb (JsString.truthy path) then Failed FilePathRequired
            else
              match variant with
              | None => Failed (InvalidVariant None)
              | Some v =>
                  if negb (v =? "public")%string && negb (v =? "internal")%string
                  then Failed (InvalidVariant variant)
                  else
                    let absolutePath := resolve path in
                    if negb (readable absolutePath)
                    then Failed (CannotReadFile absolutePath)
                    else
                      match extractModuleAt absolutePath v with
                      | Normal result =>
                          match stringifyError result with
                          | None => Printed result
                          | Some error => Failed (ExtractionFailed error)
                          end
                      | Throw error => Failed (ExtractionFailed error)
                      end
              end
        end
    end.

End CommandLine.

(** The file paths among the arguments: those that do not start with two
    dashes. *)
Definition isPathArgument (arg : string) : bool :=
  negb (JsString.startsWith arg "--").

Definition isHelpArgument (arg : string) : bool :=
  (arg =? "--help")%string || (arg =? "-h")%string.

Definition isVariantArgument (arg : string) : bool :=
  JsString.startsWith arg "--variant=".

(** The last file path among the arguments, if any, and the value of the
    last variant option, [public] without one. *)
Definition lastPathArgument (args : list string) : option string :=
  last (map Some (filter isPathArgument args)) None.

Definition lastVariant (args : list string) : option string :=
  last (map (fun arg => arrayGet (JsString.split "=" arg) 1)
            (filter isVariantArgument args))
       (Some "public").

(* ================================================================== *)
(** * Facts about sorting *)
(* ================================================================== *)

Module ArraySortFacts.
Import ArraySort.

Section Facts.
Context {A : Type}.
Variable cmp : A -> A -> Z.

Lemma tie_sym (a b : A) : tie cmp a b = tie cmp b a.
Proof. unfold tie. apply andb_comm. Qed.

Lemma tie_true (a b : A) :
  tie cmp a b = true <-> cmp a b <= 0 /\ cmp b a <= 0.
Proof.
  unfold tie, beforeb. rewrite andb_true_iff, !Z.leb_le. tauto.
Qed.

Lemma insert_perm (x : A) (l : list A) : Permutation (x :: l) (insert cmp x l).
Proof.
  induction l as [|y ys IH]; simpl.
  - apply Permutation_refl.
  - destruct (cmp x y <=? 0).
    + apply Permutation_refl.
    + eapply perm_trans; [apply perm_swap|]. now apply perm_skip.
Qed.

Lemma insertionSort_perm (l : list A) : Permutation l (insertionSort cmp l).
Proof.
  induction l as [|x l IH]; simpl.
  - constructor.
  - eapply perm_trans; [apply perm_skip, IH | apply insert_perm].
Qed.

Lemma insertionSort_In (l : list A) (a : A) :
  In a (insertionSort cmp l) <-> In a l.
Proof.
  split; intro H.
  - eapply Permutation_in; [apply Permutation_sym, insertionSort_perm | exact H].
  - eapply Permutation_in; [apply insertionSort_perm | exact H].
Qed.

Lemma insert_sorted (L : list A) (x : A) (s : list A) :
  transitive_on cmp L -> In x L -> incl s L ->
  Forall (fun y => 0 < cmp x y -> cmp y x <= 0) s ->
  StronglySorted (before cmp) s ->
  StronglySorted (before cmp) (insert cmp x s).
Proof.
  intros HT Hx. induction s as [|y ys IH]; intros Hincl Hsign Hs; simpl.
  - repeat constructor.
  - inversion Hs as [|? ? Hys Hall]; subst.
    inversion Hsign as [|? ? Hy Hsign']; subst.
    assert (In y L) by (apply Hincl; left; reflexivity).
    assert (incl ys L) by (intros z Hz; apply Hincl; right; exact Hz).
    destruct (cmp x y <=? 0) eqn:E.
    + apply Z.leb_le in E. constructor; [exact Hs|].
      constructor; [exact E|].
      rewrite Forall_forall in *. intros z Hz.
      apply (HT x y z); auto. apply Hall; exact Hz.
    + apply Z.leb_gt in E. constructor; [apply IH; auto|].
      rewrite Forall_forall in *. intros z Hz.
      apply (Permutation_in _ (Permutation_sym (insert_perm x ys))) in Hz.
      destruct Hz as [<-|Hz]; [apply Hy; lia | apply Hall; exact Hz].
Qed.

Lemma insert_stable (L : list A) (x z : A) (s : list A) :
  transitive_on cmp L -> In x L -> In z L -> incl s L ->
  filter (tie cmp z) (insert cmp x s) = filter (tie cmp z) (x :: s).
Proof.
  intros HT Hx Hz. induction s as [|y ys IH]; intros Hincl; simpl.
  - reflexivity.
  - assert (In y L) by (apply Hincl; left; reflexivity).
    assert (incl ys L) by (intros w Hw; apply Hincl; right; exact Hw).
    destruct (cmp x y <=? 0) eqn:E; [reflexivity|].
    apply Z.leb_gt in E. simpl. rewrite IH by assumption. simpl.
    destruct (tie cmp z x) eqn:Tx; destruct (tie cmp z y) eqn:Ty; try reflexivity.
    apply tie_true in Tx, Ty.
    assert (cmp x y <= 0) by (apply (HT x z y); tauto). lia.
Qed.

Lemma insertionSort_stable (L l : list A) (z : A) :
  transitive_on cmp L -> In z L -> incl l L ->
  filter (tie cmp z) (insertionSort cmp l) = filter (tie cmp z) l.
Proof.
  intros HT Hz. induction l as [|x l IH]; intros Hincl; simpl.
  - reflexivity.
  - assert (In x L) by (apply Hincl; left; reflexivity).
    assert (incl l L) by (intros w Hw; apply Hincl; right; exact Hw).
    assert (incl (insertionSort cmp l) L)
      by (intros w Hw; apply (proj1 (insertionSort_In _ _)) in Hw; apply H0, Hw).
    rewrite (insert_stable L) by assumption.
    simpl. now rewrite IH.
Qed.

Lemma insertionSort_sorted (L l : list A) :
  transitive_on cmp L -> incl l L ->
  ForallOrdPairs (fun a b => (cmp a b < 0 <-> 0 < cmp b a) /\
                             (0 < cmp a b <-> cmp b a < 0)) l ->
  StronglySorted (before cmp) (insertionSort cmp l).
Proof.
  intros HT. induction l as [|x l IH]; intros Hincl Hs; simpl.
  - constructor.
  - inversion Hs as [|? ? Hx Hl]; subst.
    assert (In x L) by (apply Hincl; left; reflexivity).
    assert (incl l L) by (intros w Hw; apply Hincl; right; exact Hw).
    apply (insert_sorted L); auto.
    + intros w Hw. apply (proj1 (insertionSort_In _ _)) in Hw. apply H0, Hw.
    + rewrite Forall_forall in *. intros y Hy Hpos.
      apply (proj1 (insertionSort_In _ _)) in Hy. destruct (Hx y Hy) as [_ H2].
      apply H2 in Hpos. lia.
Qed.

(** The reference sort meets the contract. *)
Lemma insertionSort_sorts_stably (l : list A) :
  consistent cmp l -> sorts_stably cmp l (insertionSort cmp l).
Proof.
  intros [Hr Ht Hs]. split.
  - apply insertionSort_perm.
  - apply (insertionSort_sorted l); auto. apply incl_refl.
  - intros z Hz. apply (insertionSort_stable l); auto. apply incl_refl.
Qed.

(** A sorted arrangement that keeps ties in their order is unique. *)
Lemma sorted_stable_unique (l1 : list A) : forall l2 : list A,
  (forall a, In a l1 \/ In a l2 -> cmp a a <= 0) ->
  StronglySorted (before cmp) l1 -> StronglySorted (before cmp) l2 ->
  (forall z, In z l1 \/ In z l2 ->
             filter (tie cmp z) l1 = filter (tie cmp z) l2) ->
  l1 = l2.
Proof.
  induction l1 as [|x l1 IH]; intros l2 Hr S1 S2 Hf.
  - destruct l2 as [|y l2]; [reflexivity|].
    assert (Ty : tie cmp y y = true)
      by (apply tie_true; split; apply Hr; right; left; reflexivity).
    specialize (Hf y (or_intror (or_introl eq_refl))).
    simpl in Hf. rewrite Ty in Hf. discriminate.
  - assert (Tx : tie cmp x x = true)
      by (apply tie_true; split; apply Hr; left; left; reflexivity).
    pose proof (Hf x (or_introl (or_introl eq_refl))) as Hx.
    simpl in Hx. rewrite Tx in Hx.
    destruct l2 as [|y l2]; [discriminate|].
    assert (Ty : tie cmp y y = true)
      by (apply tie_true; split; apply Hr; right; left; reflexivity).
    inversion S1 as [|? ? S1' F1]; subst.
    inversion S2 as [|? ? S2' F2]; subst.
    rewrite Forall_forall in F1, F2.
    assert (x = y) as ->.
    { simpl in Hx. destruct (tie cmp x y) eqn:Txy; [now injection Hx|].
      exfalso.
      assert (In x l2).
      { assert (Hin : In x (filter (tie cmp x) l2)) by (rewrite <- Hx; now left).
        apply filter_In in Hin. tauto. }
      pose proof (Hf y (or_intror (or_introl eq_refl))) as Hy.
      simpl in Hy. rewrite Ty, (tie_sym y x), Txy in Hy.
      assert (In y l1).
      { assert (Hin : In y (filter (tie cmp y) l1)) by (rewrite Hy; now left).
        apply filter_In in Hin. tauto. }
      assert (tie cmp x y = true)
        by (apply tie_true; split; [apply F1 | apply F2]; assumption).
      congruence. }
    f_equal. apply IH; auto.
    + intros a [Ha|Ha]; apply Hr; [left|right]; now right.
    + intros z Hz.
      assert (Hz' : In z (y :: l1) \/ In z (y :: l2))
        by (destruct Hz; [left|right]; now right).
      specialize (Hf z Hz'). simpl in Hf.
      destruct (tie cmp z y); [now injection Hf | exact Hf].
Qed.

Lemma sorts_stably_unique (l l1 l2 : list A) :
  consistent cmp l ->
  sorts_stably cmp l l1 -> sorts_stably cmp l l2 -> l1 = l2.
Proof.
  intros [Hr _ _] [P1 S1 F1] [P2 S2 F2].
  assert (In1 : forall a, In a l1 -> In a l)
    by (intros a Ha; eapply Permutation_in; [apply Permutation_sym, P1 | exact Ha]).
  assert (In2 : forall a, In a l2 -> In a l)
    by (intros a Ha; eapply Permutation_in; [apply Permutation_sym, P2 | exact Ha]).
  apply sorted_stable_unique; auto.
  - intros a [Ha|Ha]; apply Hr; auto.
  - intros z Hz. assert (In z l) by (destruct Hz; auto).
    rewrite F1, F2 by assumption. reflexivity.
Qed.

End Facts.

Lemma referenceSort_contract : sort_contract referenceSort.
Proof. intros A cmp l H. apply insertionSort_sorts_stably, H. Qed.

(** Every engine that meets the contract sorts as the reference does. *)
Lemma contract_agrees (srt : EngineSort) :
  sort_contract srt ->
  forall (A : Type) (cmp : A -> A -> Z) (l : list A),
    consistent cmp l -> srt A cmp l = insertionSort cmp l.
Proof.
  intros Hsrt A cmp l Hc.
  apply (sorts_stably_unique cmp l); auto.
  apply insertionSort_sorts_stably, Hc.
Qed.

End ArraySortFacts.

(** ** The forward insertion sort meets the contract too *)

Module ForwardSortFacts.
Import ArraySort ArraySortFacts.

Section Facts.
Context {A : Type}.
Variable cmp : A -> A -> Z.

Lemma ForallOrdPairs_app_inv (R : A -> A -> Prop) (a b : list A) :
  ForallOrdPairs R (a ++ b) ->
  ForallOrdPairs R a /\ forall x y, In x a -> In y b -> R x y.
Proof.
  induction a as [|h a IH]; simpl; intros H.
  - split; [constructor | intros x y []].
  - inversion H as [|? ? Hh Ht]; subst. destruct (IH Ht) as [Ha Hab].
    rewrite Forall_forall in Hh. split.
    + constructor; [|exact Ha]. apply Forall_forall. intros x Hx.
      apply Hh, in_or_app. now left.
    + intros x y [<-|Hx] Hy; [apply Hh, in_or_app; now right | now apply Hab].
Qed.

Lemma insertAfter_perm (x : A) (l : list A) :
  Permutation (x :: l) (insertAfter cmp x l).
Proof.
  induction l as [|y ys IH]; simpl.
  - apply Permutation_refl.
  - destruct (cmp x y <? 0).
    + apply Permutation_refl.
    + eapply perm_trans; [apply perm_swap|]. now apply perm_skip.
Qed.

Section Step.
Variables (L : list A) (x : A).
Hypothesis HT : transitive_on cmp L.
Hypothesis Hx : In x L.

Lemma insertAfter_sorted (s : list A) :
  incl s L ->
  Forall (fun y => 0 < cmp y x <-> cmp x y < 0) s ->
  StronglySorted (before cmp) s ->
  StronglySorted (before cmp) (insertAfter cmp x s).
Proof.
  induction s as [|y ys IH]; intros Hincl Hsign Hs; simpl.
  - repeat constructor.
  - inversion Hs as [|? ? Hys Hall]; subst.
    inversion Hsign as [|? ? Hy Hsign']; subst.
    assert (In y L) by (apply Hincl; left; reflexivity).
    assert (incl ys L) by (intros z Hz; apply Hincl; right; exact Hz).
    destruct (Z.ltb_spec (cmp x y) 0) as [E|E].
    + constructor; [exact Hs|]. constructor; [unfold before; lia|].
      rewrite Forall_forall in *. intros z Hz.
      apply (HT x y z); auto; [lia | apply Hall; exact Hz].
    + constructor; [apply IH; auto|].
      rewrite Forall_forall in *. intros z Hz.
      apply (Permutation_in _ (Permutation_sym (insertAfter_perm x ys))) in Hz.
      destruct Hz as [<-|Hz]; [unfold before; lia | apply Hall; exact Hz].
Qed.

Lemma insertAfter_stable (z : A) (s : list A) :
  In z L -> incl s L ->
  Forall (fun y => 0 < cmp y x <-> cmp x y < 0) s ->
  StronglySorted (before cmp) s ->
  filter (tie cmp z) (insertAfter cmp x s)
  = (filter (tie cmp z) s ++ filter (tie cmp z) [x])%list.
Proof.
  intros Hz. induction s as [|y ys IH]; intros Hincl Hsign Hs.
  - reflexivity.
  - inversion Hs as [|? ? Hys Hall]; subst.
    inversion Hsign as [|? ? Hy Hsign']; subst.
    assert (Hyl : In y L) by (apply Hincl; left; reflexivity).
    assert (Hysl : incl ys L) by (intros w Hw; apply Hincl; right; exact Hw).
    cbn [insertAfter]. destruct (Z.ltb_spec (cmp x y) 0) as [E|E].
    + cbn [filter]. destruct (tie cmp z x) eqn:Tx.
      * assert (Hnone : forall w, In w (y :: ys) -> tie cmp z w = false).
        { intros w Hw. apply not_true_is_false. intros Tw.
          apply tie_true in Tx, Tw.
          assert (Hwl : In w L) by (apply Hincl; exact Hw).
          assert (cmp w x <= 0) by (apply (HT w z x); tauto).
          assert (cmp y x <= 0).
          { destruct Hw as [<-|Hw]; [assumption|].
            rewrite Forall_forall in Hall.
            apply (HT y w x); auto. apply Hall; exact Hw. }
          lia. }
        assert (Hnil : filter (tie cmp z) (y :: ys) = []).
        { clear - Hnone. induction (y :: ys) as [|w l IHl]; [reflexivity|].
          simpl. rewrite (Hnone w (or_introl eq_refl)).
          apply IHl. intros v Hv. apply Hnone. now right. }
        cbn [filter] in Hnil. now rewrite Hnil.
      * now rewrite app_nil_r.
    + cbn [filter]. rewrite IH by assumption.
      destruct (tie cmp z y); reflexivity.
Qed.

End Step.

Lemma forwardSort_invariant (L : list A) (HT : transitive_on cmp L)
  (suffix : list A) : forall prefix acc,
  incl (prefix ++ suffix) L ->
  ForallOrdPairs (fun a b => (cmp a b < 0 <-> 0 < cmp b a) /\
                             (0 < cmp a b <-> cmp b a < 0)) (prefix ++ suffix) ->
  Permutation prefix acc ->
  StronglySorted (before cmp) acc ->
  (forall z, In z L -> filter (tie cmp z) acc = filter (tie cmp z) prefix) ->
  let sorted := fold_left (fun acc x => insertAfter cmp x acc) suffix acc in
  Permutation (prefix ++ suffix) sorted /\
  StronglySorted (before cmp) sorted /\
  (forall z, In z L ->
     filter (tie cmp z) sorted = filter (tie cmp z) (prefix ++ suffix)).
Proof.
  induction suffix as [|x rest IH]; intros prefix acc Hincl Hs Hp Hsorted Hstable;
    simpl.
  - rewrite app_nil_r. auto.
  - replace (prefix ++ x :: rest)%list with ((prefix ++ [x]) ++ rest)%list in *
      by (now rewrite <- app_assoc).
    pose proof (proj2 (ForallOrdPairs_app_inv _ _ _
                  (proj1 (ForallOrdPairs_app_inv _ _ _ Hs)))) as Hpx.
    assert (Hx : In x L)
      by (apply Hincl, in_or_app; left; apply in_or_app; right; now left).
    assert (Hacc : incl acc L).
    { intros w Hw. apply Hincl, in_or_app. left. apply in_or_app. left.
      eapply Permutation_in; [apply Permutation_sym, Hp | exact Hw]. }
    assert (Hsign : Forall (fun y => 0 < cmp y x <-> cmp x y < 0) acc).
    { apply Forall_forall. intros y Hy.
      assert (In y prefix)
        by (eapply Permutation_in; [apply Permutation_sym, Hp | exact Hy]).
      destruct (Hpx y x) as [_ H2]; [assumption | now left | exact H2]. }
    apply IH; auto.
    + eapply perm_trans; [|apply insertAfter_perm].
      eapply perm_trans; [apply Permutation_app_comm|]. simpl. now apply perm_skip.
    + now apply (insertAfter_sorted L).
    + intros z Hz. rewrite (insertAfter_stable L) by assumption.
      rewrite filter_app. f_equal. now apply Hstable.
Qed.

Lemma forwardSort_sorts_stably (l : list A) :
  consistent cmp l -> sorts_stably cmp l (forwardSort cmp l).
Proof.
  intros [Hr Ht Hs].
  destruct (forwardSort_invariant l Ht l [] []) as (Hp & Hsorted & Hstable);
    try (constructor; fail); auto.
  - apply incl_refl.
  - now split.
Qed.

End Facts.

Lemma forwardEngine_contract : sort_contract forwardEngine.
Proof. intros A cmp l H. apply forwardSort_sorts_stably, H. Qed.

End ForwardSortFacts.

(* ================================================================== *)
(** * The comparators are consistent *)
(* ================================================================== *)

Lemma codeUnitCompare_sign (a : string) : forall b,
  codeUnitCompare a b < 0 <-> 0 < codeUnitCompare b a.
Proof.
  induction a as [|x a IH]; intros [|y b]; simpl; try lia.
  destruct (Z.eqb_spec (Z.of_N (N_of_ascii x) - Z.of_N (N_of_ascii y)) 0);
    destruct (Z.eqb_spec (Z.of_N (N_of_ascii y) - Z.of_N (N_of_ascii x)) 0);
    try lia.
  apply IH.
Qed.

Lemma codeUnitCompare_trans (a : string) : forall b c,
  codeUnitCompare a b <= 0 -> codeUnitCompare b c <= 0 -> codeUnitCompare a c <= 0.
Proof.
  induction a as [|x a IH]; intros [|y b] [|z c]; simpl; try lia.
  destruct (Z.eqb_spec (Z.of_N (N_of_ascii x) - Z.of_N (N_of_ascii y)) 0);
    destruct (Z.eqb_spec (Z.of_N (N_of_ascii y) - Z.of_N (N_of_ascii z)) 0);
    destruct (Z.eqb_spec (Z.of_N (N_of_ascii x) - Z.of_N (N_of_ascii z)) 0);
    try lia.
  apply IH.
Qed.

Lemma codeUnitCompare_consistent : locale_consistent codeUnitCompare.
Proof.
  split; [exact codeUnitCompare_sign | exact codeUnitCompare_trans].
Qed.

Lemma zBeforeTCompare_consistent : locale_consistent zBeforeTCompare.
Proof.
  split; unfold zBeforeTCompare.
  - intros a b. apply codeUnitCompare_sign.
  - intros a b c. apply codeUnitCompare_trans.
Qed.

Lemma ForallOrdPairs_of_Forall {A : Type} (P : A -> Prop) (R : A -> A -> Prop)
  (l : list A) :
  Forall P l -> (forall a b, P a -> P b -> R a b) -> ForallOrdPairs R l.
Proof.
  intros HP HR. induction HP as [|x l Hx Hl IH]; constructor; auto.
  rewrite Forall_forall in *. auto.
Qed.

Lemma StronglySorted_weaken {A : Type} (R R' : A -> A -> Prop) (l : list A) :
  (forall a b, In a l -> In b l -> R a b -> R' a b) ->
  StronglySorted R l -> StronglySorted R' l.
Proof.
  intros HR HS. induction HS as [|x l HS IH Hall]; constructor.
  - apply IH. intros a b Ha Hb. apply HR; now right.
  - rewrite Forall_forall in *. intros y Hy. apply HR; [now left | now right | auto].
Qed.

Section Comparators.
Variable localeCompare : string -> string -> Z.
Hypothesis Hlocale : locale_consistent localeCompare.

Lemma locale_refl (a : string) : localeCompare a a = 0.
Proof. pose proof (locale_sign _ Hlocale a a). lia. Qed.

Lemma locale_sign' (a b : string) :
  0 < localeCompare a b <-> localeCompare b a < 0.
Proof. pose proof (locale_sign _ Hlocale b a). tauto. Qed.

Lemma symbolCompare_before (a b : SymbolRecord) :
  symbolCompare localeCompare a b <= 0 <->
  kindPriority (symbol_kind a) < kindPriority (symbol_kind b) \/
  (kindPriority (symbol_kind a) = kindPriority (symbol_kind b) /\
   localeCompare (symbol_name a) (symbol_name b) <= 0).
Proof.
  unfold symbolCompare.
  destruct (kindPriority (symbol_kind a) =? kindPriority (symbol_kind b)) eqn:E; simpl.
  - apply Z.eqb_eq in E. lia.
  - apply Z.eqb_neq in E. lia.
Qed.

Lemma symbolCompare_consistent (l : list SymbolRecord) :
  ArraySort.consistent (symbolCompare localeCompare) l.
Proof.
  split.
  - intros a _. apply symbolCompare_before. right. split; [reflexivity|].
    rewrite locale_refl. lia.
  - intros a b c _ _ _ Hab Hbc. apply symbolCompare_before in Hab, Hbc.
    apply symbolCompare_before.
    destruct Hab as [Hab|[Hab Hab']], Hbc as [Hbc|[Hbc Hbc']]; try lia.
    right. split; [lia|]. eapply locale_trans; eauto.
  - apply (ForallOrdPairs_of_Forall (fun _ => True)).
    + apply Forall_forall. trivial.
    + intros a b _ _. unfold symbolCompare.
      rewrite (Z.eqb_sym (kindPriority (symbol_kind b))).
      destruct (kindPriority (symbol_kind a) =? kindPriority (symbol_kind b)) eqn:E; simpl.
      * split; [apply (locale_sign _ Hlocale) | apply locale_sign'].
      * apply Z.eqb_neq in E. lia.
Qed.

Lemma memberCompare_refl (a : MemberRecord) : memberCompare localeCompare a a <= 0.
Proof.
  unfold memberCompare. destruct (member_kind a =? "constructor")%string; [lia|].
  rewrite String.eqb_refl. simpl. rewrite locale_refl. lia.
Qed.

Lemma memberCompare_trans (a b c : MemberRecord) :
  isMemberKind a -> isMemberKind b -> isMemberKind c ->
  memberCompare localeCompare a b <= 0 -> memberCompare localeCompare b c <= 0 ->
  memberCompare localeCompare a c <= 0.
Proof.
  intros Ha Hb Hc. member_cases; try lia; apply (locale_trans _ Hlocale).
Qed.

Lemma memberCompare_sign (a b : MemberRecord) :
  isMemberKind a -> isMemberKind b ->
  (memberCompare localeCompare a b < 0 <-> 0 < memberCompare localeCompare b a) /\
  (0 < memberCompare localeCompare a b <-> memberCompare localeCompare b a < 0).
Proof.
  intros Ha Hb. member_cases; try lia;
    (split; [apply (locale_sign _ Hlocale) | apply locale_sign']).
Qed.

Lemma memberCompare_consistent (l : list MemberRecord) :
  Forall isMemberKind l -> ArraySort.consistent (memberCompare localeCompare) l.
Proof.
  intros Hl. pose proof Hl as Hl'. rewrite Forall_forall in Hl'. split.
  - intros a _. apply memberCompare_refl.
  - intros a b c Ha Hb Hc. apply memberCompare_trans; auto.
  - apply (ForallOrdPairs_of_Forall isMemberKind); [exact Hl|].
    apply memberCompare_sign.
Qed.

Lemma pushProperties_kinds (variant : string) (props : list PropertyNode) :
  Forall isMemberKind (pushProperties variant props).
Proof.
  induction props as [|p props IH]; simpl; [constructor|].
  destruct (keepMember variant (getVisibility (prop_base p))); [|exact IH].
  constructor; [left; reflexivity | exact IH].
Qed.

Lemma pushMethods_kinds (variant : string) (methods : list MethodNode) :
  Forall isMemberKind (pushMethods variant methods).
Proof.
  induction methods as [|m methods IH]; simpl; [constructor|].
  destruct (keepMember variant (getVisibility (method_base m))); [|exact IH].
  constructor; [right; reflexivity | exact IH].
Qed.

Lemma pushed_kinds (variant : string) (props : list PropertyNode)
  (methods : list MethodNode) :
  Forall isMemberKind (pushProperties variant props ++ pushMethods variant methods).
Proof.
  apply Forall_app. split; [apply pushProperties_kinds | apply pushMethods_kinds].
Qed.

(** The constructor record stands first and compares as "before"
    everything, so the pushed members are consistently comparable. *)
Lemma pushedMembers_consistent (variant : string) (ctors : list ConstructorNode)
  (props : list PropertyNode) (methods : list MethodNode) :
  ArraySort.consistent (memberCompare localeCompare)
    (pushedMembers variant ctors props methods).
Proof.
  unfold pushedMembers. pose proof (pushed_kinds variant props methods) as Hk.
  destruct ctors as [|ctor _]; simpl; [now apply memberCompare_consistent|].
  set (rest := (pushProperties variant props ++ pushMethods variant methods)%list) in *.
  pose proof (memberCompare_consistent rest Hk) as [Hr Ht Hs].
  assert (Hc : forall b, memberCompare localeCompare (constructorMember ctor) b = -1)
    by reflexivity.
  assert (Hn : forall b, In b rest ->
               memberCompare localeCompare b (constructorMember ctor) = 1).
  { intros b Hb. rewrite Forall_forall in Hk.
    unfold memberCompare. destruct (Hk b Hb) as [-> | ->]; reflexivity. }
  split.
  - intros a _. apply memberCompare_refl.
  - intros a b c [<-|Ha]; [intros; rewrite Hc; lia|].
    intros [<-|Hb]; [intros _ H; rewrite (Hn a Ha) in H; lia|].
    intros [<-|Hc']; [intros _ H; rewrite (Hn b Hb) in H; lia|].
    apply Ht; assumption.
  - constructor; [|exact Hs].
    apply Forall_forall. intros b Hb. rewrite Hc, (Hn b Hb). lia.
Qed.

(** The reference sort leaves the constructor record in front. *)
Lemma insertionSort_constructor_first (ctor : ConstructorNode)
  (rest : list MemberRecord) :
  ArraySort.insertionSort (memberCompare localeCompare) (constructorMember ctor :: rest)
  = constructorMember ctor :: ArraySort.insertionSort (memberCompare localeCompare) rest.
Proof.
  simpl. destruct (ArraySort.insertionSort (memberCompare localeCompare) rest);
    reflexivity.
Qed.

End Comparators.

(* ================================================================== *)
(** * The extractor under any conforming engine *)
(* ================================================================== *)

Section Engines.
Variable localeCompare : string -> string -> Z.
Hypothesis Hlocale : locale_consistent localeCompare.
Variable arraySort : ArraySort.EngineSort.
Hypothesis Hsort : ArraySort.sort_contract arraySort.

Lemma sortMembers_reference (variant : string) (ctors : list ConstructorNode)
  (props : list PropertyNode) (methods : list MethodNode) :
  arraySort _ (memberCompare localeCompare) (pushedMembers variant ctors props methods)
  = ArraySort.insertionSort (memberCompare localeCompare)
      (pushedMembers variant ctors props methods).
Proof.
  apply ArraySortFacts.contract_agrees; [exact Hsort|].
  now apply pushedMembers_consistent.
Qed.

Lemma sortSymbols_reference (symbols : list SymbolRecord) :
  arraySort _ (symbolCompare localeCompare) symbols
  = ArraySort.insertionSort (symbolCompare localeCompare) symbols.
Proof.
  apply ArraySortFacts.contract_agrees; [exact Hsort|].
  now apply symbolCompare_consistent.
Qed.

Lemma extractClass_reference (decl : Node) (variant : string) :
  extractClass localeCompare arraySort decl variant
  = extractClass localeCompare ArraySort.referenceSort decl variant.
Proof.
  unfold extractClass. destruct (asClassLike decl) as [[[[[b i] c] p] m]|e]; simpl;
    [|reflexivity].
  now rewrite sortMembers_reference.
Qed.

Lemma extractSymbol_reference (decl : Node) (variant : string) :
  extractSymbol localeCompare arraySort decl variant
  = extractSymbol localeCompare ArraySort.referenceSort decl variant.
Proof.
  unfold extractSymbol. now rewrite extractClass_reference.
Qed.

Lemma extractDeclarations_reference (declarations : list Node) (variant : string) :
  extractDeclarations localeCompare arraySort declarations variant
  = extractDeclarations localeCompare ArraySort.referenceSort declarations variant.
Proof.
  induction declarations as [|d ds IH]; simpl; [reflexivity|].
  now rewrite extractSymbol_reference, IH.
Qed.

Lemma extractEntries_reference (entries : list (string * list Node))
  (variant : string) :
  extractEntries localeCompare arraySort entries variant
  = extractEntries localeCompare ArraySort.referenceSort entries variant.
Proof.
  induction entries as [|[n ds] es IH]; simpl; [reflexivity|].
  now rewrite extractDeclarations_reference, IH.
Qed.

Lemma extractModule_reference (sourceFile : SourceFile) (filePath variant : string) :
  extractModule localeCompare arraySort sourceFile filePath variant
  = extractModule localeCompare ArraySort.referenceSort sourceFile filePath variant.
Proof.
  unfold extractModule. rewrite extractEntries_reference.
  destruct (extractEntries localeCompare ArraySort.referenceSort
              (getExportedDeclarations sourceFile) variant) as [symbols|e]; simpl;
    [|reflexivity].
  now rewrite sortSymbols_reference.
Qed.

(** ** Shape of the results *)

Lemma extractClass_members (decl : Node) (variant : string)
  (base : option (option string)) (impl : list string)
  (ctors : list ConstructorNode) (props : list PropertyNode)
  (methods : list MethodNode) :
  node_shape decl = ClassLike base impl ctors props methods ->
  extractClass localeCompare arraySort decl variant
  = Normal (ClassFields
      (match base with Some name => name | None => None end) impl
      (match ctors with ctor :: _ => [constructorMember ctor] | [] => [] end
       ++ ArraySort.insertionSort (memberCompare localeCompare)
            (pushProperties variant props ++ pushMethods variant methods))%list).
Proof.
  intros Hshape. unfold extractClass, asClassLike. rewrite Hshape. simpl.
  rewrite sortMembers_reference. unfold pushedMembers.
  destruct ctors as [|ctor ctors']; [reflexivity|].
  change ([constructorMember ctor] ++ ?l)%list with (constructorMember ctor :: l).
  now rewrite insertionSort_constructor_first.
Qed.

Lemma extractClass_inv (decl : Node) (variant : string) (fields : KindFields) :
  extractClass localeCompare arraySort decl variant = Normal fields ->
  exists base impl ctors props methods,
    node_shape decl = ClassLike base impl ctors props methods.
Proof.
  unfold extractClass, asClassLike.
  destruct (node_shape decl); simpl; try discriminate. eauto 6.
Qed.

(** The members of the sorted tail are property and method records. *)
Lemma sorted_tail_kinds (variant : string) (props : list PropertyNode)
  (methods : list MethodNode) :
  Forall isMemberKind
    (ArraySort.insertionSort (memberCompare localeCompare)
       (pushProperties variant props ++ pushMethods variant methods)).
Proof.
  apply Forall_forall. intros m Hm.
  apply ArraySortFacts.insertionSort_In in Hm.
  pose proof (pushed_kinds variant props methods) as Hk.
  rewrite Forall_forall in Hk. now apply Hk.
Qed.

Lemma memberCompare_order (a b : MemberRecord) :
  isMemberKind a -> isMemberKind b ->
  memberCompare localeCompare a b <= 0 -> memberOrder localeCompare a b.
Proof.
  intros Ha Hb. unfold memberOrder, isMemberKind, memberCompare in *.
  destruct Ha as [Ha|Ha], Hb as [Hb|Hb]; rewrite Ha, Hb; simpl; intros H;
    repeat split; try congruence; try lia; auto.
Qed.

Lemma sorted_tail_order (variant : string) (props : list PropertyNode)
  (methods : list MethodNode) :
  StronglySorted (memberOrder localeCompare)
    (ArraySort.insertionSort (memberCompare localeCompare)
       (pushProperties variant props ++ pushMethods variant methods)).
Proof.
  pose proof (sorted_tail_kinds variant props methods) as Hk.
  rewrite Forall_forall in Hk.
  eapply StronglySorted_weaken;
    [| apply ArraySortFacts.insertionSort_sorts_stably,
         memberCompare_consistent, pushed_kinds; exact Hlocale].
  intros a b Ha Hb. apply memberCompare_order; auto.
Qed.

Lemma class_members_order (ctors : list ConstructorNode) (variant : string)
  (props : list PropertyNode) (methods : list MethodNode) :
  StronglySorted (memberOrder localeCompare)
    (match ctors with ctor :: _ => [constructorMember ctor] | [] => [] end
     ++ ArraySort.insertionSort (memberCompare localeCompare)
          (pushProperties variant props ++ pushMethods variant methods))%list.
Proof.
  destruct ctors as [|ctor _]; simpl; [apply sorted_tail_order|].
  constructor; [apply sorted_tail_order|].
  pose proof (sorted_tail_kinds variant props methods) as Hk.
  rewrite Forall_forall in *. intros m Hm. specialize (Hk m Hm).
  unfold memberOrder, isMemberKind in *. simpl.
  destruct Hk as [Hk|Hk]; rewrite Hk; repeat split; congruence.
Qed.

(** What [extractSymbol] returns when it returns a record. *)
Lemma extractSymbol_Some (decl : Node) (variant : string) (s : SymbolRecord) :
  extractSymbol localeCompare arraySort decl variant = Normal (Some s) ->
  ((variant =? "public")%string && checkPrivacy decl = false) /\
  symbol_kind s = mapKind (getKindName decl) /\
  symbol_name s = getName decl /\
  symbol_isPrivate s = checkPrivacy decl /\
  (symbol_members s = [] \/
   exists base impl ctors props methods,
     node_shape decl = ClassLike base impl ctors props methods /\
     symbol_members s =
       (match ctors with ctor :: _ => [constructorMember ctor] | [] => [] end
        ++ ArraySort.insertionSort (memberCompare localeCompare)
             (pushProperties variant props ++ pushMethods variant methods))%list).
Proof.
  unfold extractSymbol.
  destruct ((variant =? "public")%string && checkPrivacy decl) eqn:Egate;
    [discriminate|].
  destruct (buildSignature decl) as [sig|e]; simpl; [|discriminate].
  set (k := mapKind (getKindName decl)).
  destruct (k =? "function")%string.
  { destruct (extractFunction _ _) as [f|e] eqn:E; simpl; [|discriminate].
    intros [= <-]. repeat split; auto. left.
    unfold extractFunction in E. destruct (asFunctionLike decl) as [[[? ?] ?]|];
      simpl in E; [|discriminate]. injection E as <-. reflexivity. }
  destruct (k =? "class")%string.
  { destruct (extractClass _ _ _ _) as [f|e] eqn:E; simpl; [|discriminate].
    intros [= <-]. repeat split; auto. right.
    destruct (extractClass_inv _ _ _ E) as (b & i & c & p & m & Hshape).
    exists b, i, c, p, m. split; [exact Hshape|].
    rewrite (extractClass_members _ _ _ _ _ _ _ Hshape) in E.
    injection E as <-. reflexivity. }
  destruct (k =? "interface")%string.
  { unfold extractInterface. destruct (asInterfaceLike decl); simpl; [|discriminate].
    intros [= <-]. repeat split; auto. }
  destruct (k =? "type")%string.
  { unfold extractTypeAlias. destruct (callGetType decl); simpl; [|discriminate].
    intros [= <-]. repeat split; auto. }
  destruct (k =? "const")%string.
  { unfold extractConst. destruct (callGetType decl); simpl; [|discriminate].
    destruct (callGetInitializer decl); simpl; [|discriminate].
    intros [= <-]. repeat split; auto. }
  destruct (k =? "enum")%string.
  { unfold extractEnum. destruct (asEnumLike decl); simpl; [|discriminate].
    intros [= <-]. repeat split; auto. }
  simpl. intros [= <-]. repeat split; auto.
Qed.

Lemma extractDeclarations_In (declarations : list Node) (variant : string)
  (symbols : list SymbolRecord) (s : SymbolRecord) :
  extractDeclarations localeCompare arraySort declarations variant = Normal symbols ->
  In s symbols ->
  exists decl, In decl declarations /\
    extractSymbol localeCompare arraySort decl variant = Normal (Some s).
Proof.
  revert symbols. induction declarations as [|d ds IH]; simpl; intros symbols.
  - intros [= <-] [].
  - destruct (extractSymbol _ _ d variant) as [o|e] eqn:Ed; simpl; [|discriminate].
    destruct (extractDeclarations _ _ ds variant) as [rest|e]; simpl; [|discriminate].
    intros [= <-] Hin.
    destruct o as [s'|].
    + destruct Hin as [<-|Hin]; [exists d; auto|].
      destruct (IH rest eq_refl Hin) as (d' & Hd' & E'). exists d'; auto.
    + destruct (IH rest eq_refl Hin) as (d' & Hd' & E'). exists d'; auto.
Qed.

Lemma extractEntries_In (entries : list (string * list Node)) (variant : string)
  (symbols : list SymbolRecord) (s : SymbolRecord) :
  extractEntries localeCompare arraySort entries variant = Normal symbols ->
  In s symbols ->
  exists name declarations decl,
    In (name, declarations) entries /\ In decl declarations /\
    extractSymbol localeCompare arraySort decl variant = Normal (Some s).
Proof.
  revert symbols. induction entries as [|[n ds] es IH]; simpl; intros symbols.
  - intros [= <-] [].
  - destruct (extractDeclarations _ _ ds variant) as [here|e] eqn:Eh; simpl;
      [|discriminate].
    destruct (extractEntries _ _ es variant) as [more|e]; simpl; [|discriminate].
    intros [= <-] Hin. apply in_app_or in Hin. destruct Hin as [Hin|Hin].
    + destruct (extractDeclarations_In _ _ _ _ Eh Hin) as (d & Hd & E).
      exists n, ds, d. auto.
    + destruct (IH more eq_refl Hin) as (n' & ds' & d & H1 & H2 & H3).
      exists n', ds', d. auto.
Qed.

(** The exports of a result are the sorted records of the declarations. *)
Lemma extractModule_inv (sourceFile : SourceFile) (filePath variant : string)
  (r : ExtractionResult) :
  extractModule localeCompare arraySort sourceFile filePath variant = Normal r ->
  exists symbols,
    extractEntries localeCompare arraySort (getExportedDeclarations sourceFile) variant
      = Normal symbols /\
    result_exports r = ArraySort.insertionSort (symbolCompare localeCompare) symbols /\
    deriveModuleName filePath = Normal (result_module r) /\
    exportCount (result_metadata r) = Z.of_nat (List.length (result_exports r)).
Proof.
  unfold extractModule.
  destruct (extractEntries _ _ _ variant) as [symbols|e]; simpl; [|discriminate].
  destruct (deriveModuleName filePath) as [m|e]; simpl; [|discriminate].
  intros [= <-]. simpl. exists symbols. rewrite sortSymbols_reference. auto.
Qed.

Lemma extractModule_In (sourceFile : SourceFile) (filePath variant : string)
  (r : ExtractionResult) (s : SymbolRecord) :
  extractModule localeCompare arraySort sourceFile filePath variant = Normal r ->
  In s (result_exports r) ->
  exists name declarations decl,
    In (name, declarations) (getExportedDeclarations sourceFile) /\
    In decl declarations /\
    extractSymbol localeCompare arraySort decl variant = Normal (Some s).
Proof.
  intros Hr Hs. destruct (extractModule_inv _ _ _ _ Hr) as (symbols & He & Hx & _).
  rewrite Hx in Hs. apply ArraySortFacts.insertionSort_In in Hs.
  eapply extractEntries_In; eauto.
Qed.

End Engines.

(* ================================================================== *)
(** * Ordering of exports and of class members *)
(* ================================================================== *)

Lemma symbolCompare_order (localeCompare : string -> string -> Z)
  (a b : SymbolRecord) :
  symbolCompare localeCompare a b <= 0 -> exportOrder localeCompare a b.
Proof.
  unfold symbolCompare, exportOrder.
  destruct (kindPriority (symbol_kind a) =? kindPriority (symbol_kind b)) eqn:E; simpl.
  - apply Z.eqb_eq in E. intros H. split; [lia | auto].
  - apply Z.eqb_neq in E. intros H. split; [lia|]. intros Hk. rewrite Hk in E. lia.
Qed.

Lemma mapKind_range (kindName : string) :
  In (mapKind kindName)
     ["type"; "interface"; "const"; "function"; "class"; "enum"; "unknown"].
Proof.
  unfold mapKind, kindMapping.
  repeat match goal with
         | |- context [(kindName =? ?k)%string] => destruct (kindName =? k)%string
         end; simpl; tauto.
Qed.

(** C1. With a consistent host collation and a conforming engine sort, the
    exports of every extraction result are ordered by the kind priority
    type 0, interface 1, const 2, function 3, class 4, enum 5, unknown 99
    (a record has no other kind), and records of one kind by ascending
    name; the file exporting function greet, interface UserConfig, const
    API_URL, type User, class DatabaseClient, enum Status is emitted as
    User, UserConfig, API_URL, greet, DatabaseClient, Status under either
    variant. *)
Theorem exports_sorted_by_kind_then_name
  (localeCompare : string -> string -> Z) (arraySort : ArraySort.EngineSort)
  (Hlocale : locale_consistent localeCompare)
  (Hsort : ArraySort.sort_contract arraySort) :
  map kindPriority ["type"; "interface"; "const"; "function"; "class"; "enum"; "unknown"]
  = [0; 1; 2; 3; 4; 5; 99] /\
  (forall sourceFile filePath variant r,
     extractModule localeCompare arraySort sourceFile filePath variant = Normal r ->
     StronglySorted (exportOrder localeCompare) (result_exports r) /\
     forall s, In s (result_exports r) ->
       In (symbol_kind s)
          ["type"; "interface"; "const"; "function"; "class"; "enum"; "unknown"]) /\
  (forall variant, variant = "public" \/ variant = "internal" ->
     exists r,
       extractModule localeCompare arraySort sampleFile
         "/home/user/project/src/sample.ts" variant = Normal r /\
       map (fun s => (symbol_name s, symbol_kind s)) (result_exports r)
       = [("User", "type"); ("UserConfig", "interface"); ("API_URL", "const");
          ("greet", "function"); ("DatabaseClient", "class"); ("Status", "enum")]).
Proof.
  split; [reflexivity|]. split.
  - intros sourceFile filePath variant r Hr. split.
    + destruct (extractModule_inv _ Hlocale _ Hsort _ _ _ _ Hr) as (symbols & _ & -> & _).
      eapply StronglySorted_weaken;
        [| apply ArraySortFacts.insertionSort_sorts_stably,
             symbolCompare_consistent, Hlocale].
      intros a b _ _. apply symbolCompare_order.
    + intros s Hs.
      destruct (extractModule_In _ Hlocale _ Hsort _ _ _ _ _ Hr Hs)
        as (n & ds & d & _ & _ & Hd).
      destruct (extractSymbol_Some _ Hlocale _ Hsort _ _ _ Hd) as (_ & -> & _).
      apply mapKind_range.
  - intros variant Hv.
    rewrite (extractModule_reference _ Hlocale _ Hsort).
    destruct Hv as [-> | ->]; vm_compute; eexists; split; reflexivity.
Qed.

Lemma exports_sorted_by_kind_then_name_witness :
  exists r,
    extractModule codeUnitCompare ArraySort.referenceSort sampleFile
      "/home/user/project/src/sample.ts" "public" = Normal r /\
    StronglySorted (exportOrder codeUnitCompare) (result_exports r).
Proof.
  pose proof (exports_sorted_by_kind_then_name codeUnitCompare
                ArraySort.referenceSort codeUnitCompare_consistent
                ArraySortFacts.referenceSort_contract) as (_ & Hsorted & Hexample).
  destruct (Hexample "public" (or_introl eq_refl)) as (r & Hr & _).
  exists r. split; [exact Hr | exact (proj1 (Hsorted _ _ _ _ Hr))].
Defined.

(** C5. In the members of every extracted class nothing precedes the
    constructor record, no method precedes a property, and names ascend
    within the properties and within the methods; a class with methods
    query and connect and property connectionString yields
    connectionString, connect, query when the collation puts connect
    before query. *)
Theorem class_members_ordered
  (localeCompare : string -> string -> Z) (arraySort : ArraySort.EngineSort)
  (Hlocale : locale_consistent localeCompare)
  (Hsort : ArraySort.sort_contract arraySort) :
  (forall sourceFile filePath variant r s,
     extractModule localeCompare arraySort sourceFile filePath variant = Normal r ->
     In s (result_exports r) ->
     StronglySorted (memberOrder localeCompare) (symbol_members s)) /\
  (forall decl variant fields,
     extractClass localeCompare arraySort decl variant = Normal fields ->
     exists base impl members,
       fields = ClassFields base impl members /\
       StronglySorted (memberOrder localeCompare) members) /\
  (localeCompare "connect" "query" < 0 ->
   forall variant, variant = "public" \/ variant = "internal" ->
     exists base impl members,
       extractClass localeCompare arraySort connectionClassNode variant
       = Normal (ClassFields base impl members) /\
       map (fun m => (member_kind m, member_name m)) members
       = [("property", "connectionString"); ("method", "connect"); ("method", "query")]).
Proof.
  split; [|split].
  - intros sourceFile filePath variant r s Hr Hs.
    destruct (extractModule_In _ Hlocale _ Hsort _ _ _ _ _ Hr Hs)
      as (n & ds & d & _ & _ & Hd).
    destruct (extractSymbol_Some _ Hlocale _ Hsort _ _ _ Hd)
      as (_ & _ & _ & _ & [-> | (b & i & c & p & m & _ & ->)]).
    + constructor.
    + now apply class_members_order.
  - intros decl variant fields Hf.
    destruct (extractClass_inv _ _ _ _ _ Hf) as (b & i & c & p & m & Hshape).
    rewrite (extractClass_members _ Hlocale _ Hsort _ _ _ _ _ _ _ Hshape) in Hf.
    injection Hf as <-. do 3 eexists. split; [reflexivity|].
    now apply class_members_order.
  - intros Hcq variant Hv.
    assert (Hqc : (localeCompare "query" "connect" <=? 0) = false)
      by (apply Z.leb_gt, (locale_sign _ Hlocale), Hcq).
    rewrite (extractClass_members _ Hlocale _ Hsort connectionClassNode variant
               None [] [] _ _ eq_refl).
    do 3 eexists. split; [reflexivity|].
    destruct Hv as [-> | ->]; cbn; unfold memberCompare; cbn; rewrite Hqc; reflexivity.
Qed.

Lemma class_members_ordered_witness :
  exists base impl members,
    extractClass codeUnitCompare ArraySort.referenceSort connectionClassNode "public"
    = Normal (ClassFields base impl members) /\
    map (fun m => (member_kind m, member_name m)) members
    = [("property", "connectionString"); ("method", "connect"); ("method", "query")].
Proof.
  refine (proj2 (proj2 (class_members_ordered codeUnitCompare ArraySort.referenceSort
            codeUnitCompare_consistent ArraySortFacts.referenceSort_contract))
            _ "public" (or_introl eq_refl)).
  vm_compute. reflexivity.
Defined.

Lemma extractSymbol_class (localeCompare : string -> string -> Z)
  (arraySort : ArraySort.EngineSort) (decl : Node) (variant : string)
  (s : SymbolRecord) :
  extractSymbol localeCompare arraySort decl variant = Normal (Some s) ->
  symbol_kind s = "class" ->
  extractClass localeCompare arraySort decl variant = Normal (symbol_fields s).
Proof.
  unfold extractSymbol.
  destruct ((variant =? "public")%string && checkPrivacy decl); [discriminate|].
  destruct (buildSignature decl) as [sig|e]; simpl; [|discriminate].
  set (k := mapKind (getKindName decl)).
  destruct (String.eqb_spec k "function") as [Ek|_].
  { destruct (extractFunction _ _); simpl; [|discriminate].
    intros [= <-]. simpl. congruence. }
  destruct (String.eqb_spec k "class") as [_|Ek].
  { destruct (extractClass _ _ _ _); simpl; [|discriminate].
    intros [= <-]. reflexivity. }
  intros H Hk. exfalso. apply Ek.
  destruct (if (k =? "interface")%string then _ else _); simpl in H; [|discriminate].
  injection H as <-. exact Hk.
Qed.

(** C10. For a class that declares a constructor, under any variant the
    first declared constructor is the first member, with visibility public
    and isStatic false whatever modifiers it carries; the visibility filter
    only decides about the property and method records behind it. *)
Theorem constructor_member_always_emitted
  (localeCompare : string -> string -> Z) (arraySort : ArraySort.EngineSort)
  (Hlocale : locale_consistent localeCompare)
  (Hsort : ArraySort.sort_contract arraySort) :
  (forall decl variant base impl ctor ctors props methods,
     node_shape decl = ClassLike base impl (ctor :: ctors) props methods ->
     exists baseName rest,
       extractClass localeCompare arraySort decl variant
       = Normal (ClassFields baseName impl (constructorMember ctor :: rest)) /\
       Permutation rest (pushProperties variant props ++ pushMethods variant methods) /\
       Forall isMemberKind rest) /\
  (forall ctor,
     member_kind (constructorMember ctor) = "constructor" /\
     member_visibility (constructorMember ctor) = "public" /\
     member_isStatic (constructorMember ctor) = false) /\
  (forall decl variant s base impl ctor ctors props methods,
     extractSymbol localeCompare arraySort decl variant = Normal (Some s) ->
     symbol_kind s = "class" ->
     node_shape decl = ClassLike base impl (ctor :: ctors) props methods ->
     exists rest, symbol_members s = constructorMember ctor :: rest) /\
  (exists baseName impl rest,
     extractClass localeCompare arraySort underscoreClassNode "public"
     = Normal (ClassFields baseName impl rest) /\
     map (fun m => (member_name m, member_visibility m, member_isStatic m)) rest
     = [("constructor", "public", false); ("_evict", "public", false)]).
Proof.
  split; [|split; [|split]].
  - intros decl variant base impl ctor ctors props methods Hshape.
    rewrite (extractClass_members _ Hlocale _ Hsort _ _ _ _ _ _ _ Hshape).
    do 2 eexists. split; [reflexivity|]. split.
    + apply Permutation_sym, ArraySortFacts.insertionSort_perm.
    + now apply sorted_tail_kinds.
  - intros ctor. repeat split.
  - intros decl variant s base impl ctor ctors props methods Hs Hk Hshape.
    pose proof (extractSymbol_class _ _ _ _ _ Hs Hk) as Hc.
    rewrite (extractClass_members _ Hlocale _ Hsort _ _ _ _ _ _ _ Hshape) in Hc.
    unfold symbol_members. injection Hc as <-. eexists. reflexivity.
  - rewrite (extractClass_members _ Hlocale _ Hsort underscoreClassNode "public"
               None [] _ _ _ eq_refl).
    do 3 eexists. split; reflexivity.
Qed.

Lemma constructor_member_always_emitted_witness :
  exists baseName impl rest,
    extractClass codeUnitCompare ArraySort.referenceSort underscoreClassNode "public"
    = Normal (ClassFields baseName impl rest) /\
    map (fun m => (member_name m, member_visibility m, member_isStatic m)) rest
    = [("constructor", "public", false); ("_evict", "public", false)].
Proof.
  exact (proj2 (proj2 (proj2 (constructor_member_always_emitted codeUnitCompare
           ArraySort.referenceSort codeUnitCompare_consistent
           ArraySortFacts.referenceSort_contract)))).
Defined.

(** C9. Two runs on one parsed file, path and variant end in the same
    outcome, with the same export and member order, whatever the sorts of
    the two engines are within the contract of [Array.prototype.sort], as
    long as the host collation is the same. It is not a function of file
    and variant alone: both sorts call [localeCompare] without a locale, and
    under a host collation that ranks z before t the constants tau and zeta
    are exported in the other order. *)
Theorem extraction_deterministic :
  (forall (localeCompare : string -> string -> Z)
          (sortA sortB : ArraySort.EngineSort),
     locale_consistent localeCompare ->
     ArraySort.sort_contract sortA -> ArraySort.sort_contract sortB ->
     forall sourceFile filePath variant,
       extractModule localeCompare sortA sourceFile filePath variant
       = extractModule localeCompare sortB sourceFile filePath variant) /\
  locale_consistent codeUnitCompare /\ locale_consistent zBeforeTCompare /\
  exists r r',
    extractModule codeUnitCompare ArraySort.referenceSort greekFile
      "/home/user/project/src/greek.ts" "public" = Normal r /\
    extractModule zBeforeTCompare ArraySort.referenceSort greekFile
      "/home/user/project/src/greek.ts" "public" = Normal r' /\
    map symbol_name (result_exports r) = ["tau"; "zeta"] /\
    map symbol_name (result_exports r') = ["zeta"; "tau"].
Proof.
  split; [|split; [|split]].
  - intros localeCompare sortA sortB Hlocale HsortA HsortB sourceFile filePath variant.
    rewrite (extractModule_reference _ Hlocale _ HsortA).
    rewrite (extractModule_reference _ Hlocale _ HsortB).
    reflexivity.
  - exact codeUnitCompare_consistent.
  - exact zBeforeTCompare_consistent.
  - do 2 eexists. split; [vm_compute; reflexivity|].
    split; [vm_compute; reflexivity|]. split; reflexivity.
Qed.

Lemma extraction_deterministic_witness :
  extractModule codeUnitCompare ArraySort.referenceSort sampleFile
    "/home/user/project/src/sample.ts" "internal"
  = extractModule codeUnitCompare ArraySort.forwardEngine sampleFile
      "/home/user/project/src/sample.ts" "internal".
Proof.
  apply (proj1 extraction_deterministic codeUnitCompare
           ArraySort.referenceSort ArraySort.forwardEngine
           codeUnitCompare_consistent
           ArraySortFacts.referenceSort_contract
           ForwardSortFacts.forwardEngine_contract).
Defined.

(* ================================================================== *)
(** * Visibility *)
(* ================================================================== *)

Lemma carries_In (modifiers : list SyntaxKind) (kind : SyntaxKind) :
  carries modifiers kind = true <-> In kind modifiers.
Proof.
  unfold carries. rewrite existsb_exists. split.
  - intros (k & Hk & E). destruct kind, k; simpl in E; try discriminate; exact Hk.
  - intros H. exists kind. split; [exact H | destruct kind; reflexivity].
Qed.

Lemma startsWith_underscore (s : string) :
  JsString.startsWith s "_" = true <-> exists rest, s = String "_" rest.
Proof.
  unfold JsString.startsWith. destruct s as [|c s]; cbn [JsString.isPrefix].
  - split; [discriminate | intros [r Hr]; discriminate].
  - rewrite andb_true_r. destruct (Ascii.eqb_spec "_" c) as [<-|Hc].
    + split; eauto.
    + split; [discriminate | intros [r [= Hr _]]; congruence].
Qed.

Lemma checkPrivacy_spec (decl : Node) :
  checkPrivacy decl = true <->
  (exists modifiers, hasModifier (node_base decl) = Some modifiers /\
     (In PrivateKeyword modifiers \/ In ProtectedKeyword modifiers)) \/
  (exists rest, getName decl = String "_" rest).
Proof.
  unfold checkPrivacy. rewrite <- startsWith_underscore.
  destruct (hasModifier (node_base decl)) as [mods|].
  - destruct (carries mods PrivateKeyword) eqn:E1.
    { apply carries_In in E1. split; [|reflexivity]. intros _. left. eauto. }
    destruct (carries mods ProtectedKeyword) eqn:E2.
    { apply carries_In in E2. split; [|reflexivity]. intros _. left. eauto. }
    split; [now right|].
    intros [(m & [= <-] & [H|H]) | H]; [| |exact H]; apply carries_In in H; congruence.
  - split; [now right|]. intros [(m & H & _) | H]; [discriminate | exact H].
Qed.

Lemma extractSymbol_gate (localeCompare : string -> string -> Z)
  (arraySort : ArraySort.EngineSort) (decl : Node) (variant : string) :
  extractSymbol localeCompare arraySort decl variant = Normal None <->
  variant = "public" /\ checkPrivacy decl = true.
Proof.
  unfold extractSymbol.
  destruct (String.eqb_spec variant "public") as [Hv|Hv]; simpl.
  - destruct (checkPrivacy decl) eqn:Hp; [tauto|].
    split; [|intros [_ H]; discriminate].
    destruct (buildSignature decl); simpl; [|discriminate].
    destruct (if (_ =? "function")%string then _ else _); simpl; discriminate.
  - split; [|tauto].
    destruct (buildSignature decl); simpl; [|discriminate].
    destruct (if (_ =? "function")%string then _ else _); simpl; discriminate.
Qed.

Lemma extractDeclarations_app (localeCompare : string -> string -> Z)
  (arraySort : ArraySort.EngineSort) (before after : list Node) (variant : string) :
  extractDeclarations localeCompare arraySort (before ++ after) variant
  = (first <- extractDeclarations localeCompare arraySort before variant ;;
     second <- extractDeclarations localeCompare arraySort after variant ;;
     Normal (first ++ second)%list).
Proof.
  induction before as [|d ds IH]; simpl.
  - destruct (extractDeclarations _ _ after variant); reflexivity.
  - destruct (extractSymbol _ _ d variant) as [o|e]; simpl; [|reflexivity].
    rewrite IH.
    destruct (extractDeclarations _ _ ds variant); simpl; [|reflexivity].
    destruct (extractDeclarations _ _ after variant); simpl; [|reflexivity].
    destruct o; reflexivity.
Qed.

Lemma extractDeclarations_excluded (localeCompare : string -> string -> Z)
  (arraySort : ArraySort.EngineSort) (decl : Node) (variant : string)
  (before after : list Node) :
  extractSymbol localeCompare arraySort decl variant = Normal None ->
  extractDeclarations localeCompare arraySort (before ++ decl :: after) variant
  = extractDeclarations localeCompare arraySort (before ++ after) variant.
Proof.
  intros H. rewrite !extractDeclarations_app. simpl. rewrite H. simpl.
  destruct (extractDeclarations _ _ before variant); simpl; [|reflexivity].
  destruct (extractDeclarations _ _ after variant); reflexivity.
Qed.

Lemma extractEntries_app (localeCompare : string -> string -> Z)
  (arraySort : ArraySort.EngineSort) (before after : list (string * list Node))
  (variant : string) :
  extractEntries localeCompare arraySort (before ++ after) variant
  = (first <- extractEntries localeCompare arraySort before variant ;;
     second <- extractEntries localeCompare arraySort after variant ;;
     Normal (first ++ second)%list).
Proof.
  induction before as [|[n ds] es IH]; simpl.
  - destruct (extractEntries _ _ after variant); reflexivity.
  - destruct (extractDeclarations _ _ ds variant); simpl; [|reflexivity].
    rewrite IH.
    destruct (extractEntries _ _ es variant); simpl; [|reflexivity].
    destruct (extractEntries _ _ after variant); simpl; [|reflexivity].
    now rewrite app_assoc.
Qed.

(** C3. [extractSymbol] returns null exactly when the variant is public
    and the declaration is private, where private means a private or
    protected modifier or a resolved name starting with an underscore;
    under the internal variant nothing is excluded; and an excluded
    declaration leaves no trace: the run yields what it yields without it. *)
Theorem top_level_visibility_gate
  (localeCompare : string -> string -> Z) (arraySort : ArraySort.EngineSort)
  (decl : Node) (variant : string) :
  (extractSymbol localeCompare arraySort decl variant = Normal None <->
   variant = "public" /\ checkPrivacy decl = true) /\
  (checkPrivacy decl = true <->
   (exists modifiers, hasModifier (node_base decl) = Some modifiers /\
      (In PrivateKeyword modifiers \/ In ProtectedKeyword modifiers)) \/
   (exists rest, getName decl = String "_" rest)) /\
  extractSymbol localeCompare arraySort decl "internal" <> Normal None /\
  (extractSymbol localeCompare arraySort decl variant = Normal None ->
   forall sourceFile filePath name before after earlier later,
     extractModule localeCompare arraySort
       (withExports sourceFile
          (earlier ++ (name, before ++ decl :: after) :: later)%list)
       filePath variant
     = extractModule localeCompare arraySort
         (withExports sourceFile (earlier ++ (name, before ++ after) :: later)%list)
         filePath variant).
Proof.
  split; [apply extractSymbol_gate|]. split; [apply checkPrivacy_spec|]. split.
  - intros H. apply extractSymbol_gate in H. destruct H as [H _]. discriminate.
  - intros H sourceFile filePath name before after earlier later.
    unfold extractModule, withExports. simpl.
    rewrite !extractEntries_app. simpl.
    now rewrite (extractDeclarations_excluded _ _ _ _ _ _ H).
Qed.

Lemma top_level_visibility_gate_witness :
  extractModule codeUnitCompare ArraySort.referenceSort
    (withExports sampleFile
       [("greet", [greetNode]);
        ("_internalHelper",
          [namedNode "FunctionDeclaration" "_internalHelper" (plainBase "")
             (FunctionLike [] "void" None)])])
    "/home/user/project/src/sample.ts" "public"
  = extractModule codeUnitCompare ArraySort.referenceSort
      (withExports sampleFile [("greet", [greetNode]); ("_internalHelper", [])])
      "/home/user/project/src/sample.ts" "public".
Proof.
  apply (proj2 (proj2 (proj2 (top_level_visibility_gate codeUnitCompare
           ArraySort.referenceSort
           (namedNode "FunctionDeclaration" "_internalHelper" (plainBase "")
              (FunctionLike [] "void" None)) "public")))
         eq_refl sampleFile "/home/user/project/src/sample.ts" "_internalHelper"
         [] [] [("greet", [greetNode])] []).
Defined.

Lemma keepMember_public (vis : string) :
  keepMember "public" vis = true <-> vis = "public".
Proof.
  unfold keepMember. simpl. rewrite negb_involutive. apply String.eqb_eq.
Qed.

Lemma pushProperties_public (props : list PropertyNode) :
  Forall (fun m => member_visibility m = "public") (pushProperties "public" props).
Proof.
  induction props as [|p props IH]; simpl; [constructor|].
  destruct (keepMember "public" _) eqn:E; [|exact IH].
  constructor; [|exact IH]. now apply keepMember_public.
Qed.

Lemma pushMethods_public (methods : list MethodNode) :
  Forall (fun m => member_visibility m = "public") (pushMethods "public" methods).
Proof.
  induction methods as [|p methods IH]; simpl; [constructor|].
  destruct (keepMember "public" _) eqn:E; [|exact IH].
  constructor; [|exact IH]. now apply keepMember_public.
Qed.

Lemma pushProperties_In (variant : string) (props : list PropertyNode)
  (prop : PropertyNode) :
  In prop props -> keepMember variant (getVisibility (prop_base prop)) = true ->
  In (propertyMember prop (getVisibility (prop_base prop)))
     (pushProperties variant props).
Proof.
  intros Hin Hkeep. induction props as [|p props IH]; simpl; [contradiction|].
  destruct Hin as [->|Hin].
  - rewrite Hkeep. now left.
  - destruct (keepMember variant (getVisibility (prop_base p)));
      [apply in_cons|]; auto.
Qed.

Lemma pushMethods_In (variant : string) (methods : list MethodNode)
  (method : MethodNode) :
  In method methods -> keepMember variant (getVisibility (method_base method)) = true ->
  In (methodMember method (getVisibility (method_base method)))
     (pushMethods variant methods).
Proof.
  intros Hin Hkeep. induction methods as [|p methods IH]; simpl; [contradiction|].
  destruct Hin as [->|Hin].
  - rewrite Hkeep. now left.
  - destruct (keepMember variant (getVisibility (method_base p)));
      [apply in_cons|]; auto.
Qed.

Lemma pushProperties_internal (props : list PropertyNode) :
  pushProperties "internal" props
  = map (fun p => propertyMember p (getVisibility (prop_base p))) props.
Proof.
  induction props as [|p props IH]; simpl; [reflexivity|].
  now rewrite IH.
Qed.

Lemma pushMethods_internal (methods : list MethodNode) :
  pushMethods "internal" methods
  = map (fun m => methodMember m (getVisibility (method_base m))) methods.
Proof.
  induction methods as [|p methods IH]; simpl; [reflexivity|].
  now rewrite IH.
Qed.

Lemma getVisibility_spec (member : NodeBase) :
  getVisibility member = "public" <->
  forall modifiers, hasModifier member = Some modifiers ->
    ~ In PrivateKeyword modifiers /\ ~ In ProtectedKeyword modifiers.
Proof.
  unfold getVisibility. destruct (hasModifier member) as [mods|].
  - destruct (carries mods PrivateKeyword) eqn:E1.
    { apply carries_In in E1. split; [discriminate|].
      intros H. destruct (H mods eq_refl) as [H1 _]. contradiction. }
    destruct (carries mods ProtectedKeyword) eqn:E2.
    { apply carries_In in E2. split; [discriminate|].
      intros H. destruct (H mods eq_refl) as [_ H2]. contradiction. }
    split; [|reflexivity]. intros _ m [= <-].
    split; intros H; apply carries_In in H; congruence.
  - split; [|reflexivity]. intros _ m H. discriminate.
Qed.

Lemma extractDeclarations_internal_length (localeCompare : string -> string -> Z)
  (arraySort : ArraySort.EngineSort) (declarations : list Node)
  (symbols : list SymbolRecord) :
  extractDeclarations localeCompare arraySort declarations "internal" = Normal symbols ->
  List.length symbols = List.length declarations.
Proof.
  revert symbols. induction declarations as [|d ds IH]; simpl; intros symbols.
  - now intros [= <-].
  - destruct (extractSymbol _ _ d "internal") as [o|e] eqn:Ed; simpl; [|discriminate].
    destruct (extractDeclarations _ _ ds "internal") as [rest|e]; simpl; [|discriminate].
    intros [= <-]. destruct o as [s|].
    + simpl. now rewrite (IH rest eq_refl).
    + apply extractSymbol_gate in Ed. destruct Ed as [Ed _]. discriminate.
Qed.

Lemma extractEntries_internal_length (localeCompare : string -> string -> Z)
  (arraySort : ArraySort.EngineSort) (entries : list (string * list Node))
  (symbols : list SymbolRecord) :
  extractEntries localeCompare arraySort entries "internal" = Normal symbols ->
  List.length symbols = List.length (List.concat (map snd entries)).
Proof.
  revert symbols. induction entries as [|[n ds] es IH]; simpl; intros symbols.
  - now intros [= <-].
  - destruct (extractDeclarations _ _ ds "internal") as [here|e] eqn:Eh; simpl;
      [|discriminate].
    destruct (extractEntries _ _ es "internal") as [more|e]; simpl; [|discriminate].
    intros [= <-]. rewrite !length_app.
    now rewrite (extractDeclarations_internal_length _ _ _ _ Eh), (IH more eq_refl).
Qed.

Lemma extractDeclarations_complete (localeCompare : string -> string -> Z)
  (arraySort : ArraySort.EngineSort) (declarations : list Node) (variant : string)
  (symbols : list SymbolRecord) :
  extractDeclarations localeCompare arraySort declarations variant = Normal symbols ->
  forall decl, In decl declarations ->
    exists o, extractSymbol localeCompare arraySort decl variant = Normal o /\
              forall s, o = Some s -> In s symbols.
Proof.
  revert symbols. induction declarations as [|d ds IH]; simpl; intros symbols.
  - intros _ decl [].
  - destruct (extractSymbol _ _ d variant) as [o|e] eqn:Ed; simpl; [|discriminate].
    destruct (extractDeclarations _ _ ds variant) as [rest|e]; simpl; [|discriminate].
    intros [= <-] decl [<-|Hin].
    + exists o. split; [exact Ed|]. intros s ->. now left.
    + destruct (IH rest eq_refl decl Hin) as (o' & Ho' & Hs). exists o'.
      split; [exact Ho'|]. intros s Hs'. destruct o; [right|]; auto.
Qed.

Lemma extractEntries_complete (localeCompare : string -> string -> Z)
  (arraySort : ArraySort.EngineSort) (entries : list (string * list Node))
  (variant : string) (symbols : list SymbolRecord) :
  extractEntries localeCompare arraySort entries variant = Normal symbols ->
  forall name declarations decl,
    In (name, declarations) entries -> In decl declarations ->
    exists o, extractSymbol localeCompare arraySort decl variant = Normal o /\
              forall s, o = Some s -> In s symbols.
Proof.
  revert symbols. induction entries as [|[n ds] es IH]; simpl; intros symbols.
  - intros _ name declarations decl [].
  - destruct (extractDeclarations _ _ ds variant) as [here|e] eqn:Eh; simpl;
      [|discriminate].
    destruct (extractEntries _ _ es variant) as [more|e]; simpl; [|discriminate].
    intros [= <-] name declarations decl [[= <- <-]|Hin] Hd.
    + destruct (extractDeclarations_complete _ _ _ _ _ Eh decl Hd) as (o & Ho & Hs).
      exists o. split; [exact Ho|]. intros s Hs'. apply in_or_app. left. auto.
    + destruct (IH more eq_refl _ _ _ Hin Hd) as (o & Ho & Hs).
      exists o. split; [exact Ho|]. intros s Hs'. apply in_or_app. right. auto.
Qed.

(** C2, as stated, fails: under the public variant the method [_evict],
    which carries no modifier, is a member of the extracted class. *)
Lemma underscore_member_not_excluded :
  exists r s m,
    extractModule codeUnitCompare ArraySort.referenceSort cacheFile
      "/home/user/project/src/cache.ts" "public" = Normal r /\
    In s (result_exports r) /\ In m (symbol_members s) /\
    member_kind m = "method" /\
    JsString.startsWith (member_name m) "_" = true.
Proof.
  do 3 eexists. split; [vm_compute; reflexivity|].
  split; [left; reflexivity|]. split; [right; left; reflexivity|].
  split; reflexivity.
Qed.

(** C2, amended. Under the public variant no exported record is private
    and every member record has visibility public, where the visibility of
    a property or method is decided by its modifiers alone: a member without
    a private or protected modifier is kept whatever its name. Under the
    internal variant every declaration has its record and every property
    and method its member record. *)
Theorem visibility_filtering
  (localeCompare : string -> string -> Z) (arraySort : ArraySort.EngineSort)
  (Hlocale : locale_consistent localeCompare)
  (Hsort : ArraySort.sort_contract arraySort) :
  (forall sourceFile filePath r s,
     extractModule localeCompare arraySort sourceFile filePath "public" = Normal r ->
     In s (result_exports r) ->
     symbol_isPrivate s = false /\
     Forall (fun m => member_visibility m = "public") (symbol_members s)) /\
  (forall decl base impl ctors props methods,
     node_shape decl = ClassLike base impl ctors props methods ->
     exists baseName members,
       extractClass localeCompare arraySort decl "public"
       = Normal (ClassFields baseName impl members) /\
       (forall prop, In prop props ->
          (forall modifiers, hasModifier (prop_base prop) = Some modifiers ->
             ~ In PrivateKeyword modifiers /\ ~ In ProtectedKeyword modifiers) ->
          In (propertyMember prop "public") members) /\
       (forall method, In method methods ->
          (forall modifiers, hasModifier (method_base method) = Some modifiers ->
             ~ In PrivateKeyword modifiers /\ ~ In ProtectedKeyword modifiers) ->
          In (methodMember method "public") members)) /\
  (forall sourceFile filePath r,
     extractModule localeCompare arraySort sourceFile filePath "internal" = Normal r ->
     List.length (result_exports r)
     = List.length (List.concat (map snd (getExportedDeclarations sourceFile))) /\
     forall name declarations decl,
       In (name, declarations) (getExportedDeclarations sourceFile) ->
       In decl declarations ->
       exists s,
         extractSymbol localeCompare arraySort decl "internal" = Normal (Some s) /\
         In s (result_exports r)) /\
  (forall decl base impl ctors props methods,
     node_shape decl = ClassLike base impl ctors props methods ->
     exists baseName members,
       extractClass localeCompare arraySort decl "internal"
       = Normal (ClassFields baseName impl members) /\
       Permutation members
         (match ctors with ctor :: _ => [constructorMember ctor] | [] => [] end
          ++ map (fun p => propertyMember p (getVisibility (prop_base p))) props
          ++ map (fun m => methodMember m (getVisibility (method_base m))) methods)).
Proof.
  split; [|split; [|split]].
  - intros sourceFile filePath r s Hr Hs.
    destruct (extractModule_In _ Hlocale _ Hsort _ _ _ _ _ Hr Hs)
      as (n & ds & d & _ & _ & Hd).
    destruct (extractSymbol_Some _ Hlocale _ Hsort _ _ _ Hd)
      as (Hgate & _ & _ & Hp & Hm).
    simpl in Hgate. split; [congruence|].
    destruct Hm as [-> | (b & i & c & p & m & _ & ->)]; [constructor|].
    apply Forall_app. split.
    + destruct c; repeat constructor.
    + apply Forall_forall. intros x Hx.
      apply ArraySortFacts.insertionSort_In in Hx. apply in_app_or in Hx.
      pose proof (pushProperties_public p) as H1.
      pose proof (pushMethods_public m) as H2.
      rewrite Forall_forall in H1, H2. destruct Hx; auto.
  - intros decl base impl ctors props methods Hshape.
    rewrite (extractClass_members _ Hlocale _ Hsort _ _ _ _ _ _ _ Hshape).
    do 2 eexists. split; [reflexivity|]. split.
    + intros prop Hin Hmods. apply getVisibility_spec in Hmods.
      apply in_or_app. right. apply ArraySortFacts.insertionSort_In.
      apply in_or_app. left. rewrite <- Hmods at 1.
      apply pushProperties_In; [exact Hin|]. now apply keepMember_public.
    + intros method Hin Hmods. apply getVisibility_spec in Hmods.
      apply in_or_app. right. apply ArraySortFacts.insertionSort_In.
      apply in_or_app. right. rewrite <- Hmods at 1.
      apply pushMethods_In; [exact Hin|]. now apply keepMember_public.
  - intros sourceFile filePath r Hr.
    destruct (extractModule_inv _ Hlocale _ Hsort _ _ _ _ Hr) as (symbols & He & -> & _).
    split.
    + rewrite <- (extractEntries_internal_length _ _ _ _ He).
      apply Permutation_length, Permutation_sym, ArraySortFacts.insertionSort_perm.
    + intros name declarations decl Hn Hd.
      destruct (extractEntries_complete _ _ _ _ _ He _ _ _ Hn Hd) as (o & Ho & Hin).
      destruct o as [s|].
      * exists s. split; [exact Ho|].
        apply ArraySortFacts.insertionSort_In. now apply Hin.
      * apply extractSymbol_gate in Ho. destruct Ho as [Ho _]. discriminate.
  - intros decl base impl ctors props methods Hshape.
    rewrite (extractClass_members _ Hlocale _ Hsort _ _ _ _ _ _ _ Hshape).
    do 2 eexists. split; [reflexivity|].
    apply Permutation_app_head.
    rewrite pushProperties_internal, pushMethods_internal.
    apply Permutation_sym, ArraySortFacts.insertionSort_perm.
Qed.

Lemma visibility_filtering_witness :
  exists r,
    extractModule codeUnitCompare ArraySort.referenceSort sampleFile
      "/home/user/project/src/sample.ts" "internal" = Normal r /\
    List.length (result_exports r) = 6%nat.
Proof.
  assert (H : exists r,
             extractModule codeUnitCompare ArraySort.referenceSort sampleFile
               "/home/user/project/src/sample.ts" "internal" = Normal r)
    by (vm_compute; eexists; reflexivity).
  destruct H as [r Hr]. exists r. split; [exact Hr|].
  exact (proj1 (proj1 (proj2 (proj2 (visibility_filtering codeUnitCompare
           ArraySort.referenceSort codeUnitCompare_consistent
           ArraySortFacts.referenceSort_contract))) _ _ _ Hr)).
Defined.

(* ================================================================== *)
(** * Facts about strings *)
(* ================================================================== *)

Lemma isPrefix_spec (p : string) : forall s,
  JsString.isPrefix p s = true <-> exists t, s = p ++ t.
Proof.
  induction p as [|a p IH]; intros s; cbn [JsString.isPrefix].
  - split; [intros _; exists s; reflexivity | reflexivity].
  - destruct s as [|b s].
    + split; [discriminate | intros [t Ht]; discriminate].
    + rewrite andb_true_iff, IH. split.
      * intros [Hab [t ->]]. apply Ascii.eqb_eq in Hab. subst. now exists t.
      * intros [t [= -> ->]]. split; [apply Ascii.eqb_refl | now exists t].
Qed.

Lemma includes_spec (s : string) : forall sub,
  JsString.includes s sub = true <-> occursIn sub s.
Proof.
  unfold occursIn. induction s as [|c s IH]; intros sub; cbn [JsString.includes].
  - rewrite orb_false_r, isPrefix_spec. split.
    + intros [t Ht]. exists "", t. exact Ht.
    + intros ([|x pre] & post & H); [now exists post | discriminate].
  - rewrite orb_true_iff, isPrefix_spec, IH. split.
    + intros [[t Ht] | (pre & post & ->)].
      * exists "", t. exact Ht.
      * now exists (String c pre), post.
    + intros ([|x pre] & post & H).
      * left. now exists post.
      * right. injection H as -> ->. now exists pre, post.
Qed.

Lemma find_first {A : Type} (f : A -> bool) (l : list A) (x : A) :
  find f l = Some x <->
  exists before after, l = (before ++ x :: after)%list /\ f x = true /\
    forall y, In y before -> f y = false.
Proof.
  induction l as [|a l IH]; simpl.
  - split; [discriminate | intros ([|? ?] & ? & ? & _); discriminate].
  - destruct (f a) eqn:Ea.
    + split.
      * intros [= ->]. exists [], l. repeat split; auto. intros y [].
      * intros ([|b before] & after & Hl & Hx & Hb).
        -- now injection Hl as ->.
        -- injection Hl as -> _. rewrite (Hb b (or_introl eq_refl)) in Ea.
           discriminate.
    + rewrite IH. split.
      * intros (before & after & -> & Hx & Hb). exists (a :: before), after.
        repeat split; auto. intros y [<-|Hy]; auto.
      * intros ([|b before] & after & Hl & Hx & Hb).
        -- injection Hl as -> _. congruence.
        -- injection Hl as -> ->. exists before, after. repeat split; auto.
           intros y Hy. apply Hb. now right.
Qed.

Lemma find_none_iff {A : Type} (f : A -> bool) (l : list A) :
  find f l = None <-> forall y, In y l -> f y = false.
Proof.
  induction l as [|a l IH]; simpl.
  - split; [intros _ y [] | reflexivity].
  - destruct (f a) eqn:Ea.
    + split; [discriminate|]. intros H. rewrite (H a (or_introl eq_refl)) in Ea.
      discriminate.
    + rewrite IH. split.
      * intros H y [<-|Hy]; auto.
      * intros H y Hy. apply H. now right.
Qed.

Lemma textIncludes_spec (text : CommentValue) (paramName : string) :
  textIncludes text paramName = true <-> textContains paramName text.
Proof.
  destruct text as [s|nodes]; simpl; [apply includes_spec|].
  split; [discriminate | contradiction].
Qed.

Lemma isParamTagFor_spec (paramName : string) (tag : TagRecord) :
  isParamTagFor paramName tag = true <->
  tag_name tag = "param" /\ textContains paramName (tag_text tag).
Proof.
  unfold isParamTagFor. now rewrite andb_true_iff, String.eqb_eq, textIncludes_spec.
Qed.

Lemma isParamTagFor_false (paramName : string) (tag : TagRecord) :
  isParamTagFor paramName tag = false <->
  ~ (tag_name tag = "param" /\ textContains paramName (tag_text tag)).
Proof.
  rewrite <- isParamTagFor_spec. destruct (isParamTagFor paramName tag); split;
    congruence.
Qed.

(** C7. [extractParamComment] returns the text of the first tag named
    param whose text contains the parameter name, and nothing when there is
    no JSDoc or no such tag; containment is by substring, so the parameter
    id picks up a tag that documents userId when its text contains id. A
    tag whose text is an array of nodes contains no name and is passed
    over. *)
Theorem param_comment_first_substring_match (paramName : string) :
  extractParamComment None paramName = None /\
  (forall doc text,
     extractParamComment (Some doc) paramName = Some text <->
     exists before tag after,
       jsdoc_tags doc = (before ++ tag :: after)%list /\
       tag_name tag = "param" /\ textContains paramName (tag_text tag) /\
       text = tag_text tag /\
       forall earlier, In earlier before ->
         ~ (tag_name earlier = "param" /\ textContains paramName (tag_text earlier))) /\
  (forall doc,
     extractParamComment (Some doc) paramName = None <->
     forall tag, In tag (jsdoc_tags doc) ->
       ~ (tag_name tag = "param" /\ textContains paramName (tag_text tag))) /\
  (forall doc nodes,
     extractParamComment (Some doc) paramName <> Some (CommentNodes nodes)) /\
  extractParamComment
    (Some {| jsdoc_description := "Fetches a record";
             jsdoc_tags :=
               [ {| tag_name := "param";
                    tag_text := CommentText "userId - the id of the owner";
                    tag_type := None |};
                 {| tag_name := "param";
                    tag_text := CommentText "id - the record to fetch";
                    tag_type := None |} ] |})
    "id"
  = Some (CommentText "userId - the id of the owner").
Proof.
  split; [reflexivity|]. split; [|split; [|split; [|reflexivity]]].
  - intros doc text. unfold extractParamComment.
    destruct (find (isParamTagFor paramName) (jsdoc_tags doc)) as [tag|] eqn:E; simpl.
    + apply find_first in E. destruct E as (before & after & Hl & Htag & Hb).
      apply isParamTagFor_spec in Htag. destruct Htag as [Hn Ho]. split.
      * intros [= <-]. exists before, tag, after. repeat split; auto.
        intros earlier He. apply isParamTagFor_false. auto.
      * intros (before' & tag' & after' & Hl' & Hn' & Ho' & -> & Hb').
        f_equal.
        assert (E' : find (isParamTagFor paramName) (jsdoc_tags doc) = Some tag').
        { apply find_first. exists before', after'. repeat split; auto.
          - apply isParamTagFor_spec. auto.
          - intros y Hy. apply isParamTagFor_false. auto. }
        assert (E0 : find (isParamTagFor paramName) (jsdoc_tags doc) = Some tag).
        { apply find_first. exists before, after. repeat split; auto.
          apply isParamTagFor_spec. auto. }
        congruence.
    + split; [discriminate|].
      intros (before & tag & after & Hl & Hn & Ho & _ & _). exfalso.
      rewrite find_none_iff in E.
      assert (Hin : In tag (jsdoc_tags doc)) by (rewrite Hl; apply in_elt).
      apply E in Hin. apply isParamTagFor_false in Hin. tauto.
  - intros doc. unfold extractParamComment.
    destruct (find (isParamTagFor paramName) (jsdoc_tags doc)) as [tag|] eqn:E; simpl.
    + split; [discriminate|]. intros H. exfalso.
      apply find_some in E. destruct E as [Hin Htag].
      apply isParamTagFor_spec in Htag. exact (H tag Hin Htag).
    + split; [|reflexivity]. intros _ tag Hin.
      rewrite find_none_iff in E. apply isParamTagFor_false. auto.
  - intros doc nodes. unfold extractParamComment.
    destruct (find (isParamTagFor paramName) (jsdoc_tags doc)) as [tag|] eqn:E;
      simpl; [|discriminate].
    apply find_some in E. destruct E as [_ Htag].
    apply isParamTagFor_spec in Htag. destruct Htag as [_ Ht].
    intros [= H]. rewrite H in Ht. exact Ht.
Qed.

Lemma param_comment_first_substring_match_witness :
  extractParamComment
    (Some {| jsdoc_description := "Async function example";
             jsdoc_tags :=
               [ {| tag_name := "param";
                    tag_text := CommentText "userId - User ID to fetch";
                    tag_type := None |} ] |})
    "name"
  = None.
Proof.
  apply (proj2 (proj1 (proj2 (proj2 (param_comment_first_substring_match "name"))) _)).
  intros tag [<-|[]] [_ (pre & post & H)].
  assert (Hi : JsString.includes "userId - User ID to fetch" "name" = true)
    by (apply includes_spec; exists pre, post; exact H).
  vm_compute in Hi. discriminate.
Defined.

(** ** Trimming *)

Lemma trimStart_spec (s : string) :
  exists l, s = l ++ JsString.trimStart s /\
    JsString.all JsString.isWhiteSpace l = true /\
    (JsString.trimStart s = "" \/
     exists c r, JsString.trimStart s = String c r /\ JsString.isWhiteSpace c = false).
Proof.
  induction s as [|c s (l & Hl & Hw & Hs)]; cbn [JsString.trimStart].
  - exists "". auto.
  - destruct (JsString.isWhiteSpace c) eqn:E.
    + exists (String c l). cbn [JsString.all]. rewrite E, Hw. simpl.
      split; [now rewrite <- Hl | auto].
    + exists "". repeat split. right. eauto.
Qed.

Lemma trimEnd_spec (s : string) :
  exists r, s = JsString.trimEnd s ++ r /\
    JsString.all JsString.isWhiteSpace r = true /\
    (JsString.trimEnd s = "" \/
     exists t c, JsString.trimEnd s = t ++ String c "" /\
                 JsString.isWhiteSpace c = false).
Proof.
  induction s as [|c s (r & Hr & Hw & Hs)]; cbn [JsString.trimEnd].
  - exists "". auto.
  - destruct (JsString.trimEnd s) as [|d t] eqn:Et.
    + destruct (JsString.isWhiteSpace c) eqn:E.
      * exists (String c r). simpl in Hr. subst s. cbn [JsString.all].
        rewrite E, Hw. auto.
      * exists r. simpl in Hr. subst s. repeat split; auto.
        right. exists "", c. auto.
    + exists r. split; [cbn [append] in *; now f_equal|]. split; [exact Hw|].
      right. destruct Hs as [Hs | (t' & c' & Ht' & Hc')]; [discriminate|].
      exists (String c t'), c'. simpl. now rewrite <- Ht'.
Qed.

Lemma trimEnd_head (c : ascii) (s : string) :
  JsString.isWhiteSpace c = false ->
  exists r, JsString.trimEnd (String c s) = String c r.
Proof.
  intros Hc. cbn [JsString.trimEnd].
  destruct (JsString.trimEnd s); [rewrite Hc|]; eauto.
Qed.

Lemma trim_spec (s : string) :
  exists l r, s = l ++ JsString.trim s ++ r /\
    JsString.all JsString.isWhiteSpace l = true /\
    JsString.all JsString.isWhiteSpace r = true /\
    isTrimmed (JsString.trim s).
Proof.
  unfold JsString.trim, isTrimmed.
  destruct (trimStart_spec s) as (l & Hl & Hlw & Hstart).
  destruct (trimEnd_spec (JsString.trimStart s)) as (r & Hr & Hrw & Hend).
  exists l, r. split; [now rewrite <- Hr|]. split; [exact Hlw|]. split; [exact Hrw|].
  destruct Hend as [He | Hend]; [now left | right].
  split; [|exact Hend].
  destruct Hstart as [Hs | (c & t & Hs & Hc)].
  - rewrite Hs in *. destruct Hend as (t & c & H & _). simpl in H.
    destruct t; discriminate.
  - rewrite Hs. destruct (trimEnd_head c t Hc) as [r' Hr']. rewrite Hr'. eauto.
Qed.

Lemma commentOrEmpty_text (text : string) :
  commentOrEmpty (Some (CommentText text)) = CommentText text.
Proof.
  unfold commentOrEmpty, JsString.truthy.
  destruct (String.eqb_spec text ""); simpl; congruence.
Qed.

(** What a tag record holds of a tag with a plain comment or none. *)
Lemma extractTag_spec (tag : JSDocTagNode) :
  hasPlainComment tag -> tagCaptures tag (extractTag tag).
Proof.
  intros Hplain. unfold tagCaptures, extractTag. simpl.
  split; [reflexivity|]. split; [|split].
  - destruct (tag_getComment tag) as [[text|nodes]|] eqn:E.
    + exists text. rewrite commentOrEmpty_text.
      split; [reflexivity|]. split; [now intros comment [= ->] | discriminate].
    + now destruct (Hplain nodes).
    + exists "". split; [reflexivity|]. split; [discriminate | reflexivity].
  - intros text H. now rewrite H.
  - intros H. destruct (tag_getTypeExpression tag) as [[text|]|]; simpl; auto.
    exfalso. eapply H. reflexivity.
Qed.

(** What it holds of a tag whose comment is an array of nodes. *)
Lemma extractTag_nodes (tag : JSDocTagNode) (nodes : list JSDocCommentNode) :
  tag_getComment tag = Some (CommentNodes nodes) ->
  tag_text (extractTag tag) = CommentNodes nodes /\
  ~ tagCaptures tag (extractTag tag).
Proof.
  intros H. unfold tagCaptures, extractTag. simpl. rewrite H. simpl.
  split; [reflexivity|]. intros (_ & (text & Ht & _) & _). discriminate.
Qed.

(** C8. [extractJSDoc] returns the absent marker, never an empty record,
    exactly when the node has no JSDoc accessor or no JSDoc block; otherwise
    it reads the first block only: the description with the surrounding
    white space removed, and one record per tag. The record of a tag with
    a plain comment or none has the tag name, the comment text or the empty
    string, and the type text when there is one; the record of a tag whose
    comment holds an inline tag has the parser's array of nodes in the
    place of the comment text. *)
Theorem jsdoc_absent_or_first_block (decl : NodeBase) :
  (extractJSDoc decl = None <-> getJsDocs decl = None \/ getJsDocs decl = Some []) /\
  (forall doc rest, getJsDocs decl = Some (doc :: rest) ->
     exists record,
       extractJSDoc decl = Some record /\
       jsdoc_description record = JsString.trim (doc_getDescription doc) /\
       (exists l r,
          doc_getDescription doc = l ++ jsdoc_description record ++ r /\
          JsString.all JsString.isWhiteSpace l = true /\
          JsString.all JsString.isWhiteSpace r = true /\
          isTrimmed (jsdoc_description record)) /\
       Forall2 (fun tag r =>
                  (hasPlainComment tag -> tagCaptures tag r) /\
                  (forall nodes,
                     tag_getComment tag = Some (CommentNodes nodes) ->
                     tag_text r = CommentNodes nodes /\ ~ tagCaptures tag r))
               (doc_getTags doc) (jsdoc_tags record)).
Proof.
  unfold extractJSDoc. split.
  - destruct (getJsDocs decl) as [[|doc rest]|]; split; auto; try discriminate.
    intros [H|H]; discriminate.
  - intros doc rest ->. eexists. split; [reflexivity|]. simpl.
    split; [reflexivity|]. split; [apply trim_spec|].
    induction (doc_getTags doc) as [|tag tags IH]; constructor; auto.
    split; [apply extractTag_spec | apply extractTag_nodes].
Qed.

Lemma jsdoc_absent_or_first_block_witness :
  exists record,
    extractJSDoc (node_base findUserNode) = Some record /\
    jsdoc_description record = "Looks a user up" /\
    map tag_text (jsdoc_tags record)
    = [ CommentText "id - the key";
        CommentNodes [ {| commentnode_getText := "the " |};
                       {| commentnode_getText := "{@link User}" |};
                       {| commentnode_getText := " found" |} ] ].
Proof.
  destruct (proj2 (jsdoc_absent_or_first_block (node_base findUserNode))
              findUserDoc [] eq_refl) as (record & Hr & Hd & _ & Ht).
  exists record. split; [exact Hr|]. split; [exact Hd|].
  inversion Ht as [|idTag idRecord tags records [Hid _] Htail Etags Erecords].
  inversion Htail as [|linkTag linkRecord tags' records' [_ Hlink] Hnil Etags' Erecords'].
  inversion Hnil. subst. simpl.
  destruct (Hid ltac:(intros nodes; discriminate))
    as (_ & (text & -> & Htext & _) & _).
  rewrite (Htext _ eq_refl).
  now rewrite (proj1 (Hlink _ eq_refl)).
Defined.

(* ================================================================== *)
(** * Type parameters *)
(* ================================================================== *)

Lemma split_nonempty (sep : ascii) (s : string) : JsString.split sep s <> [].
Proof.
  destruct s as [|c s]; cbn [JsString.split]; [discriminate|].
  destruct (Ascii.eqb c sep); [discriminate|].
  destruct (JsString.split sep s); discriminate.
Qed.

(** Joining the pieces with the separator gives the text back. *)
Lemma split_join (sep : ascii) (s : string) :
  JsString.join (String sep "") (JsString.split sep s) = s.
Proof.
  unfold JsString.join. induction s as [|c s IH]; cbn [JsString.split].
  - reflexivity.
  - pose proof (split_nonempty sep s) as Hne.
    destruct (JsString.split sep s) as [|h t] eqn:E; [contradiction|].
    destruct (Ascii.eqb_spec c sep) as [->|Hc].
    + change (String.concat (String sep "") ("" :: h :: t))
        with ("" ++ String sep "" ++ String.concat (String sep "") (h :: t)).
      rewrite IH. reflexivity.
    + destruct t as [|h' t'].
      * simpl in *. now rewrite IH.
      * change (String.concat (String sep "") (String c h :: h' :: t'))
          with (String c (String.concat (String sep "") (h :: h' :: t'))).
        now rewrite IH.
Qed.

(** No piece contains the separator. *)
Lemma split_pieces (sep : ascii) (s : string) :
  Forall (fun piece => ~ occursIn (String sep "") piece) (JsString.split sep s).
Proof.
  induction s as [|c s IH]; cbn [JsString.split].
  - constructor; [|constructor]. intros ([|? ?] & ? & H); discriminate.
  - destruct (Ascii.eqb_spec c sep) as [->|Hc].
    + constructor; [|exact IH]. intros ([|? ?] & ? & H); discriminate.
    + pose proof (split_nonempty sep s) as Hne.
      destruct (JsString.split sep s) as [|h t]; [contradiction|].
      inversion IH as [|? ? Hh Ht]; subst. constructor; [|exact Ht].
      intros ([|x pre] & post & H).
      * injection H as -> _. contradiction.
      * injection H as _ ->. apply Hh. now exists pre, post.
Qed.

Lemma dotsThenClose_spec (s : string) : forall body,
  dotsThenClose s = Some body <->
  s = body ++ ">" /\
  JsString.all (fun c => negb (JsString.isLineTerminator c)) body = true.
Proof.
  induction s as [|c s IH]; intros body; cbn [dotsThenClose].
  - split; [discriminate | intros [H _]; destruct body; discriminate].
  - destruct s as [|d s].
    + destruct (Ascii.eqb_spec c ">") as [->|Hc].
      * split.
        -- intros [= <-]. auto.
        -- intros [H _]. destruct body as [|x [|y body]]; try discriminate; auto.
      * split; [discriminate|]. intros [H _].
        destruct body as [|x [|y body]]; try discriminate.
        injection H as ->. contradiction.
    + destruct (JsString.isLineTerminator c) eqn:Ec.
      * split; [discriminate|]. intros [H Hall].
        destruct body as [|x body]; [discriminate|].
        injection H as -> _. cbn [JsString.all] in Hall. rewrite Ec in Hall.
        discriminate.
      * destruct (dotsThenClose (String d s)) as [b|] eqn:Eb; simpl.
        -- destruct (proj1 (IH b) eq_refl) as [Hs Hall]. split.
           ++ intros [= <-]. cbn [JsString.all]. rewrite Ec, Hall. simpl.
              now rewrite Hs.
           ++ intros [H Hall']. destruct body as [|x body]; [discriminate|].
              injection H as -> H. cbn [JsString.all] in Hall'.
              apply andb_true_iff in Hall'. destruct Hall' as [_ Hall'].
              assert (Some b = Some body) by (apply IH; auto).
              congruence.
        -- split; [discriminate|]. intros [H Hall'].
           destruct body as [|x body]; [discriminate|].
           injection H as -> H. cbn [JsString.all] in Hall'.
           apply andb_true_iff in Hall'. destruct Hall' as [_ Hall'].
           assert (None = Some body) by (apply IH; auto). discriminate.
Qed.

Lemma not_occurs_cons (c x : ascii) (s : string) :
  ~ occursIn (String c "") (String x s) ->
  x <> c /\ ~ occursIn (String c "") s.
Proof.
  intros H. split.
  - intros ->. apply H. now exists "", s.
  - intros (pre & post & ->). apply H. now exists (String x pre), post.
Qed.

Lemma matchTypeArguments_found (pre body : string) :
  ~ occursIn "<" pre -> body <> "" ->
  JsString.all (fun c => negb (JsString.isLineTerminator c)) body = true ->
  matchTypeArguments (pre ++ "<" ++ body ++ ">") = Some body.
Proof.
  intros Hpre Hbody Hall. induction pre as [|x pre IH]; cbn [append matchTypeArguments].
  - rewrite Ascii.eqb_refl.
    assert (E : dotsThenClose (body ++ ">") = Some body)
      by (apply dotsThenClose_spec; auto).
    cbn [append]. rewrite E. destruct body; [contradiction | reflexivity].
  - apply not_occurs_cons in Hpre. destruct Hpre as [Hx Hpre].
    destruct (Ascii.eqb_spec x "<"); [contradiction|]. now apply IH.
Qed.

Lemma matchTypeArguments_closed (s : string) : forall group,
  matchTypeArguments s = Some group -> exists t, s = t ++ ">".
Proof.
  induction s as [|c s IH]; intros group; cbn [matchTypeArguments]; [discriminate|].
  assert (Hrec : matchTypeArguments s = Some group -> exists t, String c s = t ++ ">").
  { intros H. destruct (IH _ H) as [t ->]. now exists (String c t). }
  destruct (Ascii.eqb c "<"); [|exact Hrec].
  destruct (dotsThenClose s) as [[|b body]|] eqn:E; try exact Hrec.
  intros _. apply dotsThenClose_spec in E. destruct E as [-> _].
  now exists (String c (String b body)).
Qed.

(** The pattern is anchored: a text that does not end with [>] has no
    type parameters. *)
Lemma type_parameters_need_final_close (raw : string) :
  ~ (exists t, raw = t ++ ">") -> extractTypeParameters raw = [].
Proof.
  intros H. unfold extractTypeParameters.
  destruct (JsString.includes raw "<"); [|reflexivity]. simpl.
  destruct (matchTypeArguments raw) as [group|] eqn:E; [|reflexivity].
  apply matchTypeArguments_closed in E. contradiction.
Qed.

(** C6, as stated, fails: a type text that goes on after its last [>] has
    no type parameters, and commas nested in angle brackets split too. *)
Lemma type_parameters_not_as_worded :
  type_typeParameters (extractTypeInfo "Array<number>[]")
    <> typeParametersSpec "Array<number>[]" /\
  type_typeParameters (extractTypeInfo "Map<string, Map<string, number>>")
    <> typeParametersSpec "Map<string, Map<string, number>>".
Proof. split; vm_compute; discriminate. Qed.

(** C6, amended. [isGeneric] holds exactly when the text contains [<], and
    there are no type parameters when it contains none. When the text ends
    with [>] and what stands between its first [<] and that [>] is not
    empty and free of line terminators, the type parameters are the pieces
    of that text between its commas, nested or not, each trimmed;
    [Map<string, Array<number>>] yields [string] and [Array<number>]. *)
Theorem type_info_generic_and_parameters :
  (forall raw, type_isGeneric (extractTypeInfo raw) = true <-> occursIn "<" raw) /\
  (forall raw, type_raw (extractTypeInfo raw) = raw) /\
  (forall raw, ~ occursIn "<" raw -> type_typeParameters (extractTypeInfo raw) = []) /\
  (forall pre body,
     ~ occursIn "<" pre -> body <> "" ->
     JsString.all (fun c => negb (JsString.isLineTerminator c)) body = true ->
     type_typeParameters (extractTypeInfo (pre ++ "<" ++ body ++ ">"))
     = map JsString.trim (JsString.split "," body)) /\
  (forall body,
     JsString.join "," (JsString.split "," body) = body /\
     Forall (fun piece => ~ occursIn "," piece) (JsString.split "," body)) /\
  type_typeParameters (extractTypeInfo "Map<string, Array<number>>")
  = ["string"; "Array<number>"].
Proof.
  split; [|split; [|split; [|split; [|split]]]].
  - intros raw. apply includes_spec.
  - reflexivity.
  - intros raw H. simpl. unfold extractTypeParameters.
    destruct (JsString.includes raw "<") eqn:E; [|reflexivity].
    apply includes_spec in E. contradiction.
  - intros pre body Hpre Hbody Hall.
    unfold extractTypeInfo, type_typeParameters, extractTypeParameters.
    assert (E : JsString.includes (pre ++ "<" ++ body ++ ">") "<" = true)
      by (apply includes_spec; now exists pre, (body ++ ">")).
    rewrite E. cbn [negb]. now rewrite matchTypeArguments_found.
  - intros body. split; [apply split_join | apply split_pieces].
  - reflexivity.
Qed.

Lemma type_info_generic_and_parameters_witness :
  type_typeParameters (extractTypeInfo "Promise<User | undefined>")
  = ["User | undefined"].
Proof.
  apply (proj1 (proj2 (proj2 (proj2 type_info_generic_and_parameters)))
           "Promise" "User | undefined").
  - intros (pre & post & H).
    assert (Hi : JsString.includes "Promise" "<" = true)
      by (apply includes_spec; exists pre, post; exact H).
    vm_compute in Hi. discriminate.
  - discriminate.
  - reflexivity.
Defined.

(* ================================================================== *)
(** * Module names *)
(* ================================================================== *)

Lemma string_length_append (a b : string) :
  String.length (a ++ b) = (String.length a + String.length b)%nat.
Proof. induction a as [|x a IH]; simpl; [reflexivity | now rewrite IH]. Qed.

Lemma longer_not_extension (c : ascii) (stem ext : string) :
  In ext [".ts"; ".tsx"; ".js"; ".jsx"] ->
  isSourceExtension (String c (stem ++ ext)) = false.
Proof.
  intros Hext. apply not_true_is_false. intros E. unfold isSourceExtension in E.
  assert (Hlen : (3 <= String.length ext)%nat)
    by (simpl in Hext; destruct Hext as [<-|[<-|[<-|[<-|[]]]]]; simpl; lia).
  assert (Hcases : String c (stem ++ ext) = ".ts" \/ String c (stem ++ ext) = ".tsx"
                   \/ String c (stem ++ ext) = ".js" \/ String c (stem ++ ext) = ".jsx").
  { repeat (apply orb_true_iff in E; destruct E as [E|E]);
      apply String.eqb_eq in E; auto. }
  destruct stem as [|a stem].
  - simpl in Hext, Hcases.
    destruct Hext as [<-|[<-|[<-|[<-|[]]]]];
      destruct Hcases as [H|[H|[H|H]]]; discriminate H.
  - assert (Hl : (5 <= String.length (String c (String a stem ++ ext)))%nat)
      by (cbn [append String.length]; rewrite string_length_append; lia).
    destruct Hcases as [H|[H|[H|H]]]; rewrite H in Hl; simpl in Hl; lia.
Qed.

(** The extension is removed when there is one, and only then. *)
Lemma replaceExtension_strips (s stem : string) :
  hasExtension s stem -> replaceExtension s = stem.
Proof.
  intros (ext & Hext & ->). induction stem as [|c stem IH].
  - simpl in Hext. destruct Hext as [<-|[<-|[<-|[<-|[]]]]]; reflexivity.
  - cbn [append replaceExtension].
    now rewrite (longer_not_extension c stem ext Hext), IH.
Qed.

Lemma replaceExtension_keeps (s : string) :
  (forall stem, ~ hasExtension s stem) -> replaceExtension s = s.
Proof.
  induction s as [|c s IH]; intros H; cbn [replaceExtension].
  - reflexivity.
  - destruct (isSourceExtension (String c s)) eqn:E.
    + exfalso. apply (H ""). unfold isSourceExtension in E.
      exists (String c s). split; [|reflexivity].
      repeat (apply orb_true_iff in E; destruct E as [E|E]);
        apply String.eqb_eq in E; rewrite E; simpl; auto.
    + rewrite IH; [reflexivity|].
      intros stem (ext & Hext & ->). apply (H (String c stem)). now exists ext.
Qed.

Lemma stripSuffix_spec (suffix s : string) : forall stem,
  stripSuffix suffix s = Some stem <-> s = stem ++ suffix.
Proof.
  induction s as [|c s IH]; intros stem; cbn [stripSuffix].
  - destruct (String.eqb_spec "" suffix) as [<-|Hs].
    + split; [now intros [= <-]|]. intros H. destruct stem; [reflexivity|discriminate].
    + split; [discriminate|]. intros H. destruct stem; [|discriminate].
      simpl in H. congruence.
  - destruct (String.eqb_spec (String c s) suffix) as [<-|Hs].
    + split; [now intros [= <-]|]. intros H. f_equal.
      apply (f_equal String.length) in H. rewrite string_length_append in H.
      destruct stem; [reflexivity | simpl in H; lia].
    + destruct (stripSuffix suffix s) as [r|]; simpl.
      * pose proof (proj1 (IH r) eq_refl) as Er. split.
        -- intros [= <-]. simpl. now rewrite <- Er.
        -- intros H. destruct stem as [|x stem]; [simpl in H; congruence|].
           injection H as -> H. pose proof (proj2 (IH stem) H). congruence.
      * split; [discriminate|]. intros H.
        destruct stem as [|x stem]; [simpl in H; congruence|].
        injection H as -> H. pose proof (proj2 (IH stem) H). discriminate.
Qed.

(** The pattern of the code strips what the specification calls the file
    extension. *)
Lemma withoutExtension_replaceExtension (s : string) :
  withoutExtension s = replaceExtension s.
Proof.
  unfold withoutExtension.
  destruct (stripSuffix ".ts" s) as [stem|] eqn:E1.
  { apply stripSuffix_spec in E1. symmetry. apply replaceExtension_strips.
    exists ".ts". split; [simpl; tauto | exact E1]. }
  destruct (stripSuffix ".tsx" s) as [stem|] eqn:E2.
  { apply stripSuffix_spec in E2. symmetry. apply replaceExtension_strips.
    exists ".tsx". split; [simpl; tauto | exact E2]. }
  destruct (stripSuffix ".js" s) as [stem|] eqn:E3.
  { apply stripSuffix_spec in E3. symmetry. apply replaceExtension_strips.
    exists ".js". split; [simpl; tauto | exact E3]. }
  destruct (stripSuffix ".jsx" s) as [stem|] eqn:E4.
  { apply stripSuffix_spec in E4. symmetry. apply replaceExtension_strips.
    exists ".jsx". split; [simpl; tauto | exact E4]. }
  symmetry. apply replaceExtension_keeps.
  intros stem (ext & Hext & Hs). apply stripSuffix_spec in Hs.
  simpl in Hext. destruct Hext as [<-|[<-|[<-|[<-|[]]]]]; congruence.
Qed.

Lemma lastIndexOfFrom_spec (l : list string) : forall i found,
  lastIndexOfFrom "src" l i found =
  match segmentsAfterLastSrc l with
  | Some after => i + (Z.of_nat (List.length l) - Z.of_nat (List.length after) - 1)
  | None => found
  end.
Proof.
  induction l as [|y l IH]; intros i found; cbn [lastIndexOfFrom segmentsAfterLastSrc].
  - reflexivity.
  - rewrite IH. destruct (segmentsAfterLastSrc l) as [after|].
    + cbn [List.length]. lia.
    + destruct (y =? "src")%string; [cbn [List.length]; lia | reflexivity].
Qed.

Lemma segmentsAfterLastSrc_suffix (l : list string) : forall after,
  segmentsAfterLastSrc l = Some after ->
  exists before, l = (before ++ "src" :: after)%list.
Proof.
  induction l as [|y l IH]; intros after; cbn [segmentsAfterLastSrc]; [discriminate|].
  destruct (segmentsAfterLastSrc l) as [a|].
  - intros [= <-]. destruct (IH a eq_refl) as [before ->]. now exists (y :: before).
  - destruct (String.eqb_spec y "src") as [->|_]; [|discriminate].
    intros [= <-]. now exists [].
Qed.

Lemma skipn_after (before after : list string) :
  skipn (Z.to_nat
           (0 + (Z.of_nat (List.length (before ++ "src" :: after))
                 - Z.of_nat (List.length after) - 1) + 1))
        (before ++ "src" :: after)
  = after.
Proof.
  rewrite length_app. cbn [List.length].
  replace (Z.to_nat _) with (List.length before + 1)%nat by lia.
  rewrite skipn_app, skipn_all2 by lia.
  replace (List.length before + 1 - List.length before)%nat with 1%nat by lia.
  reflexivity.
Qed.

Lemma arrayGet_last {A : Type} (init : list A) (final : A) :
  arrayGet (init ++ [final]) (Z.of_nat (List.length (init ++ [final])) - 1)
  = Some final.
Proof.
  unfold arrayGet. rewrite length_app. cbn [List.length].
  destruct (Z.ltb_spec (Z.of_nat (List.length init + 1) - 1) 0); [lia|].
  replace (Z.to_nat _) with (List.length init) by lia.
  now rewrite nth_error_app2, Nat.sub_diag by lia.
Qed.

Lemma arraySet_last {A : Type} (init : list A) (final v : A) :
  arraySet (init ++ [final]) (List.length init) v = (init ++ [v])%list.
Proof.
  induction init as [|a init IH]; simpl; [reflexivity | now rewrite IH].
Qed.

Lemma stripFinalSegment_last (init : list string) (final : string) :
  stripFinalSegment (init ++ [final])
  = (init ++ (if (replaceExtension final =? "index")%string then []
              else [replaceExtension final]))%list.
Proof.
  induction init as [|a init IH].
  - simpl. now rewrite withoutExtension_replaceExtension.
  - change ((a :: init) ++ [final])%list with (a :: (init ++ [final]))%list.
    cbn [stripFinalSegment]. rewrite IH.
    destruct (init ++ [final])%list eqn:E; [destruct init; discriminate|].
    reflexivity.
Qed.

Lemma nil_or_last {A : Type} (l : list A) :
  l = [] \/ exists init final, l = (init ++ [final])%list.
Proof.
  destruct l as [|a l]; [now left | right].
  destruct (@exists_last _ (a :: l)) as (init & final & H); [discriminate|].
  now exists init, final.
Qed.

(** The code after the slice, on any slice. *)
Lemma afterSrc_result (afterSrc : list string) :
  match arrayGet afterSrc (Z.of_nat (List.length afterSrc) - 1) with
  | None => Throw (TypeError "Cannot read properties of undefined (reading 'replace')")
  | Some last =>
      Normal
        (JsString.join "."
           (filter JsString.truthy
              match
                arrayGet
                  (arraySet afterSrc (Z.to_nat (Z.of_nat (List.length afterSrc) - 1))
                     (replaceExtension last))
                  (Z.of_nat (List.length afterSrc) - 1)
              with
              | Some final =>
                  if (final =? "index")%string
                  then removelast
                         (arraySet afterSrc
                            (Z.to_nat (Z.of_nat (List.length afterSrc) - 1))
                            (replaceExtension last))
                  else arraySet afterSrc
                         (Z.to_nat (Z.of_nat (List.length afterSrc) - 1))
                         (replaceExtension last)
              | None =>
                  arraySet afterSrc (Z.to_nat (Z.of_nat (List.length afterSrc) - 1))
                    (replaceExtension last)
              end))
  end
  = match afterSrc with
    | [] => Throw (TypeError "Cannot read properties of undefined (reading 'replace')")
    | _ :: _ =>
        Normal (JsString.join "."
                  (filter (fun s => negb (s =? "")%string) (stripFinalSegment afterSrc)))
    end.
Proof.
  destruct (nil_or_last afterSrc) as [-> | (init & final & ->)]; [reflexivity|].
  rewrite arrayGet_last.
  replace (Z.to_nat (Z.of_nat (List.length (init ++ [final])) - 1))
    with (List.length init) by (rewrite length_app; cbn [List.length]; lia).
  rewrite arraySet_last.
  replace (Z.of_nat (List.length (init ++ [final])))
    with (Z.of_nat (List.length (init ++ [replaceExtension final])))
    by (now rewrite !length_app).
  rewrite arrayGet_last, stripFinalSegment_last.
  destruct (init ++ [final])%list eqn:E; [destruct init; discriminate|].
  destruct (replaceExtension final =? "index")%string.
  - now rewrite removelast_last, app_nil_r.
  - reflexivity.
Qed.

Lemma last_after_src (before after : list string) :
  last (before ++ "src" :: after) "" = "src" <-> after = [] \/ last after "" = "src".
Proof.
  destruct (nil_or_last after) as [-> | (init & final & ->)].
  - rewrite last_last. tauto.
  - change (before ++ "src" :: init ++ [final])%list
      with (before ++ ("src" :: init) ++ [final])%list.
    rewrite app_assoc, !last_last. split; [auto|].
    intros [H|H]; [destruct init; discriminate | exact H].
Qed.

Lemma segmentsAfterLastSrc_none (l : list string) :
  segmentsAfterLastSrc l = None -> ~ In "src" l.
Proof.
  induction l as [|y l IH]; cbn [segmentsAfterLastSrc]; [auto|].
  destruct (segmentsAfterLastSrc l); [discriminate|].
  destruct (String.eqb_spec y "src"); [discriminate|].
  intros _ [H|H]; [congruence | now apply IH].
Qed.

Lemma segmentsAfterLastSrc_last (l : list string) : forall after,
  segmentsAfterLastSrc l = Some after -> ~ In "src" after.
Proof.
  induction l as [|y l IH]; intros after; cbn [segmentsAfterLastSrc]; [discriminate|].
  destruct (segmentsAfterLastSrc l) as [a|] eqn:E.
  - intros [= <-]. now apply IH.
  - destruct (y =? "src")%string; [|discriminate].
    intros [= <-]. now apply segmentsAfterLastSrc_none.
Qed.

Lemma last_In {A : Type} (l : list A) (d : A) : l <> [] -> In (last l d) l.
Proof.
  intros H. destruct (nil_or_last l) as [-> | (init & final & ->)]; [contradiction|].
  rewrite last_last. apply in_or_app. right. now left.
Qed.

(** The code computes the module name of the specification whenever the
    final path segment is not [src], and throws when it is. *)
Lemma deriveModuleName_refines (filePath : string) :
  (last (JsString.split "/" filePath) "" <> "src" ->
   deriveModuleName filePath = Normal (moduleNameSpec filePath)) /\
  (last (JsString.split "/" filePath) "" = "src" ->
   deriveModuleName filePath
   = Throw (TypeError "Cannot read properties of undefined (reading 'replace')")).
Proof.
  unfold deriveModuleName, moduleNameSpec, lastIndexOf.
  pose proof (split_nonempty "/" filePath) as Hne.
  set (parts := JsString.split "/" filePath) in *. clearbody parts.
  rewrite lastIndexOfFrom_spec.
  destruct (segmentsAfterLastSrc parts) as [after|] eqn:Eseg.
  - destruct (segmentsAfterLastSrc_suffix _ _ Eseg) as [before Hparts].
    subst parts.
    replace (negb (0 + (Z.of_nat (List.length (before ++ "src" :: after))
                        - Z.of_nat (List.length after) - 1) =? -1)) with true
      by (symmetry; apply negb_true_iff, Z.eqb_neq; rewrite length_app;
          cbn [List.length]; lia).
    rewrite skipn_after.
    pose proof (afterSrc_result after) as Hafter. cbv zeta in Hafter.
    rewrite Hafter. clear Hafter.
    rewrite last_after_src.
    pose proof (segmentsAfterLastSrc_last _ _ Eseg) as Hno.
    destruct after as [|a after']; split; try tauto.
    intros [H|H]; [discriminate|]. exfalso. apply Hno. rewrite <- H.
    apply last_In. discriminate.
  - replace (negb (-1 =? -1)) with false by reflexivity.
    pose proof (segmentsAfterLastSrc_none _ Eseg) as Hno.
    destruct (nil_or_last parts) as [-> | (init & final & ->)]; [contradiction|].
    rewrite arrayGet_last, last_last, withoutExtension_replaceExtension.
    split; [reflexivity|].
    intros ->. exfalso. apply Hno, in_or_app. right. now left.
Qed.

(** C4. The module name is that of the specification for every path whose
    final segment is not [src], and the three examples hold. On a path
    whose final segment is [src], where the words of the specification give
    the empty module name, the code throws instead of returning it. *)
Theorem module_name_derivation :
  (forall filePath,
     last (JsString.split "/" filePath) "" <> "src" ->
     deriveModuleName filePath = Normal (moduleNameSpec filePath)) /\
  (forall filePath,
     last (JsString.split "/" filePath) "" = "src" ->
     deriveModuleName filePath
     = Throw (TypeError "Cannot read properties of undefined (reading 'replace')")) /\
  deriveModuleName "/home/user/project/src"
  = Throw (TypeError "Cannot read properties of undefined (reading 'replace')") /\
  moduleNameSpec "/home/user/project/src" = "" /\
  deriveModuleName "/home/user/project/src/db/client.ts" = Normal "db.client" /\
  deriveModuleName "/home/user/project/src/index.ts" = Normal "" /\
  deriveModuleName "/home/user/auth.ts" = Normal "auth".
Proof.
  split; [intros filePath; apply deriveModuleName_refines|].
  split; [intros filePath; apply deriveModuleName_refines|].
  repeat split.
Qed.

Lemma module_name_derivation_witness :
  deriveModuleName "/home/user/project/src/components/Button.tsx"
  = Normal "components.Button".
Proof.
  apply (proj1 module_name_derivation "/home/user/project/src/components/Button.tsx").
  vm_compute. discriminate.
Defined.

(* ================================================================== *)
(** * The extractor returns on the parser's nodes *)
(* ================================================================== *)

Section Returns.
Variable localeCompare : string -> string -> Z.
Variable arraySort : ArraySort.EngineSort.

Lemma mapKind_function (kindName : string) :
  mapKind kindName = "function" ->
  kindName = "FunctionDeclaration" \/ kindName = "ArrowFunction"
  \/ kindName = "MethodDeclaration".
Proof.
  unfold mapKind, kindMapping.
  repeat match goal with
         | |- context [(kindName =? ?k)%string] =>
             destruct (String.eqb_spec kindName k); auto
         end; discriminate.
Qed.

Lemma extractSymbol_returns (decl : Node) (variant : string) :
  conforms decl = true ->
  exists o, extractSymbol localeCompare arraySort decl variant = Normal o.
Proof.
  unfold conforms, extractSymbol. intros H.
  destruct ((variant =? "public")%string && checkPrivacy decl); [eauto|].
  unfold buildSignature, buildFunctionSignature, buildClassSignature,
    buildInterfaceSignature, buildTypeAliasSignature, buildVariableSignature,
    extractFunction, extractClass, extractInterface, extractTypeAlias, extractConst,
    extractEnum, callGetName, callGetType, callGetInitializer, asFunctionLike,
    asClassLike, asInterfaceLike, asEnumLike.
  destruct (node_shape decl) eqn:Hshape.
  - apply String.eqb_eq in H. rewrite H.
    destruct (mapKind_function _ H) as [-> | [-> | ->]]; simpl; eexists; reflexivity.
  - apply andb_true_iff in H. destruct H as [Hk Hn].
    apply String.eqb_eq in Hk. rewrite Hk.
    destruct (node_getName decl); [|discriminate]. simpl. eexists; reflexivity.
  - apply andb_true_iff in H. destruct H as [Hk Hn].
    apply String.eqb_eq in Hk. rewrite Hk.
    destruct (node_getName decl); [|discriminate]. simpl. eexists; reflexivity.
  - apply andb_true_iff in H. destruct H as [Hk Hn].
    apply String.eqb_eq in Hk. rewrite Hk.
    destruct (node_getName decl); [|discriminate]. simpl. eexists; reflexivity.
  - apply andb_true_iff in H. destruct H as [Hk Hn].
    apply String.eqb_eq in Hk. rewrite Hk.
    destruct (node_getName decl); [|discriminate]. simpl.
    destruct getInitializer as [initText|]; [|eexists; reflexivity].
    destruct (Z.of_nat (String.length initText) <? 50); simpl; eexists; reflexivity.
  - apply andb_true_iff in H. destruct H as [Hk Hn].
    apply String.eqb_eq in Hk. rewrite Hk.
    destruct (node_getName decl); [|discriminate]. simpl. eexists; reflexivity.
  - unfold mapKind. unfold kindMapping in *.
    repeat match goal with
           | H : context [(getKindName decl =? ?k)%string] |- _ =>
               destruct (getKindName decl =? k)%string; [discriminate H|]
           end.
    simpl. eexists; reflexivity.
Qed.

Lemma extractDeclarations_returns (declarations : list Node) (variant : string) :
  Forall (fun decl => conforms decl = true) declarations ->
  exists symbols,
    extractDeclarations localeCompare arraySort declarations variant = Normal symbols.
Proof.
  induction 1 as [|d ds Hd _ [symbols IH]]; simpl; [eauto|].
  destruct (extractSymbol_returns d variant Hd) as [o ->]. rewrite IH. simpl. eauto.
Qed.

Lemma extractEntries_returns (entries : list (string * list Node)) (variant : string) :
  Forall (fun entry => Forall (fun decl => conforms decl = true) (snd entry)) entries ->
  exists symbols,
    extractEntries localeCompare arraySort entries variant = Normal symbols.
Proof.
  induction 1 as [|[n ds] es Hd _ [symbols IH]]; simpl; [eauto|].
  destruct (extractDeclarations_returns ds variant Hd) as [here ->].
  rewrite IH. simpl. eauto.
Qed.

(** On nodes as the parser builds them, and a path that does not end in
    a segment [src], every run returns a result. *)
Lemma extractModule_returns (sourceFile : SourceFile) (filePath variant : string) :
  Forall (fun entry => Forall (fun decl => conforms decl = true) (snd entry))
    (getExportedDeclarations sourceFile) ->
  last (JsString.split "/" filePath) "" <> "src" ->
  exists r, extractModule localeCompare arraySort sourceFile filePath variant = Normal r.
Proof.
  intros Hnodes Hpath. unfold extractModule.
  destruct (extractEntries_returns _ variant Hnodes) as [symbols ->]. simpl.
  rewrite (proj1 (deriveModuleName_refines filePath) Hpath). simpl. eauto.
Qed.

End Returns.

(** The example inputs are nodes as the parser builds them. *)
Lemma examples_conform :
  forallb conforms
    [greetNode; userConfigNode; apiUrlNode; userNode; databaseClientNode;
     statusNode; connectionClassNode; underscoreClassNode] = true.
Proof. reflexivity. Qed.

(* ================================================================== *)
(** * More on sorting: sublists and keys *)
(* ================================================================== *)

Module ArraySortMore.
Import ArraySort ArraySortFacts.

Section Filter.
Context {A : Type}.
Variable cmp : A -> A -> Z.
Variable P : A -> bool.

Lemma ForallOrdPairs_filter (R : A -> A -> Prop) (l : list A) :
  ForallOrdPairs R l -> ForallOrdPairs R (filter P l).
Proof.
  induction 1 as [|a l Ha Hl IH]; simpl; [constructor|].
  destruct (P a); [|exact IH]. constructor; [|exact IH].
  rewrite Forall_forall in *. intros x Hx. apply Ha.
  apply filter_In in Hx. tauto.
Qed.

Lemma consistent_filter (l : list A) :
  consistent cmp l -> consistent cmp (filter P l).
Proof.
  intros [Hr Ht Hs]. split.
  - intros a Ha. apply Hr. apply filter_In in Ha. tauto.
  - intros a b c Ha Hb Hc. apply Ht; eapply proj1, filter_In; eassumption.
  - now apply ForallOrdPairs_filter.
Qed.

Lemma Permutation_filter (l l' : list A) :
  Permutation l l' -> Permutation (filter P l) (filter P l').
Proof.
  induction 1 as [|x l l' _ IH|x y l|l l' l'' _ IH1 _ IH2]; simpl.
  - constructor.
  - destruct (P x); [now constructor | exact IH].
  - destruct (P x), (P y); try apply Permutation_refl. apply perm_swap.
  - eapply perm_trans; eassumption.
Qed.

Lemma StronglySorted_filter (R : A -> A -> Prop) (l : list A) :
  StronglySorted R l -> StronglySorted R (filter P l).
Proof.
  induction 1 as [|a l Hs IH Ha]; simpl; [constructor|].
  destruct (P a); [|exact IH]. constructor; [exact IH|].
  rewrite Forall_forall in *. intros x Hx. apply Ha.
  apply filter_In in Hx. tauto.
Qed.

Lemma filter_comm (Q : A -> bool) (l : list A) :
  filter P (filter Q l) = filter Q (filter P l).
Proof.
  induction l as [|a l IH]; simpl; [reflexivity|].
  destruct (Q a) eqn:Eq, (P a) eqn:Ep; simpl; rewrite ?Eq, ?Ep, IH; reflexivity.
Qed.

Lemma sorts_stably_filter (l l' : list A) :
  sorts_stably cmp l l' -> sorts_stably cmp (filter P l) (filter P l').
Proof.
  intros [Hp Hs Hst]. split.
  - now apply Permutation_filter.
  - now apply StronglySorted_filter.
  - intros z Hz. apply filter_In in Hz. destruct Hz as [Hz _].
    rewrite <- (filter_comm (tie cmp z) l'), (Hst z Hz). apply filter_comm.
Qed.

(** Sorting what a filter keeps is filtering what was sorted. *)
Lemma insertionSort_filter (l : list A) :
  consistent cmp l ->
  insertionSort cmp (filter P l) = filter P (insertionSort cmp l).
Proof.
  intros Hc. apply (sorts_stably_unique cmp (filter P l)).
  - now apply consistent_filter.
  - apply insertionSort_sorts_stably. now apply consistent_filter.
  - apply sorts_stably_filter. now apply insertionSort_sorts_stably.
Qed.

End Filter.

Section Keys.
Context {A K : Type}.
Variable key : A -> K.
Variable cmp : K -> K -> Z.

Lemma insert_map (x : A) (l : list A) :
  map key (insert (fun a b => cmp (key a) (key b)) x l)
  = insert cmp (key x) (map key l).
Proof.
  induction l as [|y ys IH]; simpl; [reflexivity|].
  destruct (cmp (key x) (key y) <=? 0); simpl; [reflexivity | now rewrite IH].
Qed.

(** A comparator that reads keys sorts the keys as it sorts the records. *)
Lemma insertionSort_map (l : list A) :
  map key (insertionSort (fun a b => cmp (key a) (key b)) l)
  = insertionSort cmp (map key l).
Proof.
  induction l as [|x l IH]; simpl; [reflexivity|].
  now rewrite insert_map, IH.
Qed.

End Keys.

Lemma StronglySorted_later {A : Type} (R : A -> A -> Prop) (l1 l2 : list A) (a : A) :
  StronglySorted R (l1 ++ a :: l2) -> Forall (R a) l2.
Proof.
  induction l1 as [|x l1 IH]; simpl; intros H; inversion H; subst; auto.
Qed.

End ArraySortMore.

(* ================================================================== *)
(** * What the orchestrator keeps *)
(* ================================================================== *)

Section Kept.
Variable localeCompare : string -> string -> Z.
Variable arraySort : ArraySort.EngineSort.

(** A returned record is the base record of its declaration, completed. *)
Lemma extractSymbol_base (decl : Node) (variant : string) (s : SymbolRecord) :
  extractSymbol localeCompare arraySort decl variant = Normal (Some s) ->
  isExcluded variant decl = false /\
  exists signature fields,
    buildSignature decl = Normal signature /\
    s = {| symbol_kind := mapKind (getKindName decl);
           symbol_name := getName decl;
           symbol_signature := signature;
           symbol_leadingComments := extractComments (node_base decl);
           symbol_jsDoc := extractJSDoc (node_base decl);
           symbol_isPrivate := checkPrivacy decl;
           symbol_fields := fields |}.
Proof.
  unfold extractSymbol, isExcluded.
  destruct ((variant =? "public")%string && checkPrivacy decl); [discriminate|].
  destruct (buildSignature decl) as [sig|e]; simpl; [|discriminate].
  destruct (if (_ =? "function")%string then _ else _) as [fields|e]; simpl;
    [|discriminate].
  intros [= <-]. split; [reflexivity|]. now exists sig, fields.
Qed.

Lemma extractSymbol_key (decl : Node) (variant : string) (s : SymbolRecord) :
  extractSymbol localeCompare arraySort decl variant = Normal (Some s) ->
  isExcluded variant decl = false /\ symbolKey s = nodeKey decl.
Proof.
  intros H. destruct (extractSymbol_base _ _ _ H) as (Hx & sig & fields & _ & ->).
  split; [exact Hx | reflexivity].
Qed.

Lemma extractSymbol_None (decl : Node) (variant : string) :
  extractSymbol localeCompare arraySort decl variant = Normal None ->
  isExcluded variant decl = true.
Proof.
  intros H. apply extractSymbol_gate in H. destruct H as [-> H].
  unfold isExcluded. now rewrite H.
Qed.

Lemma extractDeclarations_keys (declarations : list Node) (variant : string)
  (symbols : list SymbolRecord) :
  extractDeclarations localeCompare arraySort declarations variant = Normal symbols ->
  map symbolKey symbols
  = map nodeKey (filter (fun decl => negb (isExcluded variant decl)) declarations).
Proof.
  revert symbols. induction declarations as [|d ds IH]; simpl; intros symbols.
  - now intros [= <-].
  - destruct (extractSymbol _ _ d variant) as [o|e] eqn:Ed; simpl; [|discriminate].
    destruct (extractDeclarations _ _ ds variant) as [rest|e]; simpl; [|discriminate].
    intros [= <-]. destruct o as [s|].
    + destruct (extractSymbol_key _ _ _ Ed) as [-> Hk]. simpl.
      now rewrite Hk, (IH rest eq_refl).
    + rewrite (extractSymbol_None _ _ Ed). simpl. now apply IH.
Qed.

Lemma extractEntries_keys (entries : list (string * list Node)) (variant : string)
  (symbols : list SymbolRecord) :
  extractEntries localeCompare arraySort entries variant = Normal symbols ->
  map symbolKey symbols
  = map nodeKey (filter (fun decl => negb (isExcluded variant decl))
                   (List.concat (map snd entries))).
Proof.
  revert symbols. induction entries as [|[n ds] es IH]; simpl; intros symbols.
  - now intros [= <-].
  - destruct (extractDeclarations _ _ ds variant) as [here|e] eqn:Eh; simpl;
      [|discriminate].
    destruct (extractEntries _ _ es variant) as [more|e]; simpl; [|discriminate].
    intros [= <-]. rewrite filter_app, !map_app.
    now rewrite (extractDeclarations_keys _ _ _ Eh), (IH more eq_refl).
Qed.

End Kept.

Section KeptSorted.
Variable localeCompare : string -> string -> Z.
Hypothesis Hlocale : locale_consistent localeCompare.
Variable arraySort : ArraySort.EngineSort.
Hypothesis Hsort : ArraySort.sort_contract arraySort.

Lemma keyCompare_before (a b : RecordKey) :
  keyCompare localeCompare a b <= 0 <->
  kindPriority (fst (fst a)) < kindPriority (fst (fst b)) \/
  (kindPriority (fst (fst a)) = kindPriority (fst (fst b)) /\
   localeCompare (snd (fst a)) (snd (fst b)) <= 0).
Proof.
  unfold keyCompare.
  destruct (kindPriority (fst (fst a)) =? kindPriority (fst (fst b))) eqn:E; simpl.
  - apply Z.eqb_eq in E. lia.
  - apply Z.eqb_neq in E. lia.
Qed.

Lemma keyCompare_consistent (l : list RecordKey) :
  ArraySort.consistent (keyCompare localeCompare) l.
Proof.
  split.
  - intros a _. apply keyCompare_before. right. split; [reflexivity|].
    rewrite (locale_refl _ Hlocale). lia.
  - intros a b c _ _ _ Hab Hbc. apply keyCompare_before in Hab, Hbc.
    apply keyCompare_before.
    destruct Hab as [Hab|[Hab Hab']], Hbc as [Hbc|[Hbc Hbc']]; try lia.
    right. split; [lia|]. eapply locale_trans; eauto.
  - apply (ForallOrdPairs_of_Forall (fun _ => True)).
    + apply Forall_forall. trivial.
    + intros a b _ _. unfold keyCompare.
      rewrite (Z.eqb_sym (kindPriority (fst (fst b)))).
      destruct (kindPriority (fst (fst a)) =? kindPriority (fst (fst b))) eqn:E; simpl.
      * split; [apply (locale_sign _ Hlocale) | apply (locale_sign' _ Hlocale)].
      * apply Z.eqb_neq in E. lia.
Qed.

(** The keys of the exports are the sorted keys of the kept declarations. *)
Lemma exports_keys (sourceFile : SourceFile) (filePath variant : string)
  (r : ExtractionResult) :
  extractModule localeCompare arraySort sourceFile filePath variant = Normal r ->
  map symbolKey (result_exports r)
  = ArraySort.insertionSort (keyCompare localeCompare)
      (map nodeKey (keptNodes variant sourceFile)).
Proof.
  intros Hr.
  destruct (extractModule_inv _ Hlocale _ Hsort _ _ _ _ Hr) as (symbols & He & -> & _).
  unfold keptNodes, exportedNodes. rewrite <- (extractEntries_keys _ _ _ _ _ He).
  change (symbolCompare localeCompare)
    with (fun a b => keyCompare localeCompare (symbolKey a) (symbolKey b)).
  apply ArraySortMore.insertionSort_map.
Qed.

(** X1. Every declaration that passes the gate has exactly one record among
    the exports, with its mapped kind, its resolved name and its privacy
    flag, and [exportCount] is the number of those declarations. *)
Theorem exports_of_kept_declarations (sourceFile : SourceFile)
  (filePath variant : string) (r : ExtractionResult) :
  extractModule localeCompare arraySort sourceFile filePath variant = Normal r ->
  Permutation (map symbolKey (result_exports r))
              (map nodeKey (keptNodes variant sourceFile)) /\
  exportCount (result_metadata r)
  = Z.of_nat (List.length (keptNodes variant sourceFile)).
Proof.
  intros Hr. pose proof (exports_keys _ _ _ _ Hr) as Hk. split.
  - rewrite Hk. apply Permutation_sym, ArraySortFacts.insertionSort_perm.
  - destruct (extractModule_inv _ Hlocale _ Hsort _ _ _ _ Hr) as (_ & _ & _ & _ & ->).
    f_equal. rewrite <- (length_map symbolKey), Hk.
    rewrite <- (length_map nodeKey (keptNodes variant sourceFile)).
    apply Permutation_length, Permutation_sym, ArraySortFacts.insertionSort_perm.
Qed.

Lemma map_filter_key {A K : Type} (key : A -> K) (P : K -> bool) (l : list A) :
  map key (filter (fun a => P (key a)) l) = filter P (map key l).
Proof.
  induction l as [|a l IH]; simpl; [reflexivity|].
  destruct (P (key a)); simpl; now rewrite IH.
Qed.

Lemma kept_public_internal (nodes : list Node) :
  filter (fun decl => negb (isExcluded "public" decl)) nodes
  = filter (fun decl => negb (snd (nodeKey decl)))
      (filter (fun decl => negb (isExcluded "internal" decl)) nodes).
Proof.
  transitivity (filter (fun decl => negb (checkPrivacy decl)) nodes).
  - apply filter_ext. reflexivity.
  - induction nodes as [|d ds IH]; [reflexivity|].
    simpl. destruct (checkPrivacy d); simpl; now rewrite IH.
Qed.

(** X2. When both variants return, the public exports are the internal
    exports without the private records, in the same order: kinds, names
    and privacy flags agree record by record. *)
Theorem public_exports_are_internal_filtered (sourceFile : SourceFile)
  (filePath : string) (public internal : ExtractionResult) :
  extractModule localeCompare arraySort sourceFile filePath "public" = Normal public ->
  extractModule localeCompare arraySort sourceFile filePath "internal" = Normal internal ->
  map symbolKey (result_exports public)
  = map symbolKey (filter (fun s => negb (symbol_isPrivate s)) (result_exports internal)).
Proof.
  intros Hp Hi.
  rewrite (exports_keys _ _ _ _ Hp).
  rewrite (map_filter_key symbolKey (fun k => negb (snd k))).
  rewrite (exports_keys _ _ _ _ Hi).
  rewrite <- ArraySortMore.insertionSort_filter by apply keyCompare_consistent.
  f_equal. unfold keptNodes.
  rewrite <- (map_filter_key nodeKey (fun k => negb (snd k))).
  f_equal. apply kept_public_internal.
Qed.

End KeptSorted.

Lemma exports_of_kept_declarations_witness :
  exists r,
    extractModule codeUnitCompare ArraySort.referenceSort sampleFile
      "/home/user/project/src/sample.ts" "public" = Normal r /\
    exportCount (result_metadata r) = 6.
Proof.
  assert (H : exists r,
             extractModule codeUnitCompare ArraySort.referenceSort sampleFile
               "/home/user/project/src/sample.ts" "public" = Normal r)
    by (vm_compute; eexists; reflexivity).
  destruct H as [r Hr]. exists r. split; [exact Hr|].
  rewrite (proj2 (exports_of_kept_declarations codeUnitCompare
                    codeUnitCompare_consistent ArraySort.referenceSort
                    ArraySortFacts.referenceSort_contract _ _ _ _ Hr)).
  reflexivity.
Defined.

Lemma public_exports_are_internal_filtered_witness :
  exists public internal,
    extractModule codeUnitCompare ArraySort.referenceSort cacheFile
      "/home/user/project/src/cache.ts" "public" = Normal public /\
    extractModule codeUnitCompare ArraySort.referenceSort cacheFile
      "/home/user/project/src/cache.ts" "internal" = Normal internal /\
    map symbolKey (result_exports public)
    = map symbolKey (filter (fun s => negb (symbol_isPrivate s))
                            (result_exports internal)).
Proof.
  assert (Hp : exists r,
             extractModule codeUnitCompare ArraySort.referenceSort cacheFile
               "/home/user/project/src/cache.ts" "public" = Normal r)
    by (vm_compute; eexists; reflexivity).
  assert (Hi : exists r,
             extractModule codeUnitCompare ArraySort.referenceSort cacheFile
               "/home/user/project/src/cache.ts" "internal" = Normal r)
    by (vm_compute; eexists; reflexivity).
  destruct Hp as [public Hp]. destruct Hi as [internal Hi].
  exists public, internal. split; [exact Hp|]. split; [exact Hi|].
  exact (public_exports_are_internal_filtered codeUnitCompare
           codeUnitCompare_consistent ArraySort.referenceSort
           ArraySortFacts.referenceSort_contract _ _ _ _ Hp Hi).
Defined.

(* ================================================================== *)
(** * Grouping, stability and the two variants of a class *)
(* ================================================================== *)

Lemma kindPriority_injective (a b : string) :
  In a ["type"; "interface"; "const"; "function"; "class"; "enum"; "unknown"] ->
  In b ["type"; "interface"; "const"; "function"; "class"; "enum"; "unknown"] ->
  kindPriority a = kindPriority b -> a = b.
Proof.
  simpl. intros Ha Hb.
  repeat match goal with
         | H : _ \/ _ |- _ => destruct H as [<-|H]
         | H : False |- _ => destruct H
         end; vm_compute; intros E; try reflexivity; discriminate E.
Qed.

Section Grouping.
Variable localeCompare : string -> string -> Z.
Hypothesis Hlocale : locale_consistent localeCompare.
Variable arraySort : ArraySort.EngineSort.
Hypothesis Hsort : ArraySort.sort_contract arraySort.

Lemma exports_sorted (sourceFile : SourceFile) (filePath variant : string)
  (r : ExtractionResult) :
  extractModule localeCompare arraySort sourceFile filePath variant = Normal r ->
  StronglySorted (exportOrder localeCompare) (result_exports r).
Proof.
  intros Hr.
  destruct (extractModule_inv _ Hlocale _ Hsort _ _ _ _ Hr) as (symbols & _ & -> & _).
  eapply StronglySorted_weaken;
    [| apply ArraySortFacts.insertionSort_sorts_stably,
         symbolCompare_consistent, Hlocale].
  intros a b _ _. apply symbolCompare_order.
Qed.

Lemma exports_kind (sourceFile : SourceFile) (filePath variant : string)
  (r : ExtractionResult) (s : SymbolRecord) :
  extractModule localeCompare arraySort sourceFile filePath variant = Normal r ->
  In s (result_exports r) ->
  In (symbol_kind s)
     ["type"; "interface"; "const"; "function"; "class"; "enum"; "unknown"].
Proof.
  intros Hr Hs.
  destruct (extractModule_In _ Hlocale _ Hsort _ _ _ _ _ Hr Hs)
    as (n & ds & d & _ & _ & Hd).
  destruct (extractSymbol_key _ _ _ _ _ Hd) as [_ [= -> _ _]].
  apply mapKind_range.
Qed.

(** X3. The records of one kind stand together in the exports: between two
    records of a kind there is no record of another kind. *)
Theorem exports_grouped_by_kind (sourceFile : SourceFile)
  (filePath variant : string) (r : ExtractionResult)
  (before between behind : list SymbolRecord) (a b c : SymbolRecord)
  (later : list SymbolRecord) :
  extractModule localeCompare arraySort sourceFile filePath variant = Normal r ->
  result_exports r = (before ++ a :: between ++ b :: behind ++ c :: later)%list ->
  symbol_kind a = symbol_kind c ->
  symbol_kind b = symbol_kind a.
Proof.
  intros Hr Hx Hac.
  pose proof (exports_sorted _ _ _ _ Hr) as Hs. rewrite Hx in Hs.
  assert (Hab : exportOrder localeCompare a b).
  { apply ArraySortMore.StronglySorted_later in Hs. rewrite Forall_forall in Hs.
    apply Hs, in_or_app. right. now left. }
  assert (Hbc : exportOrder localeCompare b c).
  { rewrite app_comm_cons, app_assoc in Hs.
    apply ArraySortMore.StronglySorted_later in Hs. rewrite Forall_forall in Hs.
    apply Hs, in_or_app. right. now left. }
  destruct Hab as [Hab _], Hbc as [Hbc _]. rewrite Hac in Hab.
  assert (Hin : forall s, In s [a; b; c] -> In s (result_exports r)).
  { intros s Hin. rewrite Hx. simpl in Hin.
    destruct Hin as [<-|[<-|[<-|[]]]].
    - apply in_or_app. right. now left.
    - apply in_or_app. right. right. apply in_or_app. right. now left.
    - apply in_or_app. right. right. apply in_or_app. right. right.
      apply in_or_app. right. now left. }
  rewrite Hac. apply kindPriority_injective.
  - apply (exports_kind _ _ _ _ _ Hr), Hin. simpl. tauto.
  - apply (exports_kind _ _ _ _ _ Hr), Hin. simpl. tauto.
  - lia.
Qed.

Lemma sameRank_tie (a b : SymbolRecord) :
  sameRank localeCompare a b = ArraySort.tie (symbolCompare localeCompare) a b.
Proof.
  unfold sameRank, ArraySort.tie, ArraySort.beforeb, symbolCompare.
  rewrite (Z.eqb_sym (kindPriority (symbol_kind b))).
  destruct (Z.eqb_spec (kindPriority (symbol_kind a)) (kindPriority (symbol_kind b)))
    as [E|E]; simpl.
  - pose proof (locale_sign _ Hlocale (symbol_name a) (symbol_name b)).
    pose proof (locale_sign' _ Hlocale (symbol_name a) (symbol_name b)).
    destruct (Z.eqb_spec (localeCompare (symbol_name a) (symbol_name b)) 0);
      destruct (Z.leb_spec (localeCompare (symbol_name a) (symbol_name b)) 0);
      destruct (Z.leb_spec (localeCompare (symbol_name b) (symbol_name a)) 0);
      simpl; try reflexivity; lia.
  - destruct (Z.leb_spec (kindPriority (symbol_kind a) - kindPriority (symbol_kind b)) 0);
      destruct (Z.leb_spec (kindPriority (symbol_kind b) - kindPriority (symbol_kind a)) 0);
      simpl; try reflexivity; lia.
Qed.

(** X4. The export sort is stable: the records that rank equal with a
    given one, as the overloads of one function do, stand in the exports in
    the order in which the loops pushed them. *)
Theorem equal_ranked_exports_keep_order (sourceFile : SourceFile)
  (filePath variant : string) (r : ExtractionResult)
  (symbols : list SymbolRecord) (z : SymbolRecord) :
  extractEntries localeCompare arraySort (getExportedDeclarations sourceFile) variant
    = Normal symbols ->
  extractModule localeCompare arraySort sourceFile filePath variant = Normal r ->
  In z symbols ->
  filter (sameRank localeCompare z) (result_exports r)
  = filter (sameRank localeCompare z) symbols.
Proof.
  intros He Hr Hz.
  destruct (extractModule_inv _ Hlocale _ Hsort _ _ _ _ Hr) as (symbols' & He' & -> & _).
  assert (symbols' = symbols) as -> by congruence.
  rewrite (filter_ext _ _ (sameRank_tie z)).
  rewrite (filter_ext _ _ (sameRank_tie z) symbols).
  apply (ArraySortFacts.insertionSort_sorts_stably (symbolCompare localeCompare));
    [now apply symbolCompare_consistent | exact Hz].
Qed.

Lemma pushProperties_public_filter (props : list PropertyNode) :
  pushProperties "public" props
  = filter isPublicMember (pushProperties "internal" props).
Proof.
  induction props as [|p props IH]; [reflexivity|].
  cbn [pushProperties]. unfold keepMember, isPublicMember in *. simpl.
  rewrite negb_involutive.
  destruct (getVisibility (prop_base p) =? "public")%string; now rewrite IH.
Qed.

Lemma pushMethods_public_filter (methods : list MethodNode) :
  pushMethods "public" methods
  = filter isPublicMember (pushMethods "internal" methods).
Proof.
  induction methods as [|p methods IH]; [reflexivity|].
  cbn [pushMethods]. unfold keepMember, isPublicMember in *. simpl.
  rewrite negb_involutive.
  destruct (getVisibility (method_base p) =? "public")%string; now rewrite IH.
Qed.

(** X5. The members of a class under the public variant are its members
    under the internal variant without those whose visibility is not
    public, in the same order. *)
Theorem public_members_are_internal_filtered (decl : Node)
  (base : option (option string)) (impl : list string)
  (ctors : list ConstructorNode) (props : list PropertyNode)
  (methods : list MethodNode) :
  node_shape decl = ClassLike base impl ctors props methods ->
  exists baseName public internal,
    extractClass localeCompare arraySort decl "public"
    = Normal (ClassFields baseName impl public) /\
    extractClass localeCompare arraySort decl "internal"
    = Normal (ClassFields baseName impl internal) /\
    public = filter isPublicMember internal.
Proof.
  intros Hshape.
  rewrite !(extractClass_members _ Hlocale _ Hsort _ _ _ _ _ _ _ Hshape).
  do 3 eexists. split; [reflexivity|]. split; [reflexivity|].
  rewrite filter_app. f_equal.
  - destruct ctors; reflexivity.
  - rewrite <- ArraySortMore.insertionSort_filter
      by (apply memberCompare_consistent; [exact Hlocale | apply pushed_kinds]).
    now rewrite filter_app, pushProperties_public_filter, pushMethods_public_filter.
Qed.

(** X6. On nodes as the parser builds them a run throws exactly when the
    final segment of the path is [src]; otherwise it returns a result. *)
Theorem extraction_returns_unless_final_src (sourceFile : SourceFile)
  (filePath variant : string) :
  Forall (fun entry => Forall (fun decl => conforms decl = true) (snd entry))
    (getExportedDeclarations sourceFile) ->
  (last (JsString.split "/" filePath) "" <> "src" ->
   exists r, extractModule localeCompare arraySort sourceFile filePath variant
             = Normal r) /\
  (last (JsString.split "/" filePath) "" = "src" ->
   extractModule localeCompare arraySort sourceFile filePath variant
   = Throw (TypeError "Cannot read properties of undefined (reading 'replace')")).
Proof.
  intros Hnodes. unfold extractModule.
  destruct (extractEntries_returns localeCompare arraySort _ variant Hnodes)
    as [symbols ->]. simpl. split; intros Hpath.
  - rewrite (proj1 (deriveModuleName_refines filePath) Hpath). simpl. eauto.
  - now rewrite (proj2 (deriveModuleName_refines filePath) Hpath).
Qed.

End Grouping.

Lemma exports_grouped_by_kind_witness :
  exists r u a b c,
    extractModule codeUnitCompare ArraySort.referenceSort overloadsFile
      "/home/user/project/src/greet.ts" "public" = Normal r /\
    result_exports r = [u; a; b; c] /\
    symbol_kind b = symbol_kind a.
Proof.
  assert (H : exists r,
             extractModule codeUnitCompare ArraySort.referenceSort overloadsFile
               "/home/user/project/src/greet.ts" "public" = Normal r)
    by (vm_compute; eexists; reflexivity).
  destruct H as [r Hr]. pose proof Hr as Hc. vm_compute in Hc.
  injection Hc as Hc. subst r.
  do 5 eexists. split; [exact Hr|].
  assert (Hd : forall (u a b c : SymbolRecord),
             [u; a; b; c] = ([u] ++ a :: [] ++ b :: [] ++ c :: [])%list)
    by reflexivity.
  split; [reflexivity|].
  eapply (exports_grouped_by_kind codeUnitCompare codeUnitCompare_consistent
            ArraySort.referenceSort ArraySortFacts.referenceSort_contract
            _ _ _ _ [_] [] [] _ _ _ [] Hr); [apply Hd | reflexivity].
Defined.

Lemma equal_ranked_exports_keep_order_witness :
  exists r symbols z,
    extractEntries codeUnitCompare ArraySort.referenceSort
      (getExportedDeclarations overloadsFile) "public" = Normal symbols /\
    extractModule codeUnitCompare ArraySort.referenceSort overloadsFile
      "/home/user/project/src/greet.ts" "public" = Normal r /\
    hd_error symbols = Some z /\
    filter (sameRank codeUnitCompare z) (result_exports r)
    = filter (sameRank codeUnitCompare z) symbols.
Proof.
  assert (He : exists symbols z,
             extractEntries codeUnitCompare ArraySort.referenceSort
               (getExportedDeclarations overloadsFile) "public" = Normal symbols /\
             hd_error symbols = Some z /\ In z symbols)
    by (vm_compute; do 2 eexists; split; [reflexivity|];
        split; [reflexivity | left; reflexivity]).
  assert (H : exists r,
             extractModule codeUnitCompare ArraySort.referenceSort overloadsFile
               "/home/user/project/src/greet.ts" "public" = Normal r)
    by (vm_compute; eexists; reflexivity).
  destruct He as (symbols & z & He & Hz & Hin). destruct H as [r Hr].
  exists r, symbols, z. split; [exact He|]. split; [exact Hr|].
  split; [exact Hz|].
  exact (equal_ranked_exports_keep_order codeUnitCompare codeUnitCompare_consistent
           ArraySort.referenceSort ArraySortFacts.referenceSort_contract
           _ _ _ _ _ _ He Hr Hin).
Defined.

Lemma public_members_are_internal_filtered_witness :
  exists baseName public internal,
    extractClass codeUnitCompare ArraySort.referenceSort databaseClientNode "public"
    = Normal (ClassFields baseName [] public) /\
    extractClass codeUnitCompare ArraySort.referenceSort databaseClientNode "internal"
    = Normal (ClassFields baseName [] internal) /\
    public = filter isPublicMember internal.
Proof.
  exact (public_members_are_internal_filtered codeUnitCompare
           codeUnitCompare_consistent ArraySort.referenceSort
           ArraySortFacts.referenceSort_contract databaseClientNode
           _ _ _ _ _ eq_refl).
Defined.

Lemma extraction_returns_unless_final_src_witness :
  (exists r,
     extractModule codeUnitCompare ArraySort.referenceSort sampleFile
       "/home/user/project/src/sample.ts" "internal" = Normal r) /\
  extractModule codeUnitCompare ArraySort.referenceSort sampleFile
    "/home/user/project/src" "internal"
  = Throw (TypeError "Cannot read properties of undefined (reading 'replace')").
Proof.
  assert (Hnodes : Forall (fun entry =>
                             Forall (fun decl => conforms decl = true) (snd entry))
                     (getExportedDeclarations sampleFile))
    by (repeat constructor).
  split.
  - apply (proj1 (extraction_returns_unless_final_src codeUnitCompare
                    ArraySort.referenceSort sampleFile
                    "/home/user/project/src/sample.ts" "internal" Hnodes)).
    vm_compute. discriminate.
  - apply (proj2 (extraction_returns_unless_final_src codeUnitCompare
                    ArraySort.referenceSort sampleFile
                    "/home/user/project/src" "internal" Hnodes)).
    reflexivity.
Defined.

(* ================================================================== *)
(** * More on module names *)
(* ================================================================== *)

Lemma split_app_separator (sep : ascii) (a b : string) :
  JsString.split sep (a ++ String sep b)
  = (JsString.split sep a ++ JsString.split sep b)%list.
Proof.
  induction a as [|c a IH]; cbn [append JsString.split].
  - now rewrite Ascii.eqb_refl.
  - rewrite IH. destruct (Ascii.eqb c sep); [reflexivity|].
    pose proof (split_nonempty sep a) as Hne.
    destruct (JsString.split sep a); [contradiction | reflexivity].
Qed.

Lemma split_without_separator (sep : ascii) (s : string) :
  ~ occursIn (String sep "") s -> JsString.split sep s = [s].
Proof.
  induction s as [|c s IH]; intros H; cbn [JsString.split]; [reflexivity|].
  apply not_occurs_cons in H. destruct H as [Hc Hs].
  destruct (Ascii.eqb_spec c sep); [contradiction|]. now rewrite IH.
Qed.

Lemma segmentsAfterLastSrc_app (before rest : list string) :
  segmentsAfterLastSrc (before ++ "src" :: rest)
  = segmentsAfterLastSrc ("src" :: rest).
Proof.
  induction before as [|x before IH]; [reflexivity|].
  change ((x :: before) ++ "src" :: rest)%list with (x :: before ++ "src" :: rest)%list.
  cbn [segmentsAfterLastSrc] in *. rewrite IH.
  destruct (segmentsAfterLastSrc rest); reflexivity.
Qed.

Lemma last_app_cons {A : Type} (l1 l2 : list A) (a d : A) :
  last (l1 ++ a :: l2) d = last (a :: l2) d.
Proof.
  induction l1 as [|x l1 IH]; [reflexivity|].
  change ((x :: l1) ++ a :: l2)%list with (x :: l1 ++ a :: l2)%list.
  cbn [last]. destruct (l1 ++ a :: l2)%list eqn:E; [destruct l1; discriminate|].
  exact IH.
Qed.

Lemma split_under_src (directory rest : string) :
  JsString.split "/" (directory ++ "/src/" ++ rest)
  = (JsString.split "/" directory ++ "src" :: JsString.split "/" rest)%list.
Proof.
  change (directory ++ "/src/" ++ rest)
    with (directory ++ String "/" ("src" ++ String "/" rest)).
  rewrite split_app_separator, split_app_separator. reflexivity.
Qed.

(** X7. The module name does not depend on where the sources root lies:
    whatever precedes a [/src/] in the path, the outcome is the same. *)
Theorem module_name_ignores_what_precedes_src (directory directory' rest : string) :
  deriveModuleName (directory ++ "/src/" ++ rest)
  = deriveModuleName (directory' ++ "/src/" ++ rest).
Proof.
  assert (H : forall d,
             last (JsString.split "/" (d ++ "/src/" ++ rest)) ""
             = last ("src" :: JsString.split "/" rest) "" /\
             moduleNameSpec (d ++ "/src/" ++ rest)
             = match segmentsAfterLastSrc ("src" :: JsString.split "/" rest) with
               | Some after =>
                   JsString.join "."
                     (filter (fun s => negb (s =? "")%string) (stripFinalSegment after))
               | None => ""
               end).
  { intros d. unfold moduleNameSpec. rewrite split_under_src. split.
    - apply last_app_cons.
    - rewrite segmentsAfterLastSrc_app.
      cbn [segmentsAfterLastSrc].
      destruct (segmentsAfterLastSrc (JsString.split "/" rest)); reflexivity. }
  destruct (H directory) as [Hl Hm], (H directory') as [Hl' Hm'].
  destruct (String.eqb_spec (last ("src" :: JsString.split "/" rest) "") "src")
    as [E|E].
  - rewrite (proj2 (deriveModuleName_refines _)) by congruence.
    rewrite (proj2 (deriveModuleName_refines _)) by congruence. reflexivity.
  - rewrite (proj1 (deriveModuleName_refines _)) by congruence.
    rewrite (proj1 (deriveModuleName_refines _)) by congruence. congruence.
Qed.

Lemma segmentsAfterLastSrc_absent (l : list string) (name : string) :
  ~ In "src" l -> name <> "src" -> segmentsAfterLastSrc (l ++ [name]) = None.
Proof.
  intros Hl Hname. induction l as [|x l IH]; simpl.
  - destruct (String.eqb_spec name "src"); [contradiction | reflexivity].
  - simpl in Hl. rewrite IH by tauto.
    destruct (String.eqb_spec x "src"); [|reflexivity]. subst. tauto.
Qed.

(** X8. Without a segment [src] the module name is the file name without
    its extension, whatever the directories are. *)
Theorem module_name_without_src_is_file_name (directory name : string) :
  ~ occursIn "/" name ->
  ~ In "src" (JsString.split "/" directory) -> name <> "src" ->
  deriveModuleName (directory ++ "/" ++ name) = Normal (replaceExtension name).
Proof.
  intros Hname Hdir Hsrc.
  assert (Hsplit : JsString.split "/" (directory ++ "/" ++ name)
                   = (JsString.split "/" directory ++ [name])%list).
  { change (directory ++ "/" ++ name) with (directory ++ String "/" name).
    now rewrite split_app_separator, (split_without_separator "/" name). }
  assert (Hnone : segmentsAfterLastSrc (JsString.split "/" directory ++ [name]) = None)
    by (now apply segmentsAfterLastSrc_absent).
  rewrite (proj1 (deriveModuleName_refines _)).
  - unfold moduleNameSpec. rewrite Hsplit, Hnone, last_last.
    now rewrite withoutExtension_replaceExtension.
  - rewrite Hsplit, last_last. exact Hsrc.
Qed.

Lemma module_name_without_src_is_file_name_witness :
  deriveModuleName ("/home/user/lib" ++ "/" ++ "auth.service.ts")
  = Normal "auth.service".
Proof.
  apply (module_name_without_src_is_file_name "/home/user/lib" "auth.service.ts").
  - intros (pre & post & H).
    assert (Hi : JsString.includes "auth.service.ts" "/" = true)
      by (apply includes_spec; exists pre, post; exact H).
    vm_compute in Hi. discriminate.
  - vm_compute. intuition discriminate.
  - discriminate.
Defined.

(** X9. The pattern removes a final [.ts], [.tsx], [.js] or [.jsx] and
    nothing else: a name that ends with one of them loses exactly that
    ending, every other name is returned as it is, and in both cases the
    result starts the name and is at most four code units shorter. *)
Theorem extension_is_stripped_once (s : string) :
  (forall stem, hasExtension s stem -> replaceExtension s = stem) /\
  ((forall stem, ~ hasExtension s stem) -> replaceExtension s = s) /\
  (exists ending,
     s = replaceExtension s ++ ending /\
     In ending [""; ".ts"; ".tsx"; ".js"; ".jsx"]).
Proof.
  split; [intros stem; apply replaceExtension_strips|].
  split; [apply replaceExtension_keeps|].
  induction s as [|c s IH].
  - exists "". simpl. auto.
  - cbn [replaceExtension]. destruct (isSourceExtension (String c s)) eqn:E.
    + exists (String c s). split; [reflexivity|]. unfold isSourceExtension in E.
      repeat (apply orb_true_iff in E; destruct E as [E|E]);
        apply String.eqb_eq in E; rewrite E; simpl; tauto.
    + destruct IH as (ending & Hs & Hin). exists ending.
      split; [simpl; now rewrite <- Hs | exact Hin].
Qed.

Lemma extension_is_stripped_once_witness :
  replaceExtension "types.d.ts" = "types.d".
Proof.
  apply (proj1 (extension_is_stripped_once "types.d.ts")).
  exists ".ts". split; [simpl; tauto | reflexivity].
Defined.

(* ================================================================== *)
(** * Records, signatures and type parameters *)
(* ================================================================== *)

Lemma string_append_assoc (a b c : string) : ((a ++ b) ++ c = a ++ (b ++ c))%string.
Proof. induction a as [|x a IH]; simpl; [reflexivity | now rewrite IH]. Qed.

Lemma occursIn_inside (sub l s r : string) :
  occursIn sub s -> occursIn sub (l ++ s ++ r).
Proof.
  intros (pre & post & ->). exists (l ++ pre), (post ++ r).
  now rewrite !string_append_assoc.
Qed.

(** X10. Every type parameter is trimmed and free of commas, and there are
    type parameters only for a text that contains [<] (so [isGeneric]
    holds) and ends with [>]. *)
Theorem type_parameters_are_trimmed_pieces (raw parameter : string) :
  In parameter (type_typeParameters (extractTypeInfo raw)) ->
  isTrimmed parameter /\ ~ occursIn "," parameter /\
  type_isGeneric (extractTypeInfo raw) = true /\
  exists text, raw = text ++ ">".
Proof.
  unfold extractTypeInfo, type_typeParameters, type_isGeneric, extractTypeParameters.
  destruct (JsString.includes raw "<"); simpl; [|contradiction].
  destruct (matchTypeArguments raw) as [group|] eqn:E; [|contradiction].
  intros Hin. apply in_map_iff in Hin. destruct Hin as (piece & <- & Hpiece).
  destruct (trim_spec piece) as (l & r & Hp & _ & _ & Ht).
  split; [exact Ht|]. split; [|split; [reflexivity|]].
  - intros Hc. pose proof (split_pieces "," group) as Hall.
    rewrite Forall_forall in Hall. apply (Hall piece Hpiece).
    rewrite Hp. now apply occursIn_inside.
  - eapply matchTypeArguments_closed. exact E.
Qed.

Lemma type_parameters_are_trimmed_pieces_witness :
  isTrimmed "Array<number>" /\ ~ occursIn "," "Array<number>".
Proof.
  destruct (type_parameters_are_trimmed_pieces "Map<string, Array<number>>"
              "Array<number>") as (H1 & H2 & _).
  - vm_compute. tauto.
  - split; assumption.
Defined.

Lemma substring0_prefix (n : nat) : forall s,
  exists rest, s = JsString.substring0 n s ++ rest.
Proof.
  unfold JsString.substring0. induction n as [|n IH]; intros [|c s]; simpl.
  - now exists "".
  - now exists (String c s).
  - now exists "".
  - destruct (IH s) as [rest Hr]. exists rest. now rewrite <- Hr.
Qed.

Lemma substring0_length (n : nat) : forall s,
  (String.length (JsString.substring0 n s) <= n)%nat.
Proof.
  unfold JsString.substring0. induction n as [|n IH]; intros [|c s]; simpl; try lia.
  specialize (IH s). lia.
Qed.

Lemma mapKind_unknown (kindName : string) :
  mapKind kindName = "unknown" -> kindMapping kindName = None.
Proof.
  unfold mapKind. destruct (kindMapping kindName) as [k|] eqn:E; [|reflexivity].
  intros ->. unfold kindMapping in E.
  repeat match type of E with
         | context [(kindName =? ?k)%string] =>
             destruct (kindName =? k)%string; [discriminate E|]
         end.
  discriminate E.
Qed.

Section Records.
Variable localeCompare : string -> string -> Z.
Variable arraySort : ArraySort.EngineSort.

(** X11. A declaration of a kind outside the table never makes
    [extractSymbol] throw: it gets the base record alone, and as signature
    the first hundred code units of its text. *)
Theorem unknown_kind_gets_base_record (decl : Node) (variant : string) :
  mapKind (getKindName decl) = "unknown" ->
  isExcluded variant decl = false ->
  exists s,
    extractSymbol localeCompare arraySort decl variant = Normal (Some s) /\
    symbol_kind s = "unknown" /\ symbol_fields s = NoFields /\
    (String.length (symbol_signature s) <= 100)%nat /\
    exists rest, getText (node_base decl) = symbol_signature s ++ rest.
Proof.
  intros Hk Hx. pose proof (mapKind_unknown _ Hk) as Hm.
  unfold extractSymbol. unfold isExcluded in Hx. rewrite Hx, Hk.
  assert (Hsig : buildSignature decl
                 = Normal (JsString.substring0 100 (getText (node_base decl)))).
  { unfold buildSignature. unfold kindMapping in Hm.
    repeat match type of Hm with
           | context [(getKindName decl =? ?k)%string] =>
               destruct (getKindName decl =? k)%string; [discriminate Hm|]
           end.
    reflexivity. }
  rewrite Hsig. simpl. eexists. split; [reflexivity|]. simpl.
  split; [reflexivity|]. split; [reflexivity|].
  split; [apply substring0_length | apply substring0_prefix].
Qed.

(** The name a record gets when the name accessor yields nothing. *)
Lemma getName_anonymous (decl : Node) :
  node_getName decl = Some None ->
  getName decl = match node_getSymbol decl with
                 | Some (Some symbolName) => symbolName
                 | _ => "default"
                 end.
Proof. intros H. unfold getName. now rewrite H. Qed.

(** X12. For a declaration without a name of its own, the record and the
    signature disagree: the record is named after the symbol, or
    [default], while a class signature reads [class undefined] and a
    function signature [function anonymous]. *)
Theorem anonymous_declarations_are_named_twice (decl : Node) (variant : string)
  (s : SymbolRecord) :
  node_getName decl = Some None ->
  extractSymbol localeCompare arraySort decl variant = Normal (Some s) ->
  symbol_name s = match node_getSymbol decl with
                  | Some (Some symbolName) => symbolName
                  | _ => "default"
                  end /\
  (getKindName decl = "ClassDeclaration" ->
   exists rest, symbol_signature s = "class undefined" ++ rest) /\
  (getKindName decl = "FunctionDeclaration" ->
   exists async rest,
     symbol_signature s = async ++ "function anonymous(" ++ rest /\
     (async = "" \/ async = "async ")).
Proof.
  intros Hn Hs.
  destruct (extractSymbol_base _ _ _ _ _ Hs) as (_ & sig & fields & Hsig & ->).
  simpl. split; [now apply getName_anonymous|]. split.
  - intros Hk. unfold buildSignature in Hsig. rewrite Hk in Hsig. simpl in Hsig.
    unfold buildClassSignature, callGetName in Hsig. rewrite Hn in Hsig.
    simpl in Hsig.
    destruct (asClassLike decl) as [[[[[base impl] c] p] m]|]; [|discriminate].
    simpl in Hsig. injection Hsig as <-.
    destruct base as [baseName|];
      destruct (0 <? Z.of_nat (List.length impl));
      rewrite ?string_append_assoc; simpl; eauto.
  - intros Hk. unfold buildSignature in Hsig. rewrite Hk in Hsig. simpl in Hsig.
    unfold buildFunctionSignature in Hsig. rewrite Hn in Hsig.
    destruct (asFunctionLike decl) as [[[ps ret] async]|]; [|discriminate].
    simpl in Hsig. injection Hsig as <-.
    destruct async as [[|]|]; do 2 eexists; (split; [reflexivity | auto]).
Qed.

(** X13. Whatever its kind, a record carries the leading comments of its
    declaration in their order, with text and offset as the parser gave
    them and the type single-line exactly for comment kind 2, and the
    JSDoc record of the declaration itself. *)
Theorem record_carries_the_comments (decl : Node) (variant : string)
  (s : SymbolRecord) :
  extractSymbol localeCompare arraySort decl variant = Normal (Some s) ->
  map comment_text (symbol_leadingComments s)
  = map range_text (getLeadingCommentRanges (node_base decl)) /\
  map comment_start (symbol_leadingComments s)
  = map range_pos (getLeadingCommentRanges (node_base decl)) /\
  Forall2 (fun range comment =>
             (range_kind range = 2 -> comment_type comment = "single-line") /\
             (range_kind range <> 2 -> comment_type comment = "multi-line"))
          (getLeadingCommentRanges (node_base decl)) (symbol_leadingComments s) /\
  symbol_jsDoc s = extractJSDoc (node_base decl).
Proof.
  intros Hs.
  destruct (extractSymbol_base _ _ _ _ _ Hs) as (_ & sig & fields & _ & ->).
  simpl. unfold extractComments. rewrite !map_map. simpl.
  repeat split.
  induction (getLeadingCommentRanges (node_base decl)) as [|range l IH];
    constructor; [|exact IH].
  simpl. destruct (Z.eqb_spec (range_kind range) 2); split; congruence.
Qed.

(** What the dispatch of [extractSymbol] returned is in the record. *)
Lemma extractSymbol_fields (decl : Node) (variant : string) (s : SymbolRecord) :
  extractSymbol localeCompare arraySort decl variant = Normal (Some s) ->
  symbol_kind s = mapKind (getKindName decl) /\
  (symbol_kind s = "function" ->
   exists signature,
     extractFunction decl
       {| symbol_kind := mapKind (getKindName decl);
          symbol_name := getName decl;
          symbol_signature := signature;
          symbol_leadingComments := extractComments (node_base decl);
          symbol_jsDoc := extractJSDoc (node_base decl);
          symbol_isPrivate := checkPrivacy decl;
          symbol_fields := NoFields |} = Normal (symbol_fields s)) /\
  (symbol_kind s = "interface" -> extractInterface decl = Normal (symbol_fields s)) /\
  (symbol_kind s = "enum" -> extractEnum decl = Normal (symbol_fields s)).
Proof.
  unfold extractSymbol.
  destruct ((variant =? "public")%string && checkPrivacy decl); [discriminate|].
  destruct (buildSignature decl) as [sig|e]; simpl; [|discriminate].
  set (k := mapKind (getKindName decl)).
  destruct (String.eqb_spec k "function") as [Ef|Ef].
  { destruct (extractFunction _ _) as [f|] eqn:E; simpl; [|discriminate].
    intros [= <-]. simpl. split; [reflexivity|].
    split; [intros _; now exists sig|]. split; intros H; rewrite Ef in H; discriminate. }
  destruct (String.eqb_spec k "class") as [Ec|Ec].
  { destruct (extractClass _ _ _ _); simpl; [|discriminate].
    intros [= <-]. simpl. split; [reflexivity|].
    repeat split; intros H; rewrite Ec in H; discriminate. }
  destruct (String.eqb_spec k "interface") as [Ei|Ei].
  { destruct (extractInterface decl) as [f|]; simpl; [|discriminate].
    intros [= <-]. simpl. split; [reflexivity|].
    split; [intros H; contradiction|]. split; [reflexivity|].
    intros H; rewrite Ei in H; discriminate. }
  destruct (String.eqb_spec k "type") as [Et|Et].
  { destruct (extractTypeAlias decl); simpl; [|discriminate].
    intros [= <-]. simpl. split; [reflexivity|].
    repeat split; intros H; rewrite Et in H; discriminate. }
  destruct (String.eqb_spec k "const") as [Eo|Eo].
  { destruct (extractConst decl); simpl; [|discriminate].
    intros [= <-]. simpl. split; [reflexivity|].
    repeat split; intros H; rewrite Eo in H; discriminate. }
  destruct (String.eqb_spec k "enum") as [En|En].
  { destruct (extractEnum decl) as [f|]; simpl; [|discriminate].
    intros [= <-]. simpl. split; [reflexivity|].
    split; [intros H; contradiction|]. split; [intros H; contradiction|].
    reflexivity. }
  simpl. intros [= <-]. simpl. split; [reflexivity|].
  repeat split; intros H; contradiction.
Qed.

(** X14. Parameters, interface members and enum values are recorded in the
    order of their declaration, one record each; they are not sorted. *)
Theorem declared_order_is_kept (decl : Node) (variant : string) (s : SymbolRecord) :
  extractSymbol localeCompare arraySort decl variant = Normal (Some s) ->
  (symbol_kind s = "function" ->
   exists params returnType async parameters isAsync,
     node_shape decl = FunctionLike params returnType async /\
     symbol_fields s = FunctionFields parameters returnType isAsync /\
     map parameter_name parameters = map param_getName params /\
     map parameter_type parameters = map param_getType params) /\
  (symbol_kind s = "interface" ->
   exists members properties,
     node_shape decl = InterfaceLike members /\
     symbol_fields s = InterfaceFields properties /\
     map iproperty_signature properties
     = map (fun m => getText (imember_base m)) members) /\
  (symbol_kind s = "enum" ->
   exists members enumValues,
     node_shape decl = EnumLike members /\
     symbol_fields s = EnumFields enumValues /\
     map enumvalue_name enumValues = map emember_getName members /\
     map enumvalue_value enumValues = map emember_getValue members).
Proof.
  intros Hs. destruct (extractSymbol_fields _ _ _ Hs) as (_ & Hf & Hi & He).
  split; [|split].
  - intros Hk. destruct (Hf Hk) as [sig E]. unfold extractFunction, asFunctionLike in E.
    destruct (node_shape decl) eqn:Hshape; try discriminate E.
    simpl in E. injection E as E. do 5 eexists. split; [reflexivity|].
    split; [symmetry; exact E|]. rewrite !map_map. simpl. split; reflexivity.
  - intros Hk. specialize (Hi Hk). unfold extractInterface, asInterfaceLike in Hi.
    destruct (node_shape decl) eqn:Hshape; try discriminate Hi.
    simpl in Hi. injection Hi as Hi. do 2 eexists. split; [reflexivity|].
    split; [symmetry; exact Hi|]. rewrite map_map. reflexivity.
  - intros Hk. specialize (He Hk). unfold extractEnum, asEnumLike in He.
    destruct (node_shape decl) eqn:Hshape; try discriminate He.
    simpl in He. injection He as He. do 2 eexists. split; [reflexivity|].
    split; [symmetry; exact He|]. rewrite !map_map. simpl. split; reflexivity.
Qed.

(** X15. On two constructor records the member comparator answers -1 in
    both orders, which no consistent comparator does; the list it sorts
    holds at most one constructor record, however many the class has. *)
Theorem member_comparator_on_constructors :
  (forall a b,
     member_kind a = "constructor" -> member_kind b = "constructor" ->
     memberCompare localeCompare a b = -1 /\ memberCompare localeCompare b a = -1) /\
  (forall variant ctors props methods,
     (List.length (filter isConstructorMember
                     (pushedMembers variant ctors props methods)) <= 1)%nat).
Proof.
  split.
  - intros a b Ha Hb. unfold memberCompare. now rewrite Ha, Hb.
  - intros variant ctors props methods. unfold pushedMembers.
    rewrite filter_app, length_app.
    assert (Hrest : filter isConstructorMember
                      (pushProperties variant props ++ pushMethods variant methods)
                    = []).
    { pose proof (pushed_kinds variant props methods) as Hk.
      induction Hk as [|m l Hm _ IH]; [reflexivity|]. simpl.
      unfold isConstructorMember at 1.
      destruct Hm as [-> | ->]; simpl; exact IH. }
    rewrite Hrest. destruct ctors; simpl; lia.
Qed.

End Records.

Lemma unknown_kind_gets_base_record_witness :
  exists s,
    extractSymbol codeUnitCompare ArraySort.referenceSort namespaceNode "public" = Normal (Some s) /\
    symbol_signature s = "export namespace Shapes { }".
Proof.
  destruct (unknown_kind_gets_base_record codeUnitCompare ArraySort.referenceSort namespaceNode "public" eq_refl eq_refl)
    as (s & Hs & _).
  exists s. split; [exact Hs|].
  vm_compute in Hs. now injection Hs as <-.
Defined.

Lemma anonymous_declarations_are_named_twice_witness :
  exists s,
    extractSymbol codeUnitCompare ArraySort.referenceSort anonymousClassNode "public"
    = Normal (Some s) /\
    symbol_name s = "default" /\
    exists rest, symbol_signature s = "class undefined" ++ rest.
Proof.
  assert (H : exists s,
             extractSymbol codeUnitCompare ArraySort.referenceSort anonymousClassNode "public"
             = Normal (Some s)) by (eexists; reflexivity).
  destruct H as [s Hs]. exists s. split; [exact Hs|].
  destruct (anonymous_declarations_are_named_twice codeUnitCompare ArraySort.referenceSort anonymousClassNode _ _ eq_refl Hs)
    as (H1 & H2 & _).
  split; [exact H1 | exact (H2 eq_refl)].
Defined.

Lemma record_carries_the_comments_witness :
  exists s,
    extractSymbol codeUnitCompare ArraySort.referenceSort greetNode "public" = Normal (Some s) /\
    map comment_text (symbol_leadingComments s) = ["/** Greets a user by name */"].
Proof.
  assert (H : exists s,
             extractSymbol codeUnitCompare ArraySort.referenceSort greetNode "public"
             = Normal (Some s)) by (eexists; reflexivity).
  destruct H as [s Hs]. exists s. split; [exact Hs|].
  exact (proj1 (record_carries_the_comments codeUnitCompare ArraySort.referenceSort _ _ _ Hs)).
Defined.

Lemma declared_order_is_kept_witness :
  exists s enumValues,
    extractSymbol codeUnitCompare ArraySort.referenceSort statusNode "public" = Normal (Some s) /\
    symbol_fields s = EnumFields enumValues /\
    map enumvalue_name enumValues = ["Active"; "Inactive"; "Pending"].
Proof.
  assert (H : exists s,
             extractSymbol codeUnitCompare ArraySort.referenceSort statusNode "public"
             = Normal (Some s)) by (eexists; reflexivity).
  destruct H as [s Hs].
  destruct (proj2 (proj2 (declared_order_is_kept codeUnitCompare ArraySort.referenceSort _ _ _ Hs)))
    as (members & enumValues & Hshape & Hf & Hn & _).
  - vm_compute in Hs. now injection Hs as <-.
  - exists s, enumValues. split; [exact Hs|]. split; [exact Hf|].
    rewrite Hn. injection Hshape as <-. reflexivity.
Defined.

Lemma member_comparator_on_constructors_witness :
  memberCompare codeUnitCompare
    (constructorMember {| ctor_base := memberBase [] "constructor()";
                          ctor_getParameters := [] |})
    (constructorMember {| ctor_base := memberBase [] "constructor(a: string)";
                          ctor_getParameters := [stringParameter "a"] |}) = -1.
Proof.
  exact (proj1 (proj1 (member_comparator_on_constructors codeUnitCompare)
                  (constructorMember {| ctor_base := memberBase [] "constructor()";
                                        ctor_getParameters := [] |})
                  (constructorMember
                     {| ctor_base := memberBase [] "constructor(a: string)";
                        ctor_getParameters := [stringParameter "a"] |})
                  eq_refl eq_refl)).
Defined.

(* ================================================================== *)
(** * The command line *)
(* ================================================================== *)

Lemma parseArgsFrom_help (args : list string) : forall filePath variant,
  existsb isHelpArgument args = true ->
  parseArgsFrom args filePath variant = HelpExit.
Proof.
  induction args as [|arg rest IH]; intros filePath variant;
    cbn [existsb parseArgsFrom]; [discriminate|].
  fold (isHelpArgument arg). destruct (isHelpArgument arg); cbn [orb];
    [reflexivity|].
  intros H. destruct (JsString.startsWith arg "--variant="); [now apply IH|].
  destruct (negb (JsString.startsWith arg "--")); now apply IH.
Qed.

Lemma isVariantArgument_not_path (arg : string) :
  isVariantArgument arg = true -> isPathArgument arg = false.
Proof.
  unfold isVariantArgument, isPathArgument, JsString.startsWith.
  intros H. apply isPrefix_spec in H. destruct H as [t ->]. reflexivity.
Qed.

Lemma last_map_cons {A B : Type} (f : A -> B) (a : A) (l : list A) (d : B) :
  last (map f (a :: l)) d = last (map f l) (f a).
Proof.
  revert a d. induction l as [|b l IH]; intros a d; [reflexivity|].
  change (last (map f (a :: b :: l)) d) with (last (map f (b :: l)) d).
  now rewrite !IH.
Qed.

Lemma parseArgsFrom_no_help (args : list string) : forall filePath variant,
  existsb isHelpArgument args = false ->
  parseArgsFrom args filePath variant
  = Parsed (last (map Some (filter isPathArgument args)) filePath)
           (last (map (fun arg => arrayGet (JsString.split "=" arg) 1)
                      (filter isVariantArgument args)) variant).
Proof.
  induction args as [|arg rest IH]; intros filePath variant; [reflexivity|].
  cbn [existsb parseArgsFrom filter]. fold (isHelpArgument arg).
  destruct (isHelpArgument arg); [discriminate|]. cbn [orb]. intros H.
  fold (isVariantArgument arg). destruct (isVariantArgument arg) eqn:Ev.
  - rewrite (isVariantArgument_not_path _ Ev), IH by exact H.
    now rewrite last_map_cons.
  - fold (isPathArgument arg). destruct (isPathArgument arg).
    + rewrite IH by exact H. now rewrite last_map_cons.
    + now apply IH.
Qed.

Lemma variant_argument_value (value : string) :
  arrayGet (JsString.split "=" ("--variant=" ++ value)) 1
  = Some (hd "" (JsString.split "=" value)).
Proof.
  change ("--variant=" ++ value) with ("--variant" ++ String "=" value).
  rewrite split_app_separator.
  pose proof (split_nonempty "=" value) as Hne.
  destruct (JsString.split "=" value); [contradiction | reflexivity].
Qed.

Lemma split_head (sep : ascii) (a b : string) :
  ~ occursIn (String sep "") a ->
  hd "" (JsString.split sep (a ++ String sep b)) = a.
Proof.
  intros H. rewrite split_app_separator, (split_without_separator sep a H).
  reflexivity.
Qed.

(** X16. A help argument anywhere wins: the command prints the usage text
    and exits with code 0 whatever else is on the command line, and it
    does so for no other command line. *)
Theorem help_argument_wins
  (resolve : string -> string) (readable : string -> bool)
  (addSourceFileAtPath : string -> Completion SourceFile)
  (localeCompare : string -> string -> Z) (arraySort : ArraySort.EngineSort)
  (stringifyError : ExtractionResult -> option JsError)
  (args : list string) :
  main resolve readable addSourceFileAtPath localeCompare arraySort stringifyError
    args = HelpShown
  <-> In "--help" args \/ In "-h" args.
Proof.
  assert (Hhelp : existsb isHelpArgument args = true
                  <-> In "--help" args \/ In "-h" args).
  { rewrite existsb_exists. unfold isHelpArgument. split.
    - intros (a & Ha & E). apply orb_true_iff in E.
      destruct E as [E|E]; apply String.eqb_eq in E; subst; auto.
    - intros [H|H]; eexists; (split; [exact H | reflexivity]). }
  rewrite <- Hhelp. unfold main, parseArgs.
  destruct args as [|arg rest]; [split; discriminate|].
  replace (Z.of_nat (List.length (arg :: rest)) =? 0) with false
    by (symmetry; apply Z.eqb_neq; simpl; lia).
  destruct (existsb isHelpArgument (arg :: rest)) eqn:E.
  - rewrite parseArgsFrom_help by exact E. tauto.
  - rewrite parseArgsFrom_no_help by exact E. split; [|discriminate].
    destruct (last _ None) as [path|]; [|discriminate].
    destruct (negb (JsString.truthy path)); [discriminate|].
    destruct (last _ (Some "public")) as [v|]; [|discriminate].
    destruct (negb (v =? "public")%string && negb (v =? "internal")%string);
      [discriminate|].
    destruct (negb (readable (resolve path))); [discriminate|].
    destruct (extractModuleAt _ _ _ _ _) as [result|]; [|discriminate].
    destruct (stringifyError result); discriminate.
Qed.

Lemma help_argument_wins_witness :
  main (fun path => path) (fun _ => false) (fun _ => Normal sampleFile)
    codeUnitCompare ArraySort.referenceSort circularStructure
    ["missing.ts"; "--variant=nonsense"; "-h"] = HelpShown.
Proof.
  apply (proj2 (help_argument_wins (fun path => path) (fun _ => false)
                  (fun _ => Normal sampleFile) codeUnitCompare
                  ArraySort.referenceSort circularStructure
                  ["missing.ts"; "--variant=nonsense"; "-h"])).
  right. simpl. tauto.
Defined.

(** X17. Without a help argument the last file path and the last variant
    option win, earlier ones and every other option starting with two
    dashes are dropped silently, and the variant is never undefined. *)
Theorem last_arguments_win (args : list string) :
  ~ In "--help" args -> ~ In "-h" args ->
  parseArgs args = Parsed (lastPathArgument args) (lastVariant args) /\
  lastVariant args <> None.
Proof.
  intros H1 H2. split.
  - apply parseArgsFrom_no_help. apply not_true_is_false. intros E.
    apply existsb_exists in E. destruct E as (a & Ha & E).
    unfold isHelpArgument in E. apply orb_true_iff in E.
    destruct E as [E|E]; apply String.eqb_eq in E; subst; contradiction.
  - unfold lastVariant.
    assert (Hall : forall l d, d <> None ->
              last (map (fun arg => arrayGet (JsString.split "=" arg) 1)
                        (filter isVariantArgument l)) d <> None).
    { induction l as [|a l IH]; intros d Hd; [exact Hd|].
      cbn [filter]. destruct (isVariantArgument a) eqn:Ea; [|now apply IH].
      rewrite last_map_cons. apply IH.
      unfold isVariantArgument, JsString.startsWith in Ea.
      apply isPrefix_spec in Ea. destruct Ea as [t ->].
      rewrite variant_argument_value. discriminate. }
    apply Hall. discriminate.
Qed.

Lemma last_arguments_win_witness :
  parseArgs ["a.ts"; "--variant=internal"; "--color"; "b.ts"; "--variant=public"]
  = Parsed (Some "b.ts") (Some "public").
Proof.
  apply (proj1 (last_arguments_win
                  ["a.ts"; "--variant=internal"; "--color"; "b.ts"; "--variant=public"]
                  ltac:(simpl; intuition discriminate)
                  ltac:(simpl; intuition discriminate))).
Defined.

(** X18. The value of a variant option ends at its second equals sign:
    what follows it is dropped, so [--variant=internal=x] selects
    [internal]. *)
Theorem variant_value_ends_at_equals_sign
  (resolve : string -> string) (readable : string -> bool)
  (addSourceFileAtPath : string -> Completion SourceFile)
  (localeCompare : string -> string -> Z) (arraySort : ArraySort.EngineSort)
  (stringifyError : ExtractionResult -> option JsError)
  (before after : list string) (value rest : string) :
  ~ occursIn "=" value ->
  main resolve readable addSourceFileAtPath localeCompare arraySort stringifyError
    (before ++ ("--variant=" ++ value ++ "=" ++ rest) :: after)
  = main resolve readable addSourceFileAtPath localeCompare arraySort stringifyError
      (before ++ ("--variant=" ++ value) :: after).
Proof.
  intros Hvalue.
  assert (Hstep : forall filePath variant,
            parseArgsFrom (("--variant=" ++ value ++ "=" ++ rest) :: after)
              filePath variant
            = parseArgsFrom (("--variant=" ++ value) :: after) filePath variant).
  { intros filePath variant.
    change (parseArgsFrom (("--variant=" ++ value ++ "=" ++ rest) :: after)
              filePath variant)
      with (parseArgsFrom after filePath
              (arrayGet (JsString.split "=" ("--variant=" ++ value ++ "=" ++ rest)) 1)).
    change (parseArgsFrom (("--variant=" ++ value) :: after) filePath variant)
      with (parseArgsFrom after filePath
              (arrayGet (JsString.split "=" ("--variant=" ++ value)) 1)).
    rewrite !variant_argument_value.
    change (value ++ "=" ++ rest) with (value ++ String "=" rest).
    rewrite (split_head "=" value rest Hvalue).
    now rewrite (split_without_separator "=" value Hvalue). }
  assert (Hall : forall filePath variant,
            parseArgsFrom (before ++ ("--variant=" ++ value ++ "=" ++ rest) :: after)
              filePath variant
            = parseArgsFrom (before ++ ("--variant=" ++ value) :: after)
                filePath variant).
  { induction before as [|arg l IH]; intros filePath variant; [apply Hstep|].
    cbn [app parseArgsFrom].
    destruct ((arg =? "--help")%string || (arg =? "-h")%string); [reflexivity|].
    destruct (JsString.startsWith arg "--variant="); [apply IH|].
    destruct (negb (JsString.startsWith arg "--")); apply IH. }
  unfold main, parseArgs. rewrite Hall, !length_app. reflexivity.
Qed.

Lemma variant_value_ends_at_equals_sign_witness :
  main (fun path => path) (fun _ => true) (fun _ => Normal sampleFile)
    codeUnitCompare ArraySort.referenceSort circularStructure
    ["/home/user/project/src/sample.ts"; "--variant=internal=verbose"]
  = main (fun path => path) (fun _ => true) (fun _ => Normal sampleFile)
      codeUnitCompare ArraySort.referenceSort circularStructure
      ["/home/user/project/src/sample.ts"; "--variant=internal"].
Proof.
  apply (variant_value_ends_at_equals_sign (fun path => path) (fun _ => true)
           (fun _ => Normal sampleFile) codeUnitCompare ArraySort.referenceSort
           circularStructure
           ["/home/user/project/src/sample.ts"] [] "internal" "verbose").
  intros (pre & post & H).
  assert (Hi : JsString.includes "internal" "=" = true)
    by (apply includes_spec; exists pre, post; exact H).
  vm_compute in Hi. discriminate.
Defined.

(** X19. The command prints a result only if it is what [extractModule]
    returned on the resolved, readable last file path with a variant that
    is [public] or [internal], and [JSON.stringify] returned on it; it
    reports a failed extraction only after the same checks, for what the
    parser, the extractor or [JSON.stringify] threw. *)
Theorem main_prints_what_extraction_returns
  (resolve : string -> string) (readable : string -> bool)
  (addSourceFileAtPath : string -> Completion SourceFile)
  (localeCompare : string -> string -> Z) (arraySort : ArraySort.EngineSort)
  (stringifyError : ExtractionResult -> option JsError)
  (args : list string) :
  (forall result,
     main resolve readable addSourceFileAtPath localeCompare arraySort
       stringifyError args = Printed result ->
     exists path variant sourceFile,
       lastPathArgument args = Some path /\ path <> "" /\
       lastVariant args = Some variant /\
       (variant = "public" \/ variant = "internal") /\
       readable (resolve path) = true /\
       addSourceFileAtPath (resolve path) = Normal sourceFile /\
       extractModule localeCompare arraySort sourceFile (resolve path) variant
       = Normal result /\
       stringifyError result = None) /\
  (forall error,
     main resolve readable addSourceFileAtPath localeCompare arraySort
       stringifyError args = Failed (ExtractionFailed error) ->
     exists path variant,
       lastPathArgument args = Some path /\ lastVariant args = Some variant /\
       (variant = "public" \/ variant = "internal") /\
       readable (resolve path) = true /\
       (extractModuleAt addSourceFileAtPath localeCompare arraySort
          (resolve path) variant = Throw error \/
        exists result,
          extractModuleAt addSourceFileAtPath localeCompare arraySort
            (resolve path) variant = Normal result /\
          stringifyError result = Some error)).
Proof.
  unfold main, parseArgs.
  destruct (Z.of_nat (List.length args) =? 0); [split; intros; discriminate|].
  destruct (existsb isHelpArgument args) eqn:E.
  { rewrite parseArgsFrom_help by exact E. split; intros; discriminate. }
  rewrite parseArgsFrom_no_help by exact E.
  fold (lastPathArgument args). fold (lastVariant args).
  destruct (lastPathArgument args) as [path|]; [|split; intros; discriminate].
  unfold JsString.truthy. rewrite negb_involutive.
  destruct (String.eqb_spec path "") as [Hp|Hp]; [split; intros; discriminate|].
  destruct (lastVariant args) as [v|]; [|split; intros; discriminate].
  assert (Hv : negb (v =? "public")%string && negb (v =? "internal")%string = false ->
               v = "public" \/ v = "internal").
  { destruct (String.eqb_spec v "public"); [auto|].
    destruct (String.eqb_spec v "internal"); [auto | discriminate]. }
  destruct (negb (v =? "public")%string && negb (v =? "internal")%string);
    [split; intros; discriminate|].
  destruct (readable (resolve path)) eqn:Er; simpl; [|split; intros; discriminate].
  destruct (extractModuleAt _ _ _ _ _) as [r|e] eqn:Ex.
  - destruct (stringifyError r) as [e|] eqn:Es; split; intros x [= <-].
    + exists path, v. repeat split; eauto.
    + unfold extractModuleAt in Ex.
      destruct (addSourceFileAtPath (resolve path)) as [sf|] eqn:Ea; [|discriminate].
      exists path, v, sf. repeat split; auto.
  - split; intros x [= <-]. exists path, v. repeat split; auto.
Qed.

Lemma main_prints_what_extraction_returns_witness :
  exists result,
    main (fun path => path) (fun _ => true) (fun _ => Normal sampleFile)
      codeUnitCompare ArraySort.referenceSort circularStructure
      ["/home/user/project/src/sample.ts"; "--variant=internal"]
    = Printed result /\
    extractModule codeUnitCompare ArraySort.referenceSort sampleFile
      "/home/user/project/src/sample.ts" "internal" = Normal result /\
    circularStructure result = None.
Proof.
  assert (H : exists result,
             main (fun path => path) (fun _ => true) (fun _ => Normal sampleFile)
               codeUnitCompare ArraySort.referenceSort circularStructure
               ["/home/user/project/src/sample.ts"; "--variant=internal"]
             = Printed result)
    by (vm_compute; eexists; reflexivity).
  destruct H as [result H]. exists result. split; [exact H|].
  destruct (proj1 (main_prints_what_extraction_returns _ _ _ _ _ _ _) result H)
    as (path & variant & sourceFile & Hp & _ & Hv & _ & _ & Ha & Hx & Hs).
  vm_compute in Hp. injection Hp as <-.
  vm_compute in Hv. injection Hv as <-.
  injection Ha as <-. split; [exact Hx | exact Hs].
Defined.

(* ================================================================== *)
(** * What does not depend on the variant, and constants *)
(* ================================================================== *)

(** X20. The variant, the collation and the sort engine change the exports
    alone: module name, file path, import records, default-export flag and
    line count of two runs on one file agree, and there is one import
    record for each import declaration. *)
Theorem variant_changes_exports_only
  (localeCompare localeCompare' : string -> string -> Z)
  (arraySort arraySort' : ArraySort.EngineSort)
  (sourceFile : SourceFile) (filePath variant variant' : string)
  (r r' : ExtractionResult) :
  extractModule localeCompare arraySort sourceFile filePath variant = Normal r ->
  extractModule localeCompare' arraySort' sourceFile filePath variant' = Normal r' ->
  result_module r = result_module r' /\
  result_filePath r = filePath /\ result_filePath r' = filePath /\
  result_imports r = result_imports r' /\
  map importrec_module (result_imports r)
  = map import_getModuleSpecifierValue (getImportDeclarations sourceFile) /\
  hasDefaultExport (result_metadata r) = hasDefaultExport (result_metadata r') /\
  loc (result_metadata r) = loc (result_metadata r').
Proof.
  unfold extractModule.
  destruct (extractEntries localeCompare arraySort _ variant); simpl; [|discriminate].
  destruct (extractEntries localeCompare' arraySort' _ variant'); simpl;
    [|intros _; discriminate].
  destruct (deriveModuleName filePath); simpl; [|discriminate].
  intros [= <-] [= <-]. simpl. unfold extractImports. rewrite map_map. simpl.
  repeat split.
Qed.

Lemma variant_changes_exports_only_witness :
  exists r r',
    extractModule codeUnitCompare ArraySort.referenceSort sampleFile
      "/home/user/project/src/sample.ts" "public" = Normal r /\
    extractModule codeUnitCompare ArraySort.forwardEngine sampleFile
      "/home/user/project/src/sample.ts" "internal" = Normal r' /\
    result_module r = result_module r' /\
    loc (result_metadata r) = loc (result_metadata r').
Proof.
  assert (H : exists r,
             extractModule codeUnitCompare ArraySort.referenceSort sampleFile
               "/home/user/project/src/sample.ts" "public" = Normal r)
    by (vm_compute; eexists; reflexivity).
  assert (H' : exists r,
             extractModule codeUnitCompare ArraySort.forwardEngine sampleFile
               "/home/user/project/src/sample.ts" "internal" = Normal r)
    by (vm_compute; eexists; reflexivity).
  destruct H as [r Hr]. destruct H' as [r' Hr']. exists r, r'.
  split; [exact Hr|]. split; [exact Hr'|].
  destruct (variant_changes_exports_only _ _ _ _ _ _ _ _ _ _ Hr Hr')
    as (Hm & _ & _ & _ & _ & _ & Hl).
  split; [exact Hm | exact Hl].
Defined.

(** X21. The record of a constant keeps the text of its initializer in
    full as value, whatever its length, while the signature shows it only
    when it is shorter than fifty code units. *)
Theorem constant_value_and_signature
  (localeCompare : string -> string -> Z) (arraySort : ArraySort.EngineSort)
  (decl : Node) (variant type : string) (init : option string) (s : SymbolRecord) :
  getKindName decl = "VariableDeclaration" ->
  node_shape decl = VariableLike type init ->
  extractSymbol localeCompare arraySort decl variant = Normal (Some s) ->
  exists name,
    node_getName decl = Some name /\
    symbol_fields s = ConstFields (extractTypeInfo type) init /\
    (forall initText,
       init = Some initText -> (String.length initText < 50)%nat ->
       symbol_signature s
       = "const " ++ JsString.interpolate name ++ ": " ++ type ++ " = " ++ initText) /\
    (init = None \/
     (exists initText, init = Some initText /\ (50 <= String.length initText)%nat) ->
     symbol_signature s = "const " ++ JsString.interpolate name ++ ": " ++ type).
Proof.
  intros Hk Hshape Hs. unfold extractSymbol in Hs.
  destruct ((variant =? "public")%string && checkPrivacy decl); [discriminate|].
  unfold buildSignature, mapKind, kindMapping in Hs. rewrite Hk in Hs. simpl in Hs.
  unfold buildVariableSignature, extractConst, callGetName, callGetType,
    callGetInitializer in Hs.
  rewrite Hshape in Hs. destruct (node_getName decl) as [name|]; [|discriminate].
  simpl in Hs. exists name. split; [reflexivity|].
  destruct init as [initText|]; simpl in Hs.
  - destruct (Z.ltb_spec (Z.of_nat (String.length initText)) 50) as [Hl|Hl];
      simpl in Hs; injection Hs as <-; simpl; (split; [reflexivity|]); split.
    + now intros t [= <-] _.
    + intros [H|(t & [= <-] & H)]; [discriminate | lia].
    + intros t [= <-] H. lia.
    + reflexivity.
  - injection Hs as <-. simpl. split; [reflexivity|].
    split; [discriminate | reflexivity].
Qed.

Lemma constant_value_and_signature_witness :
  exists s,
    extractSymbol codeUnitCompare ArraySort.referenceSort apiUrlNode "public"
    = Normal (Some s) /\
    symbol_fields s
    = ConstFields (extractTypeInfo "'https://api.example.com'")
                  (Some "'https://api.example.com'").
Proof.
  assert (H : exists s,
             extractSymbol codeUnitCompare ArraySort.referenceSort apiUrlNode "public"
             = Normal (Some s)) by (eexists; reflexivity).
  destruct H as [s Hs]. exists s. split; [exact Hs|].
  destruct (constant_value_and_signature _ _ apiUrlNode "public" _ _ s
              eq_refl eq_refl Hs) as (name & _ & Hf & _).
  exact Hf.
Defined.
